(** * SJR: a shallow embedding of the single-header JSON reader/writer [SJR.h]

    The development follows the layout of the header:
    - the C and C++ library functions the header calls ([isspace], [isdigit],
      [memcmp], [std::stoi], [std::to_string], [std::stof], stream insertion);
    - the class [SJR] (a node of the document tree) with its public accessors;
    - the private recursive-descent parser ([parse] and its helpers);
    - the private serializer ([write] and its helpers);
    - [load] and [save].

    Conventions.
    - Text is [string]; a byte is [ascii].
    - The parser's [char*& file] is the remaining part of the buffer
      [str.data()], terminating NUL included: [*file] is the head, [++file]
      is the tail, and a read at the empty remainder is a read past the
      buffer.
    - [int] is a 32-bit two's complement integer carried in [Z]; arithmetic
      that can leave the range is wrapped explicitly with [wrap_int].
    - [float] and [double] are IEEE-754 binary32 and binary64, computed with
      the standard library's [SpecFloat] operations.
    - A member function that mutates [*this] takes the node and returns the
      updated node.
    - Loops and recursive calls whose termination is not structural take a
      [fuel] argument and answer [OutOfFuel] when it is used up. *)

From Stdlib Require Import ZArith List String Ascii Bool Lia.
From Stdlib Require Import DecimalString Sorted.
From Stdlib Require DecimalPos.
From Stdlib Require Import SpecFloat.
Import ListNotations.

Open Scope string_scope.
Open Scope Z_scope.

(** ** Outcomes of a call *)

Inductive exn : Type :=
| runtime_error (what : string)
| invalid_argument (what : string)
| out_of_range (what : string)
| length_error (what : string).

Inductive outcome (A : Type) : Type :=
| Ret (a : A)            (* normal return *)
| Throw (e : exn)        (* a C++ exception leaves the function *)
| OutOfBounds            (* a read past the end of the text buffer *)
| OutOfFuel.             (* the fuel given to the model was not enough *)

Arguments Ret {A} a.
Arguments Throw {A} e.
Arguments OutOfBounds {A}.
Arguments OutOfFuel {A}.

Definition bind {A B : Type} (m : outcome A) (k : A -> outcome B) : outcome B :=
  match m with
  | Ret a => k a
  | Throw e => Throw e
  | OutOfBounds => OutOfBounds
  | OutOfFuel => OutOfFuel
  end.

Declare Scope outcome_scope.
Delimit Scope outcome_scope with outcome.
Notation "x <- m ;; k" := (bind m (fun x => k))
  (at level 61, m at next level, right associativity) : outcome_scope.
Notation "' p <- m ;; k" := (bind m (fun x => match x with p => k end))
  (at level 61, p pattern, m at next level, right associativity) : outcome_scope.
Open Scope outcome_scope.

(** ** Characters *)

Definition NUL : ascii := "000"%char.
Definition TAB : ascii := "009"%char.
Definition LF : ascii := "010"%char.
Definition DQUOTE : ascii := "034"%char.

Definition code (c : ascii) : Z := Z.of_N (N_of_ascii c).

(** [isspace] in the C locale: space and the five controls [\t \n \v \f \r].
    Bytes above 127 are not white space. *)
Definition isspace (c : ascii) : bool :=
  (code c =? 32) || ((9 <=? code c) && (code c <=? 13)).

Definition isdigit (c : ascii) : bool :=
  (48 <=? code c) && (code c <=? 57).

(** [*file - '0'] *)
Definition digit_of (c : ascii) : Z := code c - 48.

(** Character literals the parser compares against. *)
Definition is_char (c d : ascii) : bool := Ascii.eqb c d.

(** Example inputs are written with ['] where the text has a double quote. *)
Fixpoint q (s : string) : string :=
  match s with
  | EmptyString => EmptyString
  | String c rest => String (if is_char c "'" then DQUOTE else c) (q rest)
  end.

Definition str1 (c : ascii) : string := String c EmptyString.

(** ** 32-bit [int] *)

Definition INT_MIN : Z := - 2 ^ 31.
Definition INT_MAX : Z := 2 ^ 31 - 1.

Definition wrap_int (z : Z) : Z := (z + 2 ^ 31) mod 2 ^ 32 - 2 ^ 31.

(** [size_t] is 64 bits wide. *)
Definition SIZE_MOD : Z := 2 ^ 64.
Definition wrap_size (z : Z) : Z := z mod SIZE_MOD.

(** ** [std::to_string(int)] and [operator<<(int)]: decimal digits, a leading
    [-] for negatives. *)
Definition to_string_int (z : Z) : string :=
  NilZero.string_of_int (Z.to_int z).

(** ** [std::stoi]

    [std::stoi(s)] runs [strtol(s.c_str(), &end, 10)]: it skips leading white
    space, takes an optional sign and then the longest run of decimal digits;
    what follows the digits is ignored.  No digit at all raises
    [std::invalid_argument]; a value outside [int] raises
    [std::out_of_range]. *)

Fixpoint drop_spaces (s : string) : string :=
  match s with
  | String c rest => if isspace c then drop_spaces rest else s
  | EmptyString => s
  end.

(** The digits read so far ([count] of them) and their value. *)
Fixpoint strtol_digits (acc : Z) (count : nat) (s : string) : Z * nat :=
  match s with
  | String c rest =>
      if isdigit c then strtol_digits (acc * 10 + digit_of c) (S count) rest
      else (acc, count)
  | EmptyString => (acc, count)
  end.

Definition strtol_sign (s : string) : bool * string :=
  match s with
  | String c rest =>
      if is_char c "-" then (true, rest)
      else if is_char c "+" then (false, rest)
      else (false, s)
  | EmptyString => (false, s)
  end.

Definition stoi (s : string) : outcome Z :=
  let '(negative, body) := strtol_sign (drop_spaces s) in
  match strtol_digits 0 0 body with
  | (_, O) => Throw (invalid_argument "stoi")
  | (magnitude, _) =>
      let v := if negative then - magnitude else magnitude in
      if (INT_MIN <=? v) && (v <=? INT_MAX) then Ret v
      else Throw (out_of_range "stoi")
  end.

(** ** Floating point

    [float] is binary32 and [double] is binary64; both are carried by
    [spec_float], the operations round to nearest, ties to even.  The sign of
    a NaN is not represented. *)

Definition float : Type := spec_float.
Definition double : Type := spec_float.

Definition float_of_double (x : double) : float :=
  match x with
  | S754_finite s m e => binary_round 24 128 s m e
  | _ => x
  end.

(** Every [float] is a [double]: the conversion is exact. *)
Definition double_of_float (x : float) : double :=
  match x with
  | S754_finite s m e => binary_round 53 1024 s m e
  | _ => x
  end.

Definition float_of_int (z : Z) : float := binary_normalize 24 128 z 0 false.
Definition double_of_int (z : Z) : double := binary_normalize 53 1024 z 0 false.

Definition float_add : float -> float -> float := SFadd 24 128.
Definition float_mul : float -> float -> float := SFmul 24 128.
Definition double_mul : double -> double -> double := SFmul 53 1024.
Definition double_div : double -> double -> double := SFdiv 53 1024.

(** [pow(10, n)] for an [int] exponent: the [double] nearest to the power. *)
Definition pow10 (n : Z) : double :=
  if n <? 0
  then double_div (double_of_int 1) (S754_finite false (Z.to_pos (10 ^ (- n))) 0)
  else double_of_int (10 ^ n).

(** The value of a finite number as a fraction [num / den]. *)
Definition fraction_of (m : positive) (e : Z) : Z * Z :=
  if 0 <=? e then (Z.pos m * 2 ^ e, 1) else (Z.pos m, 2 ^ (- e)).

Definition round_half_even (num den : Z) : Z :=
  let quo := num / den in
  match 2 * (num mod den) ?= den with
  | Lt => quo
  | Gt => quo + 1
  | Eq => if Z.even quo then quo else quo + 1
  end.

Fixpoint zeros (n : nat) : string :=
  match n with
  | O => EmptyString
  | S n' => String "0" (zeros n')
  end.

Definition pad_left (width : nat) (s : string) : string :=
  zeros (width - String.length s) ++ s.

Definition sign_prefix (s : bool) : string := if s then "-" else "".

(** [n / 10^decimals] written with exactly [decimals] digits after the point. *)
Definition fixed_digits (n : Z) (decimals : nat) : string :=
  to_string_int (n / 10 ^ Z.of_nat decimals) ++ "." ++
  pad_left decimals (to_string_int (n mod 10 ^ Z.of_nat decimals)).

(** [std::to_string(double)] is [sprintf] with ["%f"]: six decimals. *)
Definition to_string_double (x : double) : string :=
  match x with
  | S754_nan => "nan"
  | S754_infinity s => sign_prefix s ++ "inf"
  | S754_zero s => sign_prefix s ++ "0.000000"
  | S754_finite s m e =>
      let '(num, den) := fraction_of m e in
      sign_prefix s ++ fixed_digits (round_half_even (num * 10 ^ 6) den) 6
  end.

(** [10^k * den <= num], for [k] of either sign. *)
Definition pow10_le (k num den : Z) : bool :=
  if k <? 0 then den <=? num * 10 ^ (- k) else 10 ^ k * den <=? num.

Fixpoint ilog10_up (fuel : nat) (num den k : Z) : Z :=
  match fuel with
  | O => k
  | S fuel' =>
      if pow10_le (k + 1) num den then ilog10_up fuel' num den (k + 1) else k
  end.

(** The decimal exponent of [num / den]: the greatest [k] with
    [10^k <= num / den]. *)
Definition ilog10 (num den : Z) : Z :=
  ilog10_up (Z.to_nat (Z.log2 num + Z.log2 den + 3)) num den
            (- Z.log2 den - 1).

(** [round (num / den * 10^k)] *)
Definition round_scaled (num den k : Z) : Z :=
  if k <? 0 then round_half_even num (den * 10 ^ (- k))
  else round_half_even (num * 10 ^ k) den.

Fixpoint strip_zeros_rev (l : list ascii) : list ascii :=
  match l with
  | c :: l' => if is_char c "0" then strip_zeros_rev l' else l
  | [] => []
  end.

Definition strip_trailing_zeros (s : string) : string :=
  string_of_list_ascii (rev (strip_zeros_rev (rev (list_ascii_of_string s)))).

Definition with_fraction (int_part frac : string) : string :=
  match strip_trailing_zeros frac with
  | EmptyString => int_part
  | f => int_part ++ "." ++ f
  end.

(** [operator<<(double)] with the stream's default flags is [printf] with
    ["%g"] and precision 6: six significant digits, trailing zeros dropped,
    scientific notation when the decimal exponent is below -4 or above 5. *)
Definition ostream_double (x : double) : string :=
  match x with
  | S754_nan => "nan"
  | S754_infinity s => sign_prefix s ++ "inf"
  | S754_zero s => sign_prefix s ++ "0"
  | S754_finite s m e =>
      let '(num, den) := fraction_of m e in
      let X0 := ilog10 num den in
      let n0 := round_scaled num den (5 - X0) in
      let '(n, X) := if n0 =? 10 ^ 6 then (10 ^ 5, X0 + 1) else (n0, X0) in
      sign_prefix s ++
      (if (-4 <=? X) && (X <? 6)
       then
         let decimals := Z.to_nat (5 - X) in
         with_fraction (to_string_int (n / 10 ^ (5 - X)))
                       (pad_left decimals (to_string_int (n mod 10 ^ (5 - X))))
       else
         with_fraction (to_string_int (n / 10 ^ 5))
                       (pad_left 5 (to_string_int (n mod 10 ^ 5)))
         ++ "e" ++ (if X <? 0 then "-" else "+")
         ++ pad_left 2 (to_string_int (Z.abs X)))
  end.

(** [operator<<(float)] widens to [double]. *)
Definition ostream_float (x : float) : string := ostream_double (double_of_float x).

(** [operator<<(bool)] with [boolalpha] set. *)
Definition ostream_boolalpha (b : bool) : string := if b then "true" else "false".

(** ** [std::stof]

    [std::stof(s)] runs [strtof(s.c_str(), &end)]: leading white space, an
    optional sign, then [inf], [nan], a hexadecimal or a decimal
    floating-point literal; the result is the [float] nearest to the
    literal's value.  No conversion raises [std::invalid_argument]; a range
    error ([ERANGE]: overflow, or an inexact result below the normal range)
    raises [std::out_of_range]. *)

Fixpoint span (p : ascii -> bool) (s : string) : string * string :=
  match s with
  | String c rest =>
      if p c then let '(run, tl) := span p rest in (String c run, tl)
      else (EmptyString, s)
  | EmptyString => (EmptyString, EmptyString)
  end.

(** The value of a run of decimal digits, continuing from [acc]. *)
Fixpoint digits_value (acc : Z) (ds : string) : Z :=
  match ds with
  | String c rest => digits_value (acc * 10 + digit_of c) rest
  | EmptyString => acc
  end.

Definition decimal_value (ds : string) : Z := digits_value 0 ds.

Definition tolower (c : ascii) : ascii :=
  if (65 <=? code c) && (code c <=? 90)
  then ascii_of_N (N_of_ascii c + 32)
  else c.

(** [lit] (in lower case) starts [s], letter case ignored. *)
Fixpoint prefix_nocase (lit s : string) : bool :=
  match lit, s with
  | EmptyString, _ => true
  | String l lit', String c s' => is_char l (tolower c) && prefix_nocase lit' s'
  | String _ _, EmptyString => false
  end.

Definition isxdigit (c : ascii) : bool :=
  isdigit c || ((97 <=? code (tolower c)) && (code (tolower c) <=? 102)).

Definition xdigit_of (c : ascii) : Z :=
  if isdigit c then digit_of c else code (tolower c) - 87.

Fixpoint hex_value (acc : Z) (s : string) : Z :=
  match s with
  | String c rest => hex_value (acc * 16 + xdigit_of c) rest
  | EmptyString => acc
  end.

(** An exponent part: the marker, an optional sign and at least one digit;
    anything else is no exponent. *)
Definition exponent_part (marker : ascii) (s : string) : Z :=
  match s with
  | String c rest =>
      if is_char (tolower c) marker then
        let '(negative, body) := strtol_sign rest in
        match span isdigit body with
        | (EmptyString, _) => 0
        | (ds, _) => if negative then - decimal_value ds else decimal_value ds
        end
      else 0
  | EmptyString => 0
  end.

(** The digits after a decimal point, if there is one. *)
Definition fraction_part (p : ascii -> bool) (s : string) : string * string :=
  match s with
  | String c rest => if is_char c "." then span p rest else (EmptyString, s)
  | EmptyString => (EmptyString, s)
  end.

Inductive strtof_result : Type :=
| NoConversion
| Converted (x : float) (erange : bool).

Definition subnormal_inexact (m : positive) (e : Z) (num den : Z) : bool :=
  let '(n', d') := fraction_of m e in
  (Z.pos (digits2_pos m) <? 24) && negb (n' * den =? num * d').

(** The [float] nearest to [num / den], with its range error flag. *)
Definition round_fraction (negative : bool) (num den : Z) : strtof_result :=
  if num =? 0 then Converted (S754_zero negative) false
  else
    let x := SFdiv 24 128 (S754_finite negative (Z.to_pos num) 0)
                          (S754_finite false (Z.to_pos den) 0) in
    match x with
    | S754_finite _ m e => Converted x (subnormal_inexact m e num den)
    | S754_nan => Converted x false
    | _ => Converted x true
    end.

(** [mantissa * base^exponent] *)
Definition scaled (negative : bool) (mantissa base exponent : Z) : strtof_result :=
  if exponent <? 0 then round_fraction negative mantissa (base ^ (- exponent))
  else round_fraction negative (mantissa * base ^ exponent) 1.

Definition hex_float (negative : bool) (s : string) : option strtof_result :=
  match s with
  | String c0 (String c1 rest) =>
      if is_char c0 "0" && is_char (tolower c1) "x" then
        let '(int_digits, r1) := span isxdigit rest in
        let '(frac_digits, r2) := fraction_part isxdigit r1 in
        match int_digits ++ frac_digits with
        | EmptyString => None
        | ds =>
            Some (scaled negative (hex_value 0 ds) 2
                    (exponent_part "p" r2 - 4 * Z.of_nat (String.length frac_digits)))
        end
      else None
  | _ => None
  end.

Definition decimal_float (negative : bool) (s : string) : strtof_result :=
  let '(int_digits, r1) := span isdigit s in
  let '(frac_digits, r2) := fraction_part isdigit r1 in
  match int_digits ++ frac_digits with
  | EmptyString => NoConversion
  | ds =>
      scaled negative (decimal_value ds) 10
        (exponent_part "e" r2 - Z.of_nat (String.length frac_digits))
  end.

Definition strtof (s : string) : strtof_result :=
  let '(negative, body) := strtol_sign (drop_spaces s) in
  if prefix_nocase "inf" body then Converted (S754_infinity negative) false
  else if prefix_nocase "nan" body then Converted S754_nan false
  else
    match hex_float negative body with
    | Some r => r
    | None => decimal_float negative body
    end.

Definition stof (s : string) : outcome float :=
  match strtof s with
  | NoConversion => Throw (invalid_argument "stof")
  | Converted _ true => Throw (out_of_range "stof")
  | Converted x false => Ret x
  end.

(** ** [std::map<std::string, T>]

    The map keeps its entries ordered by key under [std::less<std::string>]:
    bytes compared as unsigned values, a proper prefix first.  It is carried
    as the list of its entries in iteration order. *)

Definition key_lt (a b : string) : Prop := String.compare a b = Lt.

Section StdMap.
Context {T : Type}.

Definition map_t : Type := list (string * T).

Definition keys (m : map_t) : list string := map fst m.

(** [m.find(k)] *)
Fixpoint map_find (k : string) (m : map_t) : option T :=
  match m with
  | [] => None
  | (k', v') :: m' =>
      match String.compare k k' with
      | Eq => Some v'
      | Lt => None
      | Gt => map_find k m'
      end
  end.

(** [m[k] = v]: the entry is inserted at its place in the order, or the
    value already under [k] is overwritten. *)
Fixpoint map_assign (k : string) (v : T) (m : map_t) : map_t :=
  match m with
  | [] => [(k, v)]
  | (k', v') :: m' =>
      match String.compare k k' with
      | Eq => (k, v) :: m'
      | Lt => (k, v) :: m
      | Gt => (k', v') :: map_assign k v m'
      end
  end.
End StdMap.

Arguments map_t T : clear implicits.

(** ** [std::vector<T>::resize] *)

Section StdVector.
Context {T : Type}.

(** [v.resize(n)]: the first [n] elements are kept and the vector is
    filled up to [n] elements with value-initialized ones. *)
Definition resize (fresh : T) (n : nat) (v : list T) : list T :=
  (firstn n v ++ repeat fresh (n - List.length v))%list.
End StdVector.

(** ** The class [SJR] *)

(** [SJR::Type]. *)
Inductive NodeType : Type := BOOL | INT | FLOAT | STRING | ARRAY | OBJECT.

Definition NodeType_eqb (a b : NodeType) : bool :=
  match a, b with
  | BOOL, BOOL | INT, INT | FLOAT, FLOAT
  | STRING, STRING | ARRAY, ARRAY | OBJECT, OBJECT => true
  | _, _ => false
  end.

#[local] Unset Elimination Schemes.
Inductive SJR : Type :=
  mkSJR {
    mapJson : list (string * SJR);
    vectorJson : list SJR;
    value : string;
    type : NodeType
  }.
#[local] Set Elimination Schemes.

(** A default-constructed node: empty containers, empty [value], and
    [type = Type::OBJECT] from the member initializer. *)
Definition default_SJR : SJR := mkSJR [] [] "" OBJECT.

Definition set_mapJson (m : list (string * SJR)) (self : SJR) : SJR :=
  mkSJR m (vectorJson self) (value self) (type self).
Definition set_vectorJson (v : list SJR) (self : SJR) : SJR :=
  mkSJR (mapJson self) v (value self) (type self).
Definition set_value (s : string) (self : SJR) : SJR :=
  mkSJR (mapJson self) (vectorJson self) s (type self).
Definition set_type (t : NodeType) (self : SJR) : SJR :=
  mkSJR (mapJson self) (vectorJson self) (value self) t.

(** *** [setValue<T>] *)

(** [std::to_string(bool)] resolves to the [int] overload. *)
Definition setValue_bool (newValue : bool) (self : SJR) : SJR :=
  set_value (to_string_int (Z.b2z newValue)) (set_type BOOL self).

Definition setValue_int (newValue : Z) (self : SJR) : SJR :=
  set_value (to_string_int newValue) (set_type INT self).

(** [std::to_string(float)] widens to [double]. *)
Definition setValue_float (newValue : float) (self : SJR) : SJR :=
  set_value (to_string_double (double_of_float newValue)) (set_type FLOAT self).

Definition setValue_string (newValue : string) (self : SJR) : SJR :=
  set_value newValue (set_type STRING self).

(** *** [getType], [getValue<T>], [getChildCount], [getArraySize] *)

Definition getType (self : SJR) : NodeType := type self.

(** [return std::stoi(value)] converted to [bool]: non-zero is [true]. *)
Definition getValue_bool (self : SJR) : outcome bool :=
  v <- stoi (value self) ;; Ret (negb (v =? 0)).

Definition getValue_int (self : SJR) : outcome Z := stoi (value self).

Definition getValue_float (self : SJR) : outcome float := stof (value self).

Definition getValue_string (self : SJR) : outcome string := Ret (value self).

Definition getChildCount (self : SJR) : nat := List.length (mapJson self).

Definition getArraySize (self : SJR) : nat := List.length (vectorJson self).

(** *** [operator[]]

    A returned [SJR&] is the place of the node inside the receiver. *)

Inductive ref : Type :=
| in_mapJson (key : string)
| in_vectorJson (index : nat).

Definition deref (self : SJR) (r : ref) : option SJR :=
  match r with
  | in_mapJson key => map_find key (mapJson self)
  | in_vectorJson index => nth_error (vectorJson self) index
  end.

(** The receiver after the node at the place [r] has been changed into
    [node] through the reference: the change is made inside the receiver's
    own container. *)
Fixpoint vector_assign (index : nat) (node : SJR) (v : list SJR) : list SJR :=
  match index, v with
  | _, [] => []
  | O, _ :: v' => node :: v'
  | S index', x :: v' => x :: vector_assign index' node v'
  end.

Definition write_back (r : ref) (node : SJR) (self : SJR) : SJR :=
  match r with
  | in_mapJson key =>
      match map_find key (mapJson self) with
      | Some _ => set_mapJson (map_assign key node (mapJson self)) self
      | None => self
      end
  | in_vectorJson index => set_vectorJson (vector_assign index node (vectorJson self)) self
  end.

(** [nodeName.data()] read as a C string: the bytes up to the first NUL. *)
Fixpoint c_str (s : string) : string :=
  match s with
  | String c rest => if is_char c NUL then EmptyString else String c (c_str rest)
  | EmptyString => EmptyString
  end.

Definition subscript_name (nodeName : string) (self : SJR) : SJR * ref :=
  let key := c_str nodeName in
  match map_find key (mapJson self) with
  | Some _ => (self, in_mapJson key)
  | None => (set_mapJson (map_assign key default_SJR (mapJson self)) self,
             in_mapJson key)
  end.

Section Subscript.
(** The largest size [vectorJson.resize] accepts; a larger request raises
    [std::length_error] and leaves the vector as it was. *)
Variable max_size : Z.

Definition vector_resize (n : Z) (self : SJR) : outcome SJR :=
  if n <=? max_size
  then Ret (set_vectorJson (resize default_SJR (Z.to_nat n) (vectorJson self)) self)
  else Throw (length_error "vector::_M_default_append").

(** [index] is a [size_t]: [0 <= index < 2^64], and [index + 1] wraps. *)
Definition subscript_index (index : Z) (self : SJR) : outcome (SJR * ref) :=
  self <- (if negb (NodeType_eqb (type self) ARRAY)
           then self <- vector_resize index self ;; Ret (set_type ARRAY self)
           else Ret self) ;;
  self <- (if Z.of_nat (getArraySize self) <=? index
           then vector_resize (wrap_size (index + 1)) self
           else Ret self) ;;
  if index <? Z.of_nat (getArraySize self)
  then Ret (self, in_vectorJson (Z.to_nat index))
  else Throw (out_of_range "vector::_M_range_check").
End Subscript.

(** ** The serializer

    The state of a write: the bytes sent to the [std::ofstream] so far and
    the function-local [static int tabsCount] of [writeObject], which lives
    across calls.  The state left behind when an exception escapes is not
    tracked. *)

Record wstate : Type := mk_wstate { out : string; tabsCount : Z }.

Definition writer : Type := wstate -> outcome wstate.

(** [file << s] *)
Definition put (s : string) : writer :=
  fun st => Ret (mk_wstate (out st ++ s) (tabsCount st)).

Fixpoint tabs (count : nat) : string :=
  match count with
  | O => EmptyString
  | S count' => String TAB (tabs count')
  end.

(** [writeTabs(file, count)]; [count] is a [size_t]. *)
Definition writeTabs (count : Z) : writer := put (tabs (Z.to_nat count)).

(** [SJR::writeTabs(file, tabsCount)]: the [int] is converted to [size_t]. *)
Definition writeTabs_static : writer :=
  fun st => writeTabs (wrap_size (tabsCount st)) st.

Definition add_tabsCount (d : Z) : writer :=
  fun st => Ret (mk_wstate (out st) (wrap_int (tabsCount st + d))).

Definition writeBool (self : SJR) : writer :=
  fun st => v <- stoi (value self) ;; put (ostream_boolalpha (negb (v =? 0))) st.

Definition writeInt (self : SJR) : writer :=
  fun st => v <- stoi (value self) ;; put (to_string_int v) st.

Definition writeFloat (self : SJR) : writer :=
  fun st => v <- stof (value self) ;; put (ostream_float v) st.

Definition writeString (self : SJR) : writer :=
  fun st => put (str1 DQUOTE ++ value self ++ str1 DQUOTE) st.

Section Write.
(** The recursive call [it->write(file)] / [it->second.write(file)]. *)
Variable write : SJR -> writer.

(** The [for] loop of [writeArray]; [it != (--vectorJson.end())] holds
    unless [it] is at the last element. *)
Fixpoint writeArray_loop (elements : list SJR) : writer :=
  fun st =>
    match elements with
    | [] => Ret st
    | it :: rest =>
        st <- write it st ;;
        st <- match rest with
              | [] => Ret st
              | _ :: _ => put ", " st
              end ;;
        writeArray_loop rest st
    end.

Definition writeArray (self : SJR) : writer :=
  fun st =>
    st <- put "[" st ;;
    st <- writeArray_loop (vectorJson self) st ;;
    put "]" st.

(** The [for] loop of [writeObject] over the entries in map order. *)
Fixpoint writeObject_loop (entries : list (string * SJR)) : writer :=
  fun st =>
    match entries with
    | [] => Ret st
    | (first, second) :: rest =>
        st <- put (str1 DQUOTE ++ first ++ str1 DQUOTE) st ;;
        st <- put ": " st ;;
        st <- write second st ;;
        st <- match rest with
              | [] => Ret st
              | _ :: _ =>
                  st <- put ", " st ;;
                  st <- put (str1 LF) st ;;
                  writeTabs_static st
              end ;;
        writeObject_loop rest st
    end.

Definition writeObject (self : SJR) : writer :=
  fun st =>
    st <- match value self with
          | EmptyString => Ret st
          | _ =>
              st <- put (str1 DQUOTE ++ value self ++ str1 DQUOTE) st ;;
              put ": " st
          end ;;
    st <- put (str1 LF) st ;;
    st <- writeTabs_static st ;;
    st <- put ("{" ++ str1 LF) st ;;
    st <- add_tabsCount 1 st ;;
    st <- writeTabs_static st ;;
    st <- writeObject_loop (mapJson self) st ;;
    st <- add_tabsCount (-1) st ;;
    st <- put (str1 LF) st ;;
    st <- writeTabs_static st ;;
    put "}" st.
End Write.

Fixpoint write (self : SJR) {struct self} : writer :=
  match type self with
  | BOOL => writeBool self
  | INT => writeInt self
  | FLOAT => writeFloat self
  | STRING => writeString self
  | ARRAY => writeArray write self
  | OBJECT => writeObject write self
  end.

(** [save]: the file is opened (and so emptied) first; [is_open] tells
    whether that worked.  The result carries the file's content and the
    value [tabsCount] is left with. *)
Definition save (is_open : bool) (self : SJR) (tabsCount0 : Z)
  : outcome (bool * wstate) :=
  if negb is_open then Ret (false, mk_wstate "" tabsCount0)
  else st <- write self (mk_wstate "" tabsCount0) ;; Ret (true, st).

(** ** The parser

    Every [parseX(file)] returns its [bool], the node after its assignments
    and the cursor where it stopped. *)

Definition parsed : Type := bool * SJR * string.

Fixpoint skipWhiteSpace (file : string) : outcome string :=
  match file with
  | EmptyString => OutOfBounds
  | String c rest => if isspace c then skipWhiteSpace rest else Ret file
  end.

(** [memcmp(file, lit, n) == 0] with [n] the length of [lit].  The bytes are
    compared in order and the first difference decides; the buffer is read
    no further than that. *)
Fixpoint memcmp_eq (file lit : string) {struct lit} : outcome bool :=
  match lit with
  | EmptyString => Ret true
  | String l lit' =>
      match file with
      | EmptyString => OutOfBounds
      | String c file' => if is_char c l then memcmp_eq file' lit' else Ret false
      end
  end.

(** [file += n] *)
Fixpoint advance (n : nat) (file : string) : string :=
  match n, file with
  | S n', String _ rest => advance n' rest
  | _, _ => file
  end.

Definition parseBool (self : SJR) (file : string) : outcome parsed :=
  resultTrue <- memcmp_eq file "true" ;;
  resultFalse <- memcmp_eq file "false" ;;
  if resultTrue || resultFalse then
    let self := set_value (to_string_int (Z.b2z resultTrue)) self in
    let file := advance (if resultTrue then 4 else 5) file in
    Ret (true, set_type BOOL self, file)
  else Ret (false, self, file).

(** The first [while] of [parseNumber]: the integer digits. *)
Fixpoint parseNumber_digits (valueInt : Z) (file : string) : outcome (Z * string) :=
  match file with
  | EmptyString => OutOfBounds
  | String c rest =>
      if isdigit c then
        let valueInt := wrap_int (valueInt * 10) in
        let valueInt := wrap_int (valueInt + digit_of c) in
        parseNumber_digits valueInt rest
      else Ret (valueInt, file)
  end.

(** The second [while]: the digits after the point. *)
Fixpoint parseNumber_fraction (valueFloat : float) (shift : Z) (file : string)
  : outcome (float * string) :=
  match file with
  | EmptyString => OutOfBounds
  | String c rest =>
      if isdigit c then
        let valueFloat :=
          float_of_double (double_mul (double_of_float valueFloat) (pow10 shift)) in
        let valueFloat := float_add valueFloat (float_of_int (digit_of c)) in
        let valueFloat :=
          float_of_double (double_div (double_of_float valueFloat) (pow10 shift)) in
        parseNumber_fraction valueFloat (wrap_int (shift + 1)) rest
      else Ret (valueFloat, file)
  end.

(** The third [while]: the digits after the exponent marker.  The body has
    no [++file]. *)
Fixpoint parseNumber_exponent (fuel : nat) (valueInt : Z) (file : string)
  : outcome (Z * string) :=
  match fuel with
  | O => OutOfFuel
  | S fuel' =>
      match file with
      | EmptyString => OutOfBounds
      | String c _ =>
          if isdigit c then
            let valueInt := wrap_int (valueInt * 10) in
            let valueInt := wrap_int (valueInt + digit_of c) in
            parseNumber_exponent fuel' valueInt file
          else Ret (valueInt, file)
      end
  end.

(** [valueFloat * (signNegative ? -1. : 1.)] *)
Definition signed_double (signNegative : bool) (valueFloat : float) : double :=
  double_mul (double_of_float valueFloat)
             (double_of_int (if signNegative then -1 else 1)).

Definition parseNumber (fuel : nat) (self : SJR) (file : string) : outcome parsed :=
  match file with
  | EmptyString => OutOfBounds
  | String c rest =>
      let signNegative := is_char c "-" in
      let signPositive := is_char c "+" in
      let sign := signNegative || signPositive in
      if sign || isdigit c then
        let file := if sign then rest else file in
        '(valueInt, file) <- parseNumber_digits 0 file ;;
        match file with
        | EmptyString => OutOfBounds
        | String c rest =>
            if is_char c "." then
              let self := set_type FLOAT self in
              '(valueFloat, file) <-
                parseNumber_fraction (float_of_int valueInt) 1 rest ;;
              let self :=
                set_value (to_string_double (signed_double signNegative valueFloat))
                          self in
              Ret (true, self, file)
            else if is_char c "e" || is_char c "E" then
              let self := set_type FLOAT self in
              let valueFloat := float_of_int valueInt in
              '(valueInt, file) <- parseNumber_exponent fuel 0 rest ;;
              let valueFloat :=
                float_mul valueFloat (float_of_double (pow10 valueInt)) in
              let self :=
                set_value (to_string_double (signed_double signNegative valueFloat))
                          self in
              Ret (true, self, file)
            else
              let self := set_type INT self in
              let self :=
                set_value
                  (to_string_int
                     (wrap_int (valueInt * (if signNegative then -1 else 1))))
                  self in
              Ret (true, self, file)
        end
      else Ret (false, self, file)
  end.

(** The [while] loop of [parseString], which runs up to the closing quote. *)
Fixpoint parseString_loop (fuel : nat) (self : SJR) (file : string)
  : outcome parsed :=
  match fuel with
  | O => OutOfFuel
  | S fuel' =>
      match file with
      | EmptyString => OutOfBounds
      | String c rest =>
          if negb (is_char c DQUOTE) then
            file <- skipWhiteSpace file ;;
            match file with
            | EmptyString => OutOfBounds
            | String c rest =>
                if is_char c DQUOTE then Ret (true, self, file)
                else
                  let self := set_value (value self ++ str1 c) self in
                  parseString_loop fuel' self rest
            end
          else
            (* the loop is left; [++file; return true] *)
            Ret (true, self, rest)
      end
  end.

Definition parseString (fuel : nat) (self : SJR) (file : string) : outcome parsed :=
  match file with
  | EmptyString => OutOfBounds
  | String c rest =>
      if is_char c DQUOTE
      then parseString_loop fuel (set_type STRING self) rest
      else Ret (false, self, file)
  end.

(** The inner [while] of [parseObject], which reads a key; both ways out of
    it leave the cursor on a double quote. *)
Fixpoint parseObject_key (fuel : nat) (nodeName : string) (file : string)
  : outcome (string * string) :=
  match fuel with
  | O => OutOfFuel
  | S fuel' =>
      match file with
      | EmptyString => OutOfBounds
      | String c rest =>
          if negb (is_char c DQUOTE) then
            file <- skipWhiteSpace file ;;
            match file with
            | EmptyString => OutOfBounds
            | String c rest =>
                if is_char c DQUOTE then Ret (nodeName, file)
                else parseObject_key fuel' (nodeName ++ str1 c) rest
            end
          else Ret (nodeName, file)
      end
  end.

(** [*file], and the cursor after [++file]. *)
Definition peek (file : string) : outcome (ascii * string) :=
  match file with
  | EmptyString => OutOfBounds
  | String c rest => Ret (c, rest)
  end.

Fixpoint parse (fuel : nat) (self : SJR) (file : string) {struct fuel}
  : outcome parsed :=
  match fuel with
  | O => OutOfFuel
  | S fuel' =>
      file <- skipWhiteSpace file ;;
      '(ok, self, file) <- parseString fuel' self file ;;
      if ok then Ret (true, self, file) else
      '(ok, self, file) <- parseBool self file ;;
      if ok then Ret (true, self, file) else
      '(ok, self, file) <- parseNumber fuel' self file ;;
      if ok then Ret (true, self, file) else
      '(ok, self, file) <- parseArray fuel' self file ;;
      if ok then Ret (true, self, file) else
      '(ok, self, file) <- parseObject fuel' self file ;;
      if ok then Ret (true, self, file) else
      Ret (false, self, file)
  end

with parseArray (fuel : nat) (self : SJR) (file : string) {struct fuel}
  : outcome parsed :=
  match fuel with
  | O => OutOfFuel
  | S fuel' =>
      '(c, rest) <- peek file ;;
      if is_char c "[" then parseArray_loop fuel' (set_type ARRAY self) rest
      else Ret (false, self, file)
  end

(** The [while] loop of [parseArray], which runs up to the closing bracket. *)
with parseArray_loop (fuel : nat) (self : SJR) (file : string) {struct fuel}
  : outcome parsed :=
  match fuel with
  | O => OutOfFuel
  | S fuel' =>
      '(c, rest) <- peek file ;;
      if negb (is_char c "]") then
        file <- skipWhiteSpace file ;;
        '(c, rest) <- peek file ;;
        if is_char c "]" then Ret (true, self, rest) else
        '(ok, newSJR, file) <- parse fuel' default_SJR file ;;
        if negb ok then Ret (false, self, file) else
        let self := set_vectorJson (vectorJson self ++ [newSJR]) self in
        file <- skipWhiteSpace file ;;
        '(c, rest) <- peek file ;;
        if is_char c "]" then Ret (true, set_type ARRAY self, rest) else
        if negb (is_char c ",") then Ret (false, self, file) else
        parseArray_loop fuel' self rest
      else
        (* the loop is left; [++file; return true] *)
        Ret (true, self, rest)
  end

with parseObject (fuel : nat) (self : SJR) (file : string) {struct fuel}
  : outcome parsed :=
  match fuel with
  | O => OutOfFuel
  | S fuel' =>
      '(c, rest) <- peek file ;;
      if is_char c "{" then parseObject_loop fuel' (set_type OBJECT self) rest
      else Ret (false, self, file)
  end

(** The [while] loop of [parseObject], which runs up to the closing brace. *)
with parseObject_loop (fuel : nat) (self : SJR) (file : string) {struct fuel}
  : outcome parsed :=
  match fuel with
  | O => OutOfFuel
  | S fuel' =>
      '(c, rest) <- peek file ;;
      if negb (is_char c "}") then
        file <- skipWhiteSpace file ;;
        '(c, rest) <- peek file ;;
        if is_char c "}" then Ret (true, self, rest) else
        (* the block run when a key opens here; [None] stands for an early
           [return true] inside the block *)
        entry <-
          (if is_char c DQUOTE then
             '(nodeName, file) <- parseObject_key fuel' "" rest ;;
             '(c, rest) <- peek file ;;
             if negb (is_char c DQUOTE) then Ret (None, self, file) else
             file <- skipWhiteSpace rest ;;
             '(c, rest) <- peek file ;;
             if negb (is_char c ":") then Ret (None, self, file) else
             file <- skipWhiteSpace rest ;;
             '(ok, newNode, file) <- parse fuel' default_SJR file ;;
             if negb ok then Ret (None, self, file) else
             let self := set_type OBJECT self in
             let self := set_mapJson (map_assign nodeName newNode (mapJson self)) self in
             Ret (Some tt, self, file)
           else Ret (Some tt, self, file)) ;;
        match entry with
        | (None, self, file) => Ret (true, self, file)
        | (Some _, self, file) =>
            file <- skipWhiteSpace file ;;
            '(c, rest) <- peek file ;;
            if is_char c "}" then Ret (true, self, rest) else
            if negb (is_char c ",") then Ret (false, self, file) else
            parseObject_loop fuel' self rest
        end
      else
        (* the loop is left; [++file; return true] *)
        Ret (true, self, rest)
  end.

(** ** [load]

    [file] is the content of the named file, [None] when it cannot be
    opened.  The parser runs over [str.data()], the content followed by the
    terminating NUL. *)
Definition load (fuel : nat) (file : option string) (self : SJR) : outcome SJR :=
  match file with
  | None => Throw (runtime_error "File cannot be opened.")
  | Some str =>
      '(ok, self, _) <- parse fuel self (str ++ str1 NUL) ;;
      if ok then Ret self
      else Throw (runtime_error "File doesn't correspong to json format file.")
  end.

(** ** Vocabulary of the statements *)

Fixpoint all_chars (p : ascii -> bool) (s : string) : bool :=
  match s with
  | EmptyString => true
  | String c rest => p c && all_chars p rest
  end.

Definition starts_with (p : ascii -> bool) (s : string) : bool :=
  match s with
  | String c _ => p c
  | EmptyString => false
  end.

Definition signed_value (sign ds : string) : Z :=
  if String.eqb sign "-" then - decimal_value ds else decimal_value ds.

(** A text is integer-parseable when it reads as an [int]: optional white
    space, an optional sign, then one or more decimal digits (the whole run
    of them) whose signed value lies in the range of [int]; what follows the
    digits is free. *)
Definition integer_text (s : string) : Prop :=
  exists ws sign ds rest,
    s = ws ++ sign ++ ds ++ rest /\
    all_chars isspace ws = true /\
    (sign = "" \/ sign = "+" \/ sign = "-") /\
    ds <> "" /\
    all_chars isdigit ds = true /\
    starts_with isdigit rest = false /\
    INT_MIN <= signed_value sign ds <= INT_MAX.

(** [r1] is what a run with less fuel gives when a run with more gives [r2]:
    either the fuel ran out, or the outcome is the same. *)
Definition refines {A : Type} (r1 r2 : outcome A) : Prop :=
  r1 = OutOfFuel \/ r1 = r2.

(** [m] returns only values that satisfy [P]. *)
Definition ensures {A : Type} (P : A -> Prop) (m : outcome A) : Prop :=
  forall a, m = Ret a -> P a.

(** The keys of a map are strictly increasing. *)
Definition sorted_keys {T : Type} (m : map_t T) : Prop :=
  StronglySorted key_lt (keys m).

(** Every map in the tree has its keys in strictly increasing order. *)
#[local] Unset Elimination Schemes.
Inductive well_ordered : SJR -> Prop :=
| well_ordered_node (self : SJR) :
    sorted_keys (mapJson self) ->
    Forall well_ordered (map snd (mapJson self)) ->
    Forall well_ordered (vectorJson self) ->
    well_ordered self.
#[local] Set Elimination Schemes.

(** The node carried by a parser result. *)
Definition node_of {A B : Type} (r : A * SJR * B) : SJR := snd (fst r).

(** A parser function hands a well-ordered node back as one. *)
Definition keeps_order (f : SJR -> string -> outcome parsed) : Prop :=
  forall self file,
    well_ordered self -> ensures (fun r => well_ordered (node_of r)) (f self file).

(** An Object built by inserting the key [zebra] and then the key [apple],
    and the text [save] writes for it. *)
Definition zebra_apple : SJR :=
  fst (subscript_name "apple" (fst (subscript_name "zebra" default_SJR))).

Definition zebra_apple_text : string :=
  str1 LF ++ "{" ++ str1 LF ++
  str1 TAB ++ q "'apple': " ++ str1 LF ++
  str1 TAB ++ "{" ++ str1 LF ++
  str1 TAB ++ str1 TAB ++ str1 LF ++
  str1 TAB ++ "}, " ++ str1 LF ++
  str1 TAB ++ q "'zebra': " ++ str1 LF ++
  str1 TAB ++ "{" ++ str1 LF ++
  str1 TAB ++ str1 TAB ++ str1 LF ++
  str1 TAB ++ "}" ++ str1 LF ++
  "}".

(** A node of kind Object with one child under the key [k]. *)
Definition one_child : SJR := fst (subscript_name "k" default_SJR).

(** The end-to-end example: its input, and the text the specification
    prints for it (an opening brace on the first line, [,] and a newline
    between the pairs). *)
Definition example_input : string := q "{'a': 1, 'b': 2.5, 'c': true}".

Definition example_text_spec : string :=
  "{" ++ str1 LF ++
  str1 TAB ++ q "'a': 1," ++ str1 LF ++
  str1 TAB ++ q "'b': 2.5," ++ str1 LF ++
  str1 TAB ++ q "'c': true" ++ str1 LF ++
  "}".

(** The text [save] writes for it. *)
Definition example_text_written : string :=
  str1 LF ++ "{" ++ str1 LF ++
  str1 TAB ++ q "'a': 1, " ++ str1 LF ++
  str1 TAB ++ q "'b': 2.5, " ++ str1 LF ++
  str1 TAB ++ q "'c': true" ++ str1 LF ++
  "}".

Definition example_document : SJR :=
  mkSJR [("a", mkSJR [] [] "1" INT);
         ("b", mkSJR [] [] "2.500000" FLOAT);
         ("c", mkSJR [] [] "1" BOOL)]
        [] "" OBJECT.

(** The value of a decimal numeral read from its most significant digit,
    continuing from [acc]. *)
Fixpoint uint_value (acc : Z) (d : Decimal.uint) : Z :=
  match d with
  | Decimal.Nil => acc
  | Decimal.D0 l => uint_value (acc * 10) l
  | Decimal.D1 l => uint_value (acc * 10 + 1) l
  | Decimal.D2 l => uint_value (acc * 10 + 2) l
  | Decimal.D3 l => uint_value (acc * 10 + 3) l
  | Decimal.D4 l => uint_value (acc * 10 + 4) l
  | Decimal.D5 l => uint_value (acc * 10 + 5) l
  | Decimal.D6 l => uint_value (acc * 10 + 6) l
  | Decimal.D7 l => uint_value (acc * 10 + 7) l
  | Decimal.D8 l => uint_value (acc * 10 + 8) l
  | Decimal.D9 l => uint_value (acc * 10 + 9) l
  end.

(** The bytes on which one of the five alternatives of [parse] gets past
    its first test: a double quote, the first letter of [true] or [false], a
    sign or a digit, an opening bracket, an opening brace. *)
Definition value_start (c : ascii) : bool :=
  is_char c DQUOTE || is_char c "t" || is_char c "f" ||
  is_char c "+" || is_char c "-" || isdigit c ||
  is_char c "[" || is_char c "{".

(** No double quote occurs in the text. *)
Definition no_quote (s : string) : bool :=
  all_chars (fun c => negb (is_char c DQUOTE)) s.

(** The text with every white space byte taken out. *)
Fixpoint squeeze (s : string) : string :=
  match s with
  | EmptyString => EmptyString
  | String c rest => if isspace c then squeeze rest else String c (squeeze rest)
  end.

(** The last byte of the text is white space. *)
Fixpoint ends_with_space (s : string) : bool :=
  match s with
  | EmptyString => false
  | String c EmptyString => isspace c
  | String _ rest => ends_with_space rest
  end.

(** A byte that ends an integer literal: not a digit, not a point, not an
    exponent marker. *)
Definition ends_integer (c : ascii) : bool :=
  negb (isdigit c || is_char c "." || is_char c "e" || is_char c "E").

(** [st'] comes after [st] in a write that only appended text and left the
    indentation counter where it was. *)
Definition steady (st st' : wstate) : Prop :=
  tabsCount st' = tabsCount st /\ exists text, out st' = out st ++ text.

(** The counter holds an [int]. *)
Definition counter_in_range (st : wstate) : Prop :=
  INT_MIN <= tabsCount st <= INT_MAX.

(** The recursive call [write] on [node], whenever it returns, has been
    steady. *)
Definition writes_steady (write : SJR -> writer) (node : SJR) : Prop :=
  forall st st', counter_in_range st -> write node st = Ret st' -> steady st st'.

(** [self] has every key of [base] and its elements start with those of
    [base]. *)
Definition grows (base self : SJR) : Prop :=
  incl (keys (mapJson base)) (keys (mapJson self)) /\
  exists added, vectorJson self = (vectorJson base ++ added)%list.

(** A parser function keeps every key and every element of the node it is
    given: the node it returns has them all, the elements in front. *)
Definition keeps_entries (f : SJR -> string -> outcome parsed) : Prop :=
  forall base self file,
    grows base self -> ensures (fun r => grows base (node_of r)) (f self file).

(** A text the format can carry as a key or as a string: no double quote
    and no white space in it. *)
Definition plain (s : string) : bool :=
  all_chars (fun c => negb (is_char c DQUOTE) && negb (isspace c)) s.

(** The trees made of Bool, Int, String, Array and Object nodes that hold
    nothing but what their kind uses: a Bool holds the text [setValue<bool>]
    stores, an Int the text [setValue<int>] stores (for a value whose
    negation is an [int] too), a String a plain text; an Array has elements
    only and an Object, with no label in its scalar, has children only,
    under plain keys in key order. *)
#[local] Unset Elimination Schemes.
Inductive canonical : SJR -> Prop :=
| canonical_bool (b : bool) :
    canonical (setValue_bool b default_SJR)
| canonical_int (v : Z) :
    - INT_MAX <= v <= INT_MAX -> canonical (setValue_int v default_SJR)
| canonical_string (s : string) :
    plain s = true -> canonical (setValue_string s default_SJR)
| canonical_array (v : list SJR) :
    Forall canonical v -> canonical (mkSJR [] v "" ARRAY)
| canonical_object (m : list (string * SJR)) :
    sorted_keys m ->
    Forall (fun k => plain k = true) (keys m) ->
    Forall canonical (map snd m) ->
    canonical (mkSJR m [] "" OBJECT).
#[local] Set Elimination Schemes.

(** Writing [t] from any state returns, and what it writes is white space
    followed by a text that, with enough fuel, parses back to [t] in front of
    any remainder that could end an integer literal. *)
Definition round_trips (t : SJR) : Prop :=
  forall st, exists st' ws core fuel,
    write t st = Ret st' /\
    out st' = out st ++ ws ++ core /\
    all_chars isspace ws = true /\
    starts_with value_start core = true /\
    forall extra rest,
      starts_with ends_integer rest = true ->
      parse (fuel + extra) default_SJR (core ++ rest) = Ret (true, t, rest).

(** An object with an array and a string under it. *)
Definition nested_document : SJR :=
  mkSJR [("items", mkSJR [] [setValue_int (-7) default_SJR;
                             setValue_bool true default_SJR] "" ARRAY);
         ("name", setValue_string "box" default_SJR)]
        [] "" OBJECT.

(** An Object node that holds a scalar beside its child. *)
Definition labelled_object : SJR := mkSJR [("k", default_SJR)] [] "tag" OBJECT.

(** ** Texts of well-formed values

    [value_text text node]: [text] is one complete value ([true] or
    [false], an integer literal that fits an [int], a closed string literal,
    an array or an object of such values, with any white space between the
    tokens), and [node] is what a fresh node holds once the value has been
    read into it.  Inside a string literal or a key white space is free but
    not kept, and a string literal does not end in white space.  The
    elements of an array and the pairs of an object may be followed by one
    more comma. *)

(** [mapJson[key] = node] for every pair, in the order of the text. *)
Definition assign_all (entries : list (string * SJR)) (m : map_t SJR)
  : map_t SJR :=
  fold_left (fun m entry => map_assign (fst entry) (snd entry) m) entries m.

Inductive value_text : string -> SJR -> Prop :=
| bool_text (b : bool) :
    value_text (ostream_boolalpha b) (setValue_bool b default_SJR)
| int_text (sign ds : string) :
    sign = "" \/ sign = "+" \/ sign = "-" ->
    all_chars isdigit ds = true -> ds <> "" ->
    decimal_value ds <= INT_MAX ->
    value_text (sign ++ ds) (setValue_int (signed_value sign ds) default_SJR)
| string_text (s : string) :
    no_quote s = true -> ends_with_space s = false ->
    value_text (String DQUOTE (s ++ str1 DQUOTE))
               (setValue_string (squeeze s) default_SJR)
| array_text (body : string) (elements : list SJR) :
    elements_text body elements ->
    value_text (String "[" (body ++ "]")) (mkSJR [] elements "" ARRAY)
| object_text (body : string) (entries : list (string * SJR)) :
    entries_text body entries ->
    value_text (String "{" (body ++ "}"))
               (mkSJR (assign_all entries []) [] "" OBJECT)

(** What stands between the brackets of an array. *)
with elements_text : string -> list SJR -> Prop :=
| elements_none (ws : string) :
    all_chars isspace ws = true -> elements_text ws []
| elements_last (ws text ws' : string) (node : SJR) :
    all_chars isspace ws = true -> value_text text node ->
    all_chars isspace ws' = true ->
    elements_text (ws ++ text ++ ws') [node]
| elements_more (ws text ws' body : string) (node : SJR) (nodes : list SJR) :
    all_chars isspace ws = true -> value_text text node ->
    all_chars isspace ws' = true -> elements_text body nodes ->
    elements_text (ws ++ text ++ ws' ++ String "," body) (node :: nodes)

(** What stands between the braces of an object. *)
with entries_text : string -> list (string * SJR) -> Prop :=
| entries_none (ws : string) :
    all_chars isspace ws = true -> entries_text ws []
| entries_last (ws k ws1 ws2 text ws' : string) (node : SJR) :
    all_chars isspace ws = true -> no_quote k = true ->
    all_chars isspace ws1 = true -> all_chars isspace ws2 = true ->
    value_text text node -> all_chars isspace ws' = true ->
    entries_text
      (ws ++ String DQUOTE (k ++ String DQUOTE
                              (ws1 ++ String ":" (ws2 ++ text ++ ws'))))
      [(squeeze k, node)]
| entries_more (ws k ws1 ws2 text ws' body : string) (node : SJR)
               (entries : list (string * SJR)) :
    all_chars isspace ws = true -> no_quote k = true ->
    all_chars isspace ws1 = true -> all_chars isspace ws2 = true ->
    value_text text node -> all_chars isspace ws' = true ->
    entries_text body entries ->
    entries_text
      (ws ++ String DQUOTE (k ++ String DQUOTE
                              (ws1 ++ String ":"
                                 (ws2 ++ text ++ ws' ++ String "," body))))
      ((squeeze k, node) :: entries).

Scheme value_text_mut := Minimality for value_text Sort Prop
  with elements_text_mut := Minimality for elements_text Sort Prop
  with entries_text_mut := Minimality for entries_text Sort Prop.

Combined Scheme value_text_mutind
  from value_text_mut, elements_text_mut, entries_text_mut.

(** The bytes after a value do not continue it: after an integer literal
    the next byte is not a digit, a point or an exponent marker. *)
Definition ends_value (node : SJR) (rest : string) : Prop :=
  type node = INT -> starts_with ends_integer rest = true.


Definition object_example : SJR :=
  mkSJR [("k", setValue_bool true default_SJR)] [] "" OBJECT.

(** The parser reads the text as the node, from some fuel on, and stops
    right after it, whatever follows (as long as it does not continue the
    value). *)
Definition reads_value (text : string) (node : SJR) : Prop :=
  starts_with value_start text = true /\
  exists fuel, forall extra rest,
    ends_value node rest ->
    parse (fuel + extra) default_SJR (text ++ rest) = Ret (true, node, rest).

(** The loop of [parseArray] reads the text up to the closing bracket and
    pushes the nodes. *)
Definition reads_elements (body : string) (nodes : list SJR) : Prop :=
  exists fuel, forall extra self rest,
    type self = ARRAY ->
    parseArray_loop (fuel + extra) self (body ++ String "]" rest) =
    Ret (true, set_vectorJson (vectorJson self ++ nodes) self, rest).

(** The loop of [parseObject] reads the text up to the closing brace and
    assigns the pairs. *)
Definition reads_entries (body : string) (entries : list (string * SJR)) : Prop :=
  exists fuel, forall extra self rest,
    type self = OBJECT ->
    parseObject_loop (fuel + extra) self (body ++ String "}" rest) =
    Ret (true, set_mapJson (assign_all entries (mapJson self)) self, rest).

(** A String node that holds a child and an element beside its scalar. *)
Definition used_node : SJR :=
  mkSJR [("k", one_child)] [one_child] "old" STRING.

(** * Properties *)

(** ** Outcomes *)

Lemma bind_Ret_inv {A B : Type} (m : outcome A) (k : A -> outcome B) (b : B) :
  bind m k = Ret b -> exists a, m = Ret a /\ k a = Ret b.
Proof.
  destruct m as [a | e | |]; simpl; intros H; try discriminate.
  exists a; split; [reflexivity | exact H].
Qed.

(** ** Vectors *)

Lemma resize_length {T : Type} (fresh : T) (n : nat) (v : list T) :
  List.length (resize fresh n v) = n.
Proof.
  unfold resize.
  rewrite length_app, length_firstn, repeat_length. lia.
Qed.

(** Growing by one after a [resize] appends one fresh element. *)
Lemma resize_succ_after_resize {T : Type} (fresh : T) (n : nat) (v : list T) :
  resize fresh (S n) (resize fresh n v) = (resize fresh n v ++ [fresh])%list.
Proof.
  unfold resize at 1.
  rewrite resize_length.
  rewrite firstn_all2 by (rewrite resize_length; lia).
  replace (S n - n)%nat with 1%nat by lia.
  reflexivity.
Qed.

(** ** Accessors *)

Lemma NodeType_eqb_neq (a b : NodeType) : a <> b -> NodeType_eqb a b = false.
Proof. destruct a, b; simpl; intros H; congruence. Qed.

Section SubscriptFacts.
Variable max_size : Z.

Lemma vector_resize_ok (n : Z) (self : SJR) :
  n <= max_size ->
  vector_resize max_size n self =
  Ret (set_vectorJson (resize default_SJR (Z.to_nat n) (vectorJson self)) self).
Proof.
  intros Hn. unfold vector_resize.
  destruct (Z.leb_spec n max_size); [reflexivity | lia].
Qed.

(** What [operator[](size_t)] does to a node that is not an array. *)
Lemma subscript_index_coerces (index : Z) (self : SJR) :
  type self <> ARRAY ->
  0 <= index -> index + 1 <= max_size -> index + 1 < SIZE_MOD ->
  subscript_index max_size index self =
  Ret (mkSJR (mapJson self)
             (resize default_SJR (Z.to_nat index) (vectorJson self) ++ [default_SJR])
             (value self) ARRAY,
       in_vectorJson (Z.to_nat index)).
Proof.
  intros Hty H0 Hmax Hsz. unfold subscript_index.
  rewrite (NodeType_eqb_neq _ _ Hty). cbn [negb].
  rewrite vector_resize_ok by lia. cbn [bind].
  unfold getArraySize. cbn [vectorJson set_type set_vectorJson].
  rewrite resize_length, Z2Nat.id by lia.
  rewrite Z.leb_refl.
  unfold wrap_size. rewrite Z.mod_small by lia.
  rewrite vector_resize_ok by lia. cbn [bind].
  cbn [vectorJson set_type set_vectorJson mapJson value type].
  rewrite resize_length.
  replace (Z.to_nat (index + 1)) with (S (Z.to_nat index)) by lia.
  destruct (Z.ltb_spec index (Z.of_nat (S (Z.to_nat index)))); [| lia].
  rewrite resize_succ_after_resize. reflexivity.
Qed.
End SubscriptFacts.

(** C2.  A freshly default-constructed node [n] has kind Object and no
    children.  Evaluating [n[5]] returns normally (the vector may be resized
    to 6 elements), turns [n] into an Array whose element sequence has size
    exactly 6, whose elements at the indices 0 to 4 are default-constructed
    Object nodes, and the returned reference is the place of the element at
    index 5 (a default node as well). *)
Theorem subscript_index_fresh_node (max_size : Z) (Hmax : 6 <= max_size) :
  type default_SJR = OBJECT /\ getChildCount default_SJR = 0%nat /\
  exists n',
    subscript_index max_size 5 default_SJR = Ret (n', in_vectorJson 5) /\
    type n' = ARRAY /\
    getArraySize n' = 6%nat /\
    (forall i, (i < 5)%nat -> nth_error (vectorJson n') i = Some default_SJR) /\
    deref n' (in_vectorJson 5) = nth_error (vectorJson n') 5 /\
    deref n' (in_vectorJson 5) = Some default_SJR.
Proof.
  split; [reflexivity | split; [reflexivity |]].
  eexists. split.
  - rewrite subscript_index_coerces; try reflexivity; try lia.
    discriminate.
  - cbn. repeat split.
    intros i Hi.
    do 5 (destruct i as [| i]; [reflexivity |]). lia.
Qed.

Lemma subscript_index_fresh_node_witness :
  6 <= 1024 /\
  exists n',
    subscript_index 1024 5 default_SJR = Ret (n', in_vectorJson 5) /\
    getArraySize n' = 6%nat.
Proof.
  split; [lia |].
  destruct (subscript_index_fresh_node 1024) as (_ & _ & n' & H1 & _ & H3 & _).
  - lia.
  - exists n'. split; assumption.
Defined.

(** C3, as amended.  For every node whose kind is not Array, and every index
    the element vector can be resized past, [operator[](size_t)] returns
    normally and coerces the node to kind Array with [index + 1] elements:
    the elements stored below [index] are kept, the rest are
    default-constructed Object nodes.  The prior object and scalar content is
    not discarded: [mapJson] and [value] are left as they were, so
    [getChildCount()] returns after the access what it returned before. *)
Theorem subscript_index_keeps_content
    (max_size index : Z) (self : SJR)
    (Hkind : type self <> ARRAY)
    (Hindex : 0 <= index)
    (Hroom : index + 1 <= max_size)
    (Hsize : index + 1 < SIZE_MOD) :
  exists self',
    subscript_index max_size index self = Ret (self', in_vectorJson (Z.to_nat index)) /\
    type self' = ARRAY /\
    Z.of_nat (getArraySize self') = index + 1 /\
    vectorJson self' =
      (resize default_SJR (Z.to_nat index) (vectorJson self) ++ [default_SJR])%list /\
    mapJson self' = mapJson self /\
    value self' = value self /\
    getChildCount self' = getChildCount self.
Proof.
  eexists. split.
  - apply subscript_index_coerces; assumption.
  - unfold getArraySize, getChildCount. cbn [type vectorJson mapJson value].
    repeat split.
    rewrite length_app, resize_length. cbn [List.length]. lia.
Qed.

Lemma subscript_index_keeps_content_witness :
  type one_child <> ARRAY /\
  exists self',
    subscript_index 1024 0 one_child = Ret (self', in_vectorJson 0) /\
    type self' = ARRAY /\
    getChildCount self' = getChildCount one_child.
Proof.
  split; [discriminate |].
  destruct (subscript_index_keeps_content 1024 0 one_child)
    as (self' & H1 & H2 & _ & _ & _ & _ & H7).
  - discriminate.
  - lia.
  - lia.
  - reflexivity.
  - exists self'. repeat split; assumption.
Defined.

(** C3, as stated, fails: a node of kind Object with one child still has that
    child after [n[0]], and [getChildCount()] is 1 rather than 0. *)
Lemma subscript_index_discards_content_counterexample :
  type one_child = OBJECT /\
  getChildCount one_child = 1%nat /\
  exists self' r,
    subscript_index 1024 0 one_child = Ret (self', r) /\
    type self' = ARRAY /\
    mapJson self' = mapJson one_child /\
    getChildCount self' = 1%nat /\
    getChildCount self' <> 0%nat.
Proof.
  split; [reflexivity | split; [reflexivity |]].
  eexists. eexists. split; [reflexivity |].
  cbn. repeat split. discriminate.
Qed.

(** C5, as amended.  For every boolean [b], [setValue<bool>(b)] sets the kind
    to Bool and stores the text of [b] converted to [int], that is [1] for
    [true] and [0] for [false]; [mapJson] and [vectorJson] are untouched. *)
Theorem setValue_bool_stores_digit (b : bool) (self : SJR) :
  type (setValue_bool b self) = BOOL /\
  value (setValue_bool b self) = (if b then "1" else "0") /\
  mapJson (setValue_bool b self) = mapJson self /\
  vectorJson (setValue_bool b self) = vectorJson self.
Proof.
  destruct b; repeat split.
Qed.

(** C5, as stated, fails: after [setValue<bool>(true)] the stored text is
    [1], not [true], and after [setValue<bool>(false)] it is [0], not
    [false]. *)
Lemma setValue_bool_text_counterexample :
  value (setValue_bool true default_SJR) = "1" /\
  value (setValue_bool true default_SJR) <> "true" /\
  value (setValue_bool false default_SJR) = "0" /\
  value (setValue_bool false default_SJR) <> "false".
Proof.
  repeat split; discriminate.
Qed.

(** C6.  After [n.setValue<bool>(true)], [getValue<bool>()] and
    [getValue<int>()] both convert the same stored text with [std::stoi];
    the first yields [true], the second [1], and [==] (which promotes the
    [bool] to [int]) finds them equal, the common value being 1. *)
Theorem getValue_bool_int_agree (self : SJR) :
  let n := setValue_bool true self in
  stoi (value n) = Ret 1 /\
  getValue_bool n = Ret true /\
  getValue_int n = Ret 1 /\
  Z.b2z true = 1.
Proof.
  cbn. repeat split.
Qed.

(** ** [std::stoi] against the shape of an integer text *)

Lemma isdigit_not_space (c : ascii) : isdigit c = true -> isspace c = false.
Proof.
  unfold isdigit, isspace. intros H.
  apply andb_true_iff in H. destruct H as [H1 H2].
  apply Z.leb_le in H1. apply Z.leb_le in H2.
  destruct (Z.eqb_spec (code c) 32); [lia |].
  destruct (Z.leb_spec 9 (code c)); [| reflexivity].
  destruct (Z.leb_spec (code c) 13); [lia | reflexivity].
Qed.

Lemma is_char_eq (c d : ascii) : is_char c d = true -> c = d.
Proof. apply Ascii.eqb_eq. Qed.

Lemma isdigit_not_char (c d : ascii) :
  isdigit c = true -> isdigit d = false -> is_char c d = false.
Proof.
  intros Hc Hd. destruct (is_char c d) eqn:E; [| reflexivity].
  apply is_char_eq in E. congruence.
Qed.

Lemma drop_spaces_split (s : string) :
  exists ws, s = ws ++ drop_spaces s /\ all_chars isspace ws = true.
Proof.
  induction s as [| c s IH]; simpl.
  - exists "". split; reflexivity.
  - destruct (isspace c) eqn:Hc.
    + destruct IH as (ws & Hs & Hws).
      exists (String c ws). simpl. rewrite Hc, Hws, <- Hs. split; reflexivity.
    + exists "". split; reflexivity.
Qed.

Lemma drop_spaces_app (ws t : string) :
  all_chars isspace ws = true -> starts_with isspace t = false ->
  drop_spaces (ws ++ t) = t.
Proof.
  induction ws as [| c ws IH]; simpl; intros Hws Ht.
  - destruct t as [| d t]; [reflexivity |].
    simpl in *. rewrite Ht. reflexivity.
  - apply andb_true_iff in Hws. destruct Hws as [Hc Hws].
    rewrite Hc. apply IH; assumption.
Qed.

Lemma strtol_sign_split (s : string) :
  exists sign,
    s = sign ++ snd (strtol_sign s) /\
    (sign = "" \/ sign = "+" \/ sign = "-") /\
    fst (strtol_sign s) = String.eqb sign "-".
Proof.
  destruct s as [| c s]; simpl.
  - exists "". repeat split. left; reflexivity.
  - destruct (is_char c "-") eqn:Hm.
    + apply is_char_eq in Hm. subst c.
      exists "-". repeat split. right; right; reflexivity.
    + destruct (is_char c "+") eqn:Hp.
      * apply is_char_eq in Hp. subst c.
        exists "+". repeat split. right; left; reflexivity.
      * exists "". repeat split. left; reflexivity.
Qed.

Lemma digits_split (s : string) :
  exists ds rest,
    s = ds ++ rest /\ all_chars isdigit ds = true /\
    starts_with isdigit rest = false.
Proof.
  induction s as [| c s IH].
  - exists "", "". repeat split.
  - destruct (isdigit c) eqn:Hc.
    + destruct IH as (ds & rest & Hs & Hds & Hrest).
      exists (String c ds), rest. simpl. rewrite Hc, Hds, <- Hs. repeat split.
      exact Hrest.
    + exists "", (String c s). repeat split. exact Hc.
Qed.

Lemma strtol_digits_app (ds rest : string) (acc : Z) (count : nat) :
  all_chars isdigit ds = true -> starts_with isdigit rest = false ->
  strtol_digits acc count (ds ++ rest) =
  (digits_value acc ds, (count + String.length ds)%nat).
Proof.
  revert acc count.
  induction ds as [| c ds IH]; simpl; intros acc count Hds Hrest.
  - rewrite Nat.add_0_r.
    destruct rest as [| d rest]; [reflexivity |].
    simpl in *. rewrite Hrest. reflexivity.
  - apply andb_true_iff in Hds. destruct Hds as [Hc Hds].
    rewrite Hc, IH by assumption.
    f_equal. lia.
Qed.

(** [stoi] returns exactly on the integer texts, and then the signed value of
    the digits; on every other text it throws. *)
Lemma stoi_Ret_integer_text (s : string) (v : Z) :
  stoi s = Ret v -> integer_text s.
Proof.
  unfold stoi. intros H.
  destruct (drop_spaces_split s) as (ws & Hs & Hws).
  destruct (strtol_sign_split (drop_spaces s)) as (sign & Hsign & Hcases & Hneg).
  destruct (strtol_sign (drop_spaces s)) as [negative body]. simpl in Hsign, Hneg.
  destruct (digits_split body) as (ds & rest & Hbody & Hds & Hrest).
  rewrite Hbody, strtol_digits_app in H by assumption.
  exists ws, sign, ds, rest.
  destruct ds as [| c ds]; [simpl in H; discriminate |].
  cbn [String.length Nat.add] in H.
  destruct ((INT_MIN <=? (if negative then - digits_value 0 (String c ds)
                          else digits_value 0 (String c ds))) &&
            ((if negative then - digits_value 0 (String c ds)
              else digits_value 0 (String c ds)) <=? INT_MAX)) eqn:Hrange;
    [| discriminate].
  apply andb_true_iff in Hrange. destruct Hrange as [Hlo Hhi].
  apply Z.leb_le in Hlo. apply Z.leb_le in Hhi.
  repeat split; try assumption.
  - rewrite Hs at 1. rewrite Hsign at 1. rewrite Hbody. reflexivity.
  - discriminate.
  - unfold signed_value, decimal_value. rewrite <- Hneg. exact Hlo.
  - unfold signed_value, decimal_value. rewrite <- Hneg. exact Hhi.
Qed.

Lemma integer_text_stoi (s : string) :
  integer_text s -> exists v, stoi s = Ret v.
Proof.
  intros (ws & sign & ds & rest & Hs & Hws & Hsign & Hne & Hds & Hrest & Hlo & Hhi).
  destruct ds as [| c ds]; [congruence |].
  pose proof Hds as Hds'. simpl in Hds'.
  apply andb_true_iff in Hds'. destruct Hds' as [Hc _].
  assert (Hdrop : drop_spaces s = sign ++ String c ds ++ rest).
  { subst s. apply drop_spaces_app; [assumption |].
    destruct Hsign as [-> | [-> | ->]]; simpl; try reflexivity.
    apply isdigit_not_space; assumption. }
  assert (Hsg : strtol_sign (sign ++ String c ds ++ rest) =
                (String.eqb sign "-", String c ds ++ rest)).
  { destruct Hsign as [-> | [-> | ->]]; simpl; try reflexivity.
    rewrite (isdigit_not_char c "-"), (isdigit_not_char c "+");
      reflexivity || assumption. }
  unfold stoi. rewrite Hdrop, Hsg.
  rewrite strtol_digits_app by assumption.
  cbn [String.length Nat.add].
  unfold signed_value, decimal_value in Hlo, Hhi.
  apply Z.leb_le in Hlo. apply Z.leb_le in Hhi.
  rewrite Hlo, Hhi. simpl. eexists; reflexivity.
Qed.

Lemma stoi_Ret_or_Throw (s : string) :
  (exists v, stoi s = Ret v) \/
  stoi s = Throw (invalid_argument "stoi") \/
  stoi s = Throw (out_of_range "stoi").
Proof.
  unfold stoi.
  destruct (strtol_sign (drop_spaces s)) as [negative body].
  destruct (strtol_digits 0 0 body) as [magnitude [| count]].
  - right; left; reflexivity.
  - match goal with |- context [if ?b then _ else _] => destruct b end.
    + left. eexists; reflexivity.
    + right; right; reflexivity.
Qed.

(** C7.  For every node whose stored text is not integer-parseable,
    [getValue<int>()] leaves by a C++ exception, [std::invalid_argument] or
    [std::out_of_range] from [std::stoi]: it returns no value and reads
    nothing out of bounds.  The node left by [setValue<std::string>] with the
    text [hi] is such a node. *)
Theorem getValue_int_throws (self : SJR) (Htext : ~ integer_text (value self)) :
  exists e,
    getValue_int self = Throw e /\
    (e = invalid_argument "stoi" \/ e = out_of_range "stoi").
Proof.
  unfold getValue_int.
  destruct (stoi_Ret_or_Throw (value self)) as [[v Hv] | [H | H]].
  - exfalso. apply Htext. apply stoi_Ret_integer_text with v. exact Hv.
  - eexists. split; [exact H | left; reflexivity].
  - eexists. split; [exact H | right; reflexivity].
Qed.

Lemma getValue_int_throws_witness :
  ~ integer_text (value (setValue_string "hi" default_SJR)) /\
  getValue_int (setValue_string "hi" default_SJR) = Throw (invalid_argument "stoi").
Proof.
  assert (Htext : ~ integer_text (value (setValue_string "hi" default_SJR))).
  { intros H. apply integer_text_stoi in H. destruct H as [v Hv].
    vm_compute in Hv. discriminate. }
  split; [exact Htext |].
  destruct (getValue_int_throws (setValue_string "hi" default_SJR) Htext)
    as (e & He & _).
  rewrite He. vm_compute in He. symmetry. exact He.
Defined.

(** ** The number parser *)

Lemma parseNumber_digits_app (ds rest : string) (c : ascii) (valueInt : Z) :
  all_chars isdigit ds = true -> isdigit c = false ->
  exists valueInt',
    parseNumber_digits valueInt (ds ++ String c rest) = Ret (valueInt', String c rest).
Proof.
  revert valueInt.
  induction ds as [| d ds IH]; simpl; intros valueInt Hds Hc.
  - rewrite Hc. eexists; reflexivity.
  - apply andb_true_iff in Hds. destruct Hds as [Hd Hds].
    rewrite Hd. apply IH; assumption.
Qed.

(** One turn of the exponent loop: the accumulator changes, the cursor does
    not. *)
Lemma parseNumber_exponent_turn (fuel : nat) (valueInt : Z) (d : ascii) (rest : string) :
  isdigit d = true ->
  parseNumber_exponent (S fuel) valueInt (String d rest) =
  parseNumber_exponent fuel (wrap_int (wrap_int (valueInt * 10) + digit_of d))
                       (String d rest).
Proof.
  intros Hd. simpl. rewrite Hd. reflexivity.
Qed.

Lemma parseNumber_exponent_spins (fuel : nat) (valueInt : Z) (d : ascii) (rest : string) :
  isdigit d = true ->
  parseNumber_exponent fuel valueInt (String d rest) = OutOfFuel.
Proof.
  intros Hd. revert valueInt.
  induction fuel as [| fuel IH]; intros valueInt.
  - reflexivity.
  - rewrite parseNumber_exponent_turn by exact Hd. apply IH.
Qed.

(** C8, as amended.  The loop that scans the exponent digits never advances
    the cursor: a turn of it with a digit under the cursor leaves the cursor
    where it was.  Consequently, for every text that starts with an optional
    sign and a run of integer digits (one of the two present), directly
    followed by an exponent marker [e] or [E] and a digit, [parseNumber]
    does not return: whatever the fuel, it is used up. *)
Theorem parseNumber_exponent_never_returns
    (fuel : nat) (self : SJR) (sign ds : string) (marker d : ascii) (rest : string)
    (Hsign : sign = "" \/ sign = "+" \/ sign = "-")
    (Hds : all_chars isdigit ds = true)
    (Hstart : sign <> "" \/ ds <> "")
    (Hmarker : marker = "e"%char \/ marker = "E"%char)
    (Hd : isdigit d = true) :
  (forall n valueInt,
      parseNumber_exponent (S n) valueInt (String d rest) =
      parseNumber_exponent n (wrap_int (wrap_int (valueInt * 10) + digit_of d))
                           (String d rest)) /\
  parseNumber fuel self (sign ++ ds ++ String marker (String d rest)) = OutOfFuel.
Proof.
  split.
  - intros n valueInt. apply parseNumber_exponent_turn. exact Hd.
  - assert (Hm : isdigit marker = false) by (destruct Hmarker; subst; reflexivity).
    assert (Hbranch : is_char marker "." = false /\
                      is_char marker "e" || is_char marker "E" = true)
      by (destruct Hmarker; subst; split; reflexivity).
    destruct Hbranch as [Hdot Hexp].
    destruct Hsign as [-> | [-> | ->]].
    + destruct ds as [| c ds]; [destruct Hstart; congruence |].
      pose proof Hds as Hds'. simpl in Hds'.
      apply andb_true_iff in Hds'. destruct Hds' as [Hc _].
      cbn [append]. unfold parseNumber.
      rewrite (isdigit_not_char c "-"), (isdigit_not_char c "+") by (reflexivity || assumption).
      rewrite Hc. cbn [orb].
      destruct (parseNumber_digits_app (String c ds) (String d rest) marker 0 Hds Hm)
        as [v Hv].
      cbn [append] in Hv. rewrite Hv. cbn [bind]. rewrite Hdot, Hexp.
      rewrite parseNumber_exponent_spins by exact Hd. reflexivity.
    + cbn [append]. unfold parseNumber.
      change (is_char "+" "-") with false. change (is_char "+" "+") with true.
      cbn [orb].
      destruct (parseNumber_digits_app ds (String d rest) marker 0 Hds Hm)
        as [v Hv].
      rewrite Hv. cbn [bind]. rewrite Hdot, Hexp.
      rewrite parseNumber_exponent_spins by exact Hd. reflexivity.
    + cbn [append]. unfold parseNumber.
      change (is_char "-" "-") with true. cbn [orb].
      destruct (parseNumber_digits_app ds (String d rest) marker 0 Hds Hm)
        as [v Hv].
      rewrite Hv. cbn [bind]. rewrite Hdot, Hexp.
      rewrite parseNumber_exponent_spins by exact Hd. reflexivity.
Qed.

Lemma parseNumber_exponent_never_returns_witness :
  all_chars isdigit "1" = true /\ isdigit "5" = true /\
  parseNumber 1000 default_SJR ("1e5" ++ str1 NUL) = OutOfFuel.
Proof.
  split; [reflexivity | split; [reflexivity |]].
  apply (parseNumber_exponent_never_returns
           1000 default_SJR "" "1" "e"%char "5"%char (str1 NUL)).
  - left; reflexivity.
  - reflexivity.
  - right; discriminate.
  - left; reflexivity.
  - reflexivity.
Defined.

(** C8, as stated, fails: [1.5e3] is a number with an exponent marker
    followed by a digit, and [parseNumber] returns on it.  It stops after the
    fraction, with the cursor on the marker, and never enters the exponent
    loop; no fuel is needed. *)
Lemma parseNumber_fraction_then_exponent_counterexample :
  parseNumber 0 default_SJR ("1.5e3" ++ str1 NUL) =
    Ret (true, mkSJR [] [] "1.500000" FLOAT, "e3" ++ str1 NUL) /\
  ~ (forall fuel, parseNumber fuel default_SJR ("1.5e3" ++ str1 NUL) = OutOfFuel).
Proof.
  assert (H : parseNumber 0 default_SJR ("1.5e3" ++ str1 NUL) =
              Ret (true, mkSJR [] [] "1.500000" FLOAT, "e3" ++ str1 NUL))
    by (vm_compute; reflexivity).
  split; [exact H |].
  intros Hall. rewrite (Hall 0%nat) in H. discriminate.
Qed.

(** ** [load] *)

(** [load] looks at nothing but the [bool] that [parse] returns. *)
Lemma load_Some (fuel : nat) (str : string) (self : SJR) :
  load fuel (Some str) self =
  bind (parse fuel self (str ++ str1 NUL))
       (fun r => if fst (fst r) then Ret (snd (fst r))
                 else Throw (runtime_error "File doesn't correspong to json format file.")).
Proof.
  unfold load.
  destruct (parse fuel self (str ++ str1 NUL)) as [[[ok self'] rest] | | |];
    reflexivity.
Qed.

Lemma string_app_assoc (a b c : string) : (a ++ b) ++ c = a ++ b ++ c.
Proof.
  induction a as [| x a IH]; simpl; [reflexivity | rewrite IH; reflexivity].
Qed.

Lemma skipWhiteSpace_app (ws t : string) :
  all_chars isspace ws = true -> skipWhiteSpace (ws ++ t) = skipWhiteSpace t.
Proof.
  induction ws as [| c ws IH]; simpl; intros Hws; [reflexivity |].
  apply andb_true_iff in Hws. destruct Hws as [Hc Hws].
  rewrite Hc. apply IH; exact Hws.
Qed.

(** The literals [true] and [false] are accepted whatever follows them. *)
Lemma parse_bool_then_anything
      (fuel : nat) (self : SJR) (ws : string) (b : bool) (trailing : string) :
  all_chars isspace ws = true ->
  parse (S fuel) self (ws ++ ostream_boolalpha b ++ trailing) =
  Ret (true, setValue_bool b self, trailing).
Proof.
  intros Hws.
  assert (Hskip : skipWhiteSpace (ws ++ ostream_boolalpha b ++ trailing) =
                  Ret (ostream_boolalpha b ++ trailing)).
  { rewrite skipWhiteSpace_app by exact Hws. destruct b; reflexivity. }
  cbn [parse]. rewrite Hskip. destruct b; reflexivity.
Qed.


(** ** Fuel

    More fuel never changes an outcome other than [OutOfFuel]. *)

Lemma refines_refl {A : Type} (r : outcome A) : refines r r.
Proof. right; reflexivity. Qed.

Lemma refines_OutOfFuel {A : Type} (r : outcome A) : refines OutOfFuel r.
Proof. left; reflexivity. Qed.

Lemma bind_refines {A B : Type} (m1 m2 : outcome A) (k1 k2 : A -> outcome B) :
  refines m1 m2 -> (forall a, refines (k1 a) (k2 a)) ->
  refines (bind m1 k1) (bind m2 k2).
Proof.
  intros [-> | ->] Hk.
  - left; reflexivity.
  - destruct m2; simpl; try (right; reflexivity). apply Hk.
Qed.

Lemma refines_Ret {A : Type} (r1 r2 : outcome A) :
  refines r1 r2 -> r1 <> OutOfFuel -> r2 = r1.
Proof. intros [-> | ->] H; congruence. Qed.

Create HintDb fuel.
#[local] Hint Resolve refines_refl refines_OutOfFuel : fuel.

(** Walks through a pair of runs that differ in their fuel only. *)
Ltac refines_walk :=
  repeat first
    [ solve [auto with fuel]
    | apply bind_refines; [| intros ?]
    | match goal with
      | |- refines (match ?x with _ => _ end) _ => destruct x
      end ].

Lemma parseNumber_exponent_mono (n m : nat) :
  (n <= m)%nat ->
  forall valueInt file,
    refines (parseNumber_exponent n valueInt file) (parseNumber_exponent m valueInt file).
Proof.
  revert m. induction n as [| n IH]; intros m Hnm valueInt file.
  - apply refines_OutOfFuel.
  - destruct m as [| m]; [lia |]. simpl.
    assert (Hrec := IH m ltac:(lia)).
    refines_walk.
Qed.

Lemma parseString_loop_mono (n m : nat) :
  (n <= m)%nat ->
  forall self file,
    refines (parseString_loop n self file) (parseString_loop m self file).
Proof.
  revert m. induction n as [| n IH]; intros m Hnm self file.
  - apply refines_OutOfFuel.
  - destruct m as [| m]; [lia |]. simpl.
    assert (Hrec := IH m ltac:(lia)).
    refines_walk.
Qed.

Lemma parseObject_key_mono (n m : nat) :
  (n <= m)%nat ->
  forall nodeName file,
    refines (parseObject_key n nodeName file) (parseObject_key m nodeName file).
Proof.
  revert m. induction n as [| n IH]; intros m Hnm nodeName file.
  - apply refines_OutOfFuel.
  - destruct m as [| m]; [lia |]. simpl.
    assert (Hrec := IH m ltac:(lia)).
    refines_walk.
Qed.

Lemma parseString_mono (n m : nat) :
  (n <= m)%nat ->
  forall self file, refines (parseString n self file) (parseString m self file).
Proof.
  intros Hnm self file. unfold parseString.
  assert (Hrec := parseString_loop_mono n m Hnm).
  refines_walk.
Qed.

Lemma parseNumber_mono (n m : nat) :
  (n <= m)%nat ->
  forall self file, refines (parseNumber n self file) (parseNumber m self file).
Proof.
  intros Hnm self file. unfold parseNumber.
  assert (Hrec := parseNumber_exponent_mono n m Hnm).
  refines_walk.
Qed.

Lemma parse_family_mono (n : nat) :
  forall m, (n <= m)%nat ->
    (forall self file, refines (parse n self file) (parse m self file)) /\
    (forall self file, refines (parseArray n self file) (parseArray m self file)) /\
    (forall self file, refines (parseArray_loop n self file) (parseArray_loop m self file)) /\
    (forall self file, refines (parseObject n self file) (parseObject m self file)) /\
    (forall self file, refines (parseObject_loop n self file) (parseObject_loop m self file)).
Proof.
  induction n as [| n IH]; intros m Hnm.
  - repeat split; intros; apply refines_OutOfFuel.
  - destruct m as [| m]; [lia |].
    destruct (IH m ltac:(lia)) as (Hp & Ha & Hal & Ho & Hol).
    assert (Hs := parseString_mono n m ltac:(lia)).
    assert (Hn := parseNumber_mono n m ltac:(lia)).
    assert (Hk := parseObject_key_mono n m ltac:(lia)).
    repeat split; intros self file; simpl; refines_walk.
Qed.

Lemma parse_mono (n m : nat) (self : SJR) (file : string) (r : outcome parsed) :
  (n <= m)%nat -> parse n self file = r -> r <> OutOfFuel -> parse m self file = r.
Proof.
  intros Hnm Hr Hne. subst r.
  apply refines_Ret; [| exact Hne].
  apply (parse_family_mono n m Hnm).
Qed.

Lemma load_mono (n m : nat) (file : option string) (self : SJR) (r : outcome SJR) :
  (n <= m)%nat -> load n file self = r -> r <> OutOfFuel -> load m file self = r.
Proof.
  intros Hnm Hr Hne. subst r.
  apply refines_Ret; [| exact Hne].
  destruct file as [str |]; [| apply refines_refl].
  rewrite !load_Some.
  apply bind_refines; [apply (parse_family_mono n m Hnm) | intros; apply refines_refl].
Qed.

(** ** The order of keys *)

Lemma ascii_compare_lt_trans (a b c : ascii) :
  Ascii.compare a b = Lt -> Ascii.compare b c = Lt -> Ascii.compare a c = Lt.
Proof.
  unfold Ascii.compare. rewrite !N.compare_lt_iff. apply N.lt_trans.
Qed.

Lemma key_lt_trans (a b c : string) : key_lt a b -> key_lt b c -> key_lt a c.
Proof.
  unfold key_lt. revert b c.
  induction a as [| x a IH]; intros [| y b] [| z c]; simpl;
    try discriminate; try reflexivity.
  destruct (Ascii.compare x y) eqn:Hxy; try discriminate;
    destruct (Ascii.compare y z) eqn:Hyz; try discriminate; intros Hab Hbc.
  - apply Ascii.compare_eq_iff in Hxy, Hyz. subst.
    assert (Hzz : Ascii.compare z z = Eq) by apply N.compare_refl.
    rewrite Hzz. eapply IH; eassumption.
  - apply Ascii.compare_eq_iff in Hxy. subst. rewrite Hyz. reflexivity.
  - apply Ascii.compare_eq_iff in Hyz. subst. rewrite Hxy. reflexivity.
  - rewrite (ascii_compare_lt_trans _ _ _ Hxy Hyz). reflexivity.
Qed.

Lemma compare_Gt_key_lt (a b : string) : String.compare a b = Gt -> key_lt b a.
Proof.
  unfold key_lt. intros H. rewrite String.compare_antisym, H. reflexivity.
Qed.

Section MapFacts.
Context {T : Type}.

Lemma map_assign_keys_Forall (P : string -> Prop) (k : string) (v : T) (m : map_t T) :
  P k -> Forall P (keys m) -> Forall P (keys (map_assign k v m)).
Proof.
  intros Hk. induction m as [| [k' v'] m IH]; simpl; intros Hm.
  - constructor; [exact Hk | constructor].
  - inversion Hm; subst.
    destruct (String.compare k k'); simpl; constructor; auto.
Qed.

Lemma map_assign_values_Forall (Q : T -> Prop) (k : string) (v : T) (m : map_t T) :
  Q v -> Forall Q (map snd m) -> Forall Q (map snd (map_assign k v m)).
Proof.
  intros Hv. induction m as [| [k' v'] m IH]; simpl; intros Hm.
  - constructor; [exact Hv | constructor].
  - inversion Hm; subst.
    destruct (String.compare k k'); simpl; constructor; auto.
Qed.

(** [m[k] = v] keeps the keys strictly increasing. *)
Lemma map_assign_sorted (k : string) (v : T) (m : map_t T) :
  sorted_keys m -> sorted_keys (map_assign k v m).
Proof.
  unfold sorted_keys.
  induction m as [| [k' v'] m IH]; simpl; intros Hm.
  - constructor; constructor.
  - inversion Hm as [| ? ? Hsorted Hall]; subst.
    destruct (String.compare k k') eqn:Hcmp; simpl.
    + apply String.compare_eq_iff in Hcmp. subst k'.
      constructor; assumption.
    + constructor; [exact Hm |].
      constructor; [exact Hcmp |].
      eapply Forall_impl; [| exact Hall].
      intros k'' Hk''. eapply key_lt_trans; eassumption.
    + constructor; [apply IH; exact Hsorted |].
      apply map_assign_keys_Forall; [| exact Hall].
      apply compare_Gt_key_lt; exact Hcmp.
Qed.
End MapFacts.

(** ** The order of keys is an invariant of the tree *)

Create HintDb wo.

Lemma well_ordered_default : well_ordered default_SJR.
Proof.
  constructor; simpl; constructor.
Qed.

Lemma well_ordered_set_type (t : NodeType) (self : SJR) :
  well_ordered self -> well_ordered (set_type t self).
Proof.
  intros H. inversion H; subst. constructor; assumption.
Qed.

Lemma well_ordered_set_value (s : string) (self : SJR) :
  well_ordered self -> well_ordered (set_value s self).
Proof.
  intros H. inversion H; subst. constructor; assumption.
Qed.

Lemma well_ordered_push_back (newSJR self : SJR) :
  well_ordered self -> well_ordered newSJR ->
  well_ordered (set_vectorJson (vectorJson self ++ [newSJR]) self).
Proof.
  intros H Hnew. inversion H; subst. constructor; simpl; try assumption.
  apply Forall_app. split; [assumption | constructor; [exact Hnew | constructor]].
Qed.

Lemma well_ordered_map_assign (nodeName : string) (newNode self : SJR) :
  well_ordered self -> well_ordered newNode ->
  well_ordered (set_mapJson (map_assign nodeName newNode (mapJson self)) self).
Proof.
  intros H Hnew. inversion H; subst. constructor; simpl; try assumption.
  - apply map_assign_sorted; assumption.
  - apply map_assign_values_Forall; assumption.
Qed.

Lemma well_ordered_resize (n : nat) (self : SJR) :
  well_ordered self ->
  well_ordered (set_vectorJson (resize default_SJR n (vectorJson self)) self).
Proof.
  intros H. inversion H as [? Hs Hm Hv]; subst. constructor; simpl; try assumption.
  unfold resize. apply Forall_app. split.
  - rewrite <- (firstn_skipn n (vectorJson self)) in Hv.
    apply Forall_app in Hv. exact (proj1 Hv).
  - apply Forall_forall. intros x Hx.
    apply repeat_spec in Hx. subst x. apply well_ordered_default.
Qed.

Lemma well_ordered_map_assign_typed
      (nodeName : string) (newNode self : SJR) (t : NodeType) :
  well_ordered self -> well_ordered newNode ->
  well_ordered (set_mapJson (map_assign nodeName newNode (mapJson self))
                            (set_type t self)).
Proof.
  intros H Hnew.
  apply (well_ordered_map_assign nodeName newNode (set_type t self));
    [apply well_ordered_set_type |]; assumption.
Qed.

#[local] Hint Resolve well_ordered_default well_ordered_set_type
  well_ordered_set_value well_ordered_push_back well_ordered_map_assign
  well_ordered_map_assign_typed : wo.

Lemma ensures_Ret {A : Type} (P : A -> Prop) (a : A) : P a -> ensures P (Ret a).
Proof. intros H a' E. injection E as <-. exact H. Qed.

Lemma ensures_Throw {A : Type} (P : A -> Prop) (e : exn) : ensures P (Throw e).
Proof. intros a E. discriminate. Qed.

Lemma ensures_OutOfBounds {A : Type} (P : A -> Prop) : ensures P OutOfBounds.
Proof. intros a E. discriminate. Qed.

Lemma ensures_OutOfFuel {A : Type} (P : A -> Prop) : ensures P OutOfFuel.
Proof. intros a E. discriminate. Qed.

Lemma ensures_bind {A B : Type} (Q : A -> Prop) (P : B -> Prop)
      (m : outcome A) (k : A -> outcome B) :
  ensures Q m -> (forall a, Q a -> ensures P (k a)) -> ensures P (bind m k).
Proof.
  intros Hm Hk b E. apply bind_Ret_inv in E. destruct E as (a & Ea & Eb).
  exact (Hk a (Hm a Ea) b Eb).
Qed.

Lemma ensures_bind_any {A B : Type} (P : B -> Prop)
      (m : outcome A) (k : A -> outcome B) :
  (forall a, ensures P (k a)) -> ensures P (bind m k).
Proof.
  intros Hk. apply ensures_bind with (Q := fun _ => True); [intros a _; exact I | auto].
Qed.

#[local] Hint Resolve ensures_Throw ensures_OutOfBounds ensures_OutOfFuel : wo.

(** Walks through a run, carrying the invariant from call to call. *)
Ltac ensures_walk :=
  repeat first
    [ progress cbn [node_of fst snd] in *
    | solve [eauto with wo]
    | apply ensures_Ret
    | match goal with
      | |- ensures _ (bind (match _ with _ => _ end) _) =>
          apply ensures_bind with (Q := fun e => well_ordered (node_of e));
          [| intros ? ?]
      end
    | eapply ensures_bind; [solve [eauto with wo] | intros ? ?]
    | apply ensures_bind_any; intros ?
    | match goal with
      | |- ensures _ (match ?x with _ => _ end) => destruct x
      end ].

Lemma parseString_loop_keeps_order (fuel : nat) : keeps_order (parseString_loop fuel).
Proof.
  induction fuel as [| fuel IH]; intros self file Hself; simpl.
  - apply ensures_OutOfFuel.
  - ensures_walk.
Qed.

Lemma parseString_keeps_order (fuel : nat) : keeps_order (parseString fuel).
Proof.
  intros self file Hself. unfold parseString.
  assert (Hloop := parseString_loop_keeps_order fuel).
  ensures_walk.
Qed.

Lemma parseBool_keeps_order : keeps_order parseBool.
Proof.
  intros self file Hself. unfold parseBool. ensures_walk.
Qed.

Lemma parseNumber_keeps_order (fuel : nat) : keeps_order (parseNumber fuel).
Proof.
  intros self file Hself. unfold parseNumber. ensures_walk.
Qed.

Lemma parse_family_keeps_order (fuel : nat) :
  keeps_order (parse fuel) /\
  keeps_order (parseArray fuel) /\
  keeps_order (parseArray_loop fuel) /\
  keeps_order (parseObject fuel) /\
  keeps_order (parseObject_loop fuel).
Proof.
  induction fuel as [| fuel (Hp & Ha & Hal & Ho & Hol)].
  - split; [| split; [| split; [| split]]];
      intros self file Hself; apply ensures_OutOfFuel.
  - assert (Hs := parseString_keeps_order fuel).
    assert (Hb := parseBool_keeps_order).
    assert (Hn := parseNumber_keeps_order fuel).
    split; [| split; [| split; [| split]]]; intros self file Hself; simpl.
    + ensures_walk.
    + ensures_walk.
    + ensures_walk.
    + ensures_walk.
    + ensures_walk.
Qed.

Lemma parse_keeps_order (fuel : nat) (self : SJR) (file : string)
      (ok : bool) (self' : SJR) (rest : string) :
  well_ordered self -> parse fuel self file = Ret (ok, self', rest) ->
  well_ordered self'.
Proof.
  intros Hself Hparse.
  exact (proj1 (parse_family_keeps_order fuel) self file Hself _ Hparse).
Qed.

Lemma load_keeps_order (fuel : nat) (file : option string) (self self' : SJR) :
  well_ordered self -> load fuel file self = Ret self' -> well_ordered self'.
Proof.
  intros Hself. destruct file as [str |]; [| discriminate].
  rewrite load_Some. intros Hload.
  apply bind_Ret_inv in Hload. destruct Hload as ([[ok node] rest] & Hparse & Hret).
  simpl in Hret. destruct ok; [| discriminate].
  injection Hret as <-.
  eapply parse_keeps_order; eassumption.
Qed.

Lemma subscript_name_keeps_order (nodeName : string) (self : SJR) :
  well_ordered self -> well_ordered (fst (subscript_name nodeName self)).
Proof.
  intros Hself. unfold subscript_name.
  destruct (map_find (c_str nodeName) (mapJson self)); simpl.
  - exact Hself.
  - apply well_ordered_map_assign; [exact Hself | apply well_ordered_default].
Qed.

Lemma vector_resize_keeps_order (max_size n : Z) (self : SJR) :
  well_ordered self -> ensures well_ordered (vector_resize max_size n self).
Proof.
  intros Hself. unfold vector_resize.
  destruct (n <=? max_size).
  - apply ensures_Ret. apply well_ordered_resize. exact Hself.
  - apply ensures_Throw.
Qed.

Lemma subscript_index_keeps_order (max_size index : Z) (self : SJR) :
  well_ordered self ->
  ensures (fun r => well_ordered (fst r)) (subscript_index max_size index self).
Proof.
  intros Hself. unfold subscript_index.
  apply ensures_bind with (Q := well_ordered).
  - destruct (negb (NodeType_eqb (type self) ARRAY)).
    + apply ensures_bind with (Q := well_ordered).
      * apply vector_resize_keeps_order. exact Hself.
      * intros a Ha. apply ensures_Ret. apply well_ordered_set_type. exact Ha.
    + apply ensures_Ret. exact Hself.
  - intros a Ha.
    apply ensures_bind with (Q := well_ordered).
    + destruct (Z.of_nat (getArraySize a) <=? index).
      * apply vector_resize_keeps_order. exact Ha.
      * apply ensures_Ret. exact Ha.
    + intros b Hb.
      destruct (index <? Z.of_nat (getArraySize b)).
      * apply ensures_Ret. exact Hb.
      * apply ensures_Throw.
Qed.

Lemma vector_assign_Forall (P : SJR -> Prop) (index : nat) (node : SJR) (v : list SJR) :
  P node -> Forall P v -> Forall P (vector_assign index node v).
Proof.
  intros Hnode. revert index.
  induction v as [| x v IH]; intros [| index] Hv; simpl;
    try constructor; inversion Hv; subst; auto.
Qed.

Lemma write_back_keeps_order (r : ref) (node self : SJR) :
  well_ordered self -> well_ordered node -> well_ordered (write_back r node self).
Proof.
  intros Hself Hnode. destruct r as [key | index]; simpl.
  - destruct (map_find key (mapJson self)); [| exact Hself].
    apply well_ordered_map_assign; assumption.
  - inversion Hself; subst. constructor; simpl; try assumption.
    apply vector_assign_Forall; assumption.
Qed.

(** C9.  The children of a node are kept in lexicographic key order, not in
    insertion order.  A default-constructed node is well-ordered, and for
    every well-ordered node: its keys are strictly increasing in the order
    the serializer walks them; [setValue], [operator[]] by name,
    [operator[]] by index, a change made through a returned reference, the
    parser and [load] hand back a well-ordered node.  The object built by
    inserting [zebra] and then [apple] has the keys [apple], [zebra] in that
    order, and so has the text written for it; the same holds when the two
    keys are inserted by the parser. *)
Theorem children_in_key_order (self : SJR) (Hself : well_ordered self) :
  well_ordered default_SJR /\
  StronglySorted key_lt (keys (mapJson self)) /\
  (forall b i f s,
      well_ordered (setValue_bool b self) /\ well_ordered (setValue_int i self) /\
      well_ordered (setValue_float f self) /\ well_ordered (setValue_string s self)) /\
  (forall nodeName, well_ordered (fst (subscript_name nodeName self))) /\
  (forall max_size index self' r,
      subscript_index max_size index self = Ret (self', r) -> well_ordered self') /\
  (forall r node, well_ordered node -> well_ordered (write_back r node self)) /\
  (forall fuel file ok self' rest,
      parse fuel self file = Ret (ok, self', rest) -> well_ordered self') /\
  (forall fuel file self',
      load fuel file self = Ret self' -> well_ordered self') /\
  keys (mapJson zebra_apple) = ["apple"; "zebra"] /\
  save true zebra_apple 0 = Ret (true, mk_wstate zebra_apple_text 0) /\
  (exists parsed_node,
      load 16 (Some (q "{'zebra': 1, 'apple': 2}")) default_SJR = Ret parsed_node /\
      keys (mapJson parsed_node) = ["apple"; "zebra"]).
Proof.
  split; [apply well_ordered_default |].
  split; [inversion Hself; assumption |].
  split.
  { intros b i f s. unfold setValue_bool, setValue_int, setValue_float, setValue_string.
    auto 6 with wo. }
  split; [intros; apply subscript_name_keeps_order; exact Hself |].
  split.
  { intros max_size index self' r H.
    exact (subscript_index_keeps_order max_size index self Hself _ H). }
  split; [intros; apply write_back_keeps_order; assumption |].
  split; [intros; eapply parse_keeps_order; eassumption |].
  split; [intros; eapply load_keeps_order; eassumption |].
  split; [reflexivity |].
  split; [vm_compute; reflexivity |].
  eexists. split; vm_compute; reflexivity.
Qed.

Lemma children_in_key_order_witness :
  well_ordered default_SJR /\
  well_ordered zebra_apple /\
  StronglySorted key_lt (keys (mapJson zebra_apple)).
Proof.
  pose proof (children_in_key_order default_SJR well_ordered_default)
    as (H0 & _ & _ & Hname & _).
  pose proof (children_in_key_order _ (Hname "zebra")) as (_ & _ & _ & Hname' & _).
  pose proof (children_in_key_order _ (Hname' "apple")) as (_ & Hsorted & _).
  split; [exact H0 |].
  split; [exact (Hname' "apple") | exact Hsorted].
Defined.

(** ** End to end *)

(** C4, as amended.  Parsing the example input (with enough fuel, 8 units or
    more) yields an Object node with three children, and serializing that
    node (with the indentation counter at 0) writes: a newline, the opening
    brace on a line of its own, each pair indented by one tab, the pairs
    separated by a comma, a space and a newline, and the closing brace on a
    line of its own.  The counter is back at 0 afterwards. *)
Theorem load_save_example :
  (forall extra, load (8 + extra) (Some example_input) default_SJR = Ret example_document) /\
  type example_document = OBJECT /\
  getChildCount example_document = 3%nat /\
  save true example_document 0 = Ret (true, mk_wstate example_text_written 0).
Proof.
  split.
  - intros extra. apply load_mono with (n := 8%nat); [lia | | discriminate].
    vm_compute; reflexivity.
  - repeat split; vm_compute; reflexivity.
Qed.

(** C4, as stated, fails: the text written for the example is not the text
    of the specification, which has no newline before the opening brace and
    no space between a comma and the end of its line. *)
Lemma load_save_example_counterexample :
  load 8 (Some example_input) default_SJR = Ret example_document /\
  exists text,
    save true example_document 0 = Ret (true, mk_wstate text 0) /\
    text <> example_text_spec.
Proof.
  split; [vm_compute; reflexivity |].
  exists example_text_written.
  split; [vm_compute; reflexivity |].
  vm_compute. discriminate.
Qed.

(** C1: the code does not do what the claim asks.  On the text [{'a': }]
    (with double quotes for the single ones) the value after the colon fails
    to parse, [parseObject] answers [true] all the same, and [load], given
    enough fuel (5 units or more), returns normally with an empty Object
    node instead of throwing. *)
Theorem load_nested_failure_returns :
  (forall extra,
      parse (2 + extra) default_SJR ("}" ++ str1 NUL) =
      Ret (false, default_SJR, "}" ++ str1 NUL)) /\
  (forall extra, load (5 + extra) (Some (q "{'a': }")) default_SJR = Ret default_SJR).
Proof.
  split; intros extra.
  - apply parse_mono with (n := 2%nat); [lia | | discriminate].
    vm_compute; reflexivity.
  - apply load_mono with (n := 5%nat); [lia | | discriminate].
    vm_compute; reflexivity.
Qed.

(** * Further properties of the code *)

(** ** Decimal text of an [int] *)

Lemma string_app_nil_r (s : string) : s ++ "" = s.
Proof.
  induction s as [| c s IH]; simpl; [reflexivity | rewrite IH; reflexivity].
Qed.

Lemma string_of_uint_digits (d : Decimal.uint) :
  all_chars isdigit (NilEmpty.string_of_uint d) = true.
Proof.
  induction d; simpl; try rewrite IHd; reflexivity.
Qed.

Lemma string_of_uint_value (d : Decimal.uint) (acc : Z) :
  digits_value acc (NilEmpty.string_of_uint d) = uint_value acc d.
Proof.
  revert acc. induction d; intros acc; simpl; try rewrite IHd;
    try reflexivity; f_equal;
    match goal with
    | |- context [digit_of ?c] =>
        let v := eval vm_compute in (digit_of c) in change (digit_of c) with v
    end; lia.
Qed.

Lemma of_uint_acc_value (d : Decimal.uint) (acc : positive) :
  Z.pos (Pos.of_uint_acc d acc) = uint_value (Z.pos acc) d.
Proof.
  revert acc.
  induction d; intros acc; cbn [Pos.of_uint_acc uint_value];
    try rewrite IHd; try reflexivity; f_equal;
    rewrite ?Pos2Z.inj_add, ?Pos2Z.inj_mul; lia.
Qed.

Lemma of_uint_value (d : Decimal.uint) : Z.of_N (Pos.of_uint d) = uint_value 0 d.
Proof.
  induction d; cbn [Pos.of_uint uint_value Z.of_N];
    try rewrite of_uint_acc_value; try reflexivity.
  exact IHd.
Qed.

(** The text of a positive number: digits only, at least one, and they spell
    the number. *)
Lemma to_string_int_pos (p : positive) :
  exists c ds,
    to_string_int (Z.pos p) = String c ds /\
    all_chars isdigit (String c ds) = true /\
    digits_value 0 (String c ds) = Z.pos p.
Proof.
  unfold to_string_int. cbn [Z.to_int NilZero.string_of_int].
  assert (Hnil : Pos.to_uint p <> Decimal.Nil)
    by apply DecimalPos.Unsigned.to_uint_nonnil.
  assert (Hs : NilZero.string_of_uint (Pos.to_uint p) =
               NilEmpty.string_of_uint (Pos.to_uint p))
    by (destruct (Pos.to_uint p); [congruence | reflexivity ..]).
  rewrite Hs.
  assert (Hv : digits_value 0 (NilEmpty.string_of_uint (Pos.to_uint p)) = Z.pos p).
  { rewrite string_of_uint_value, <- of_uint_value.
    rewrite DecimalPos.Unsigned.of_to. reflexivity. }
  assert (Hd := string_of_uint_digits (Pos.to_uint p)).
  destruct (NilEmpty.string_of_uint (Pos.to_uint p)) as [| c ds] eqn:E.
  - destruct (Pos.to_uint p); simpl in E; congruence.
  - exists c, ds. repeat split; assumption.
Qed.

Lemma to_string_int_neg (p : positive) :
  to_string_int (Z.neg p) = String "-" (to_string_int (Z.pos p)).
Proof.
  unfold to_string_int. cbn [Z.to_int NilZero.string_of_int].
  reflexivity.
Qed.

(** [std::stoi] reads back what [std::to_string(int)] wrote. *)
Lemma stoi_to_string_int (v : Z) :
  INT_MIN <= v <= INT_MAX -> stoi (to_string_int v) = Ret v.
Proof.
  intros Hv.
  assert (Hpos : forall p sign,
             (sign = false \/ sign = true) ->
             INT_MIN <= (if sign then - Z.pos p else Z.pos p) <= INT_MAX ->
             match strtol_digits 0 0 (to_string_int (Z.pos p)) with
             | (_, O) => Throw (invalid_argument "stoi")
             | (magnitude, _) =>
                 let v := if sign then - magnitude else magnitude in
                 if (INT_MIN <=? v) && (v <=? INT_MAX) then Ret v
                 else Throw (out_of_range "stoi")
             end = Ret (if sign then - Z.pos p else Z.pos p)).
  { intros p sign _ Hr.
    destruct (to_string_int_pos p) as (c & ds & Hs & Hd & Hval).
    rewrite Hs, <- (string_app_nil_r (String c ds)).
    rewrite strtol_digits_app by (assumption || reflexivity).
    cbn [String.length Nat.add]. rewrite Hval.
    cbv zeta.
    destruct (Z.leb_spec INT_MIN (if sign then - Z.pos p else Z.pos p)); [| lia].
    destruct (Z.leb_spec (if sign then - Z.pos p else Z.pos p) INT_MAX); [| lia].
    reflexivity. }
  destruct v as [| p | p].
  - reflexivity.
  - destruct (to_string_int_pos p) as (c & ds & Hs & Hd & Hval).
    pose proof Hd as Hd'. simpl in Hd'.
    apply andb_true_iff in Hd'. destruct Hd' as [Hc _].
    unfold stoi.
    assert (Hsign : strtol_sign (drop_spaces (to_string_int (Z.pos p))) =
                    (false, to_string_int (Z.pos p))).
    { rewrite Hs. simpl. rewrite (isdigit_not_space c Hc). simpl.
      rewrite (isdigit_not_char c "-"), (isdigit_not_char c "+");
        reflexivity || assumption. }
    rewrite Hsign. apply (Hpos p false); [left; reflexivity | exact Hv].
  - rewrite to_string_int_neg. unfold stoi.
    change (strtol_sign (drop_spaces (String "-" (to_string_int (Z.pos p)))))
      with (true, to_string_int (Z.pos p)).
    apply (Hpos p true); [right; reflexivity | exact Hv].
Qed.

(** X1.  What [setValue<T>] stores is what [getValue<T>] reads back: for
    every [int] value [v], every boolean [b] and every string [s],
    [getValue<int>] after [setValue<int>(v)] gives [v]; [getValue<bool>]
    after [setValue<bool>(b)] gives [b]; [getValue<std::string>] after
    [setValue<std::string>(s)] gives [s].  Reads do not look at the kind:
    [getValue<bool>] after [setValue<int>(v)] tells whether [v] is non-zero
    and [getValue<int>] after [setValue<bool>(b)] gives 1 or 0. *)
Theorem setValue_getValue_round_trip
    (v : Z) (b : bool) (s : string) (self : SJR)
    (Hv : INT_MIN <= v <= INT_MAX) :
  getValue_int (setValue_int v self) = Ret v /\
  getValue_bool (setValue_bool b self) = Ret b /\
  getValue_string (setValue_string s self) = Ret s /\
  getValue_bool (setValue_int v self) = Ret (negb (v =? 0)) /\
  getValue_int (setValue_bool b self) = Ret (Z.b2z b).
Proof.
  unfold getValue_int, getValue_bool, getValue_string.
  cbn [setValue_int setValue_bool setValue_string set_value set_type value].
  rewrite stoi_to_string_int by exact Hv.
  repeat split; destruct b; reflexivity.
Qed.

Lemma setValue_getValue_round_trip_witness :
  INT_MIN <= -42 <= INT_MAX /\
  getValue_int (setValue_int (-42) default_SJR) = Ret (-42).
Proof.
  assert (H : INT_MIN <= -42 <= INT_MAX) by (unfold INT_MIN, INT_MAX; lia).
  split; [exact H |].
  exact (proj1 (setValue_getValue_round_trip (-42) true "" default_SJR H)).
Defined.

(** ** Lookup and insertion in the children map *)

Lemma compare_refl (k : string) : String.compare k k = Eq.
Proof.
  induction k as [| c k IH]; simpl; [reflexivity |].
  assert (Hc : Ascii.compare c c = Eq) by apply N.compare_refl.
  rewrite Hc. exact IH.
Qed.

Lemma compare_neq (a b : string) : a <> b -> String.compare a b <> Eq.
Proof.
  intros Hne Heq. apply Hne. apply String.compare_eq_iff. exact Heq.
Qed.

Section MapLookup.
Context {T : Type}.

Lemma map_find_assign_same (k : string) (v : T) (m : map_t T) :
  map_find k (map_assign k v m) = Some v.
Proof.
  induction m as [| [k' v'] m IH]; simpl.
  - rewrite compare_refl. reflexivity.
  - destruct (String.compare k k') eqn:Hcmp; simpl.
    + rewrite compare_refl. reflexivity.
    + rewrite compare_refl. reflexivity.
    + rewrite Hcmp. exact IH.
Qed.

Lemma map_find_assign_other (k k' : string) (v : T) (m : map_t T) :
  k' <> k -> map_find k' (map_assign k v m) = map_find k' m.
Proof.
  intros Hne. induction m as [| [k0 v0] m IH]; simpl.
  - destruct (String.compare k' k) eqn:Hcmp; try reflexivity.
    exfalso. exact (compare_neq _ _ Hne Hcmp).
  - destruct (String.compare k k0) eqn:Hcmp; simpl.
    + apply String.compare_eq_iff in Hcmp. subst k0.
      destruct (String.compare k' k) eqn:Hcmp'; try reflexivity.
      exfalso. exact (compare_neq _ _ Hne Hcmp').
    + destruct (String.compare k' k) eqn:Hcmp'.
      * exfalso. exact (compare_neq _ _ Hne Hcmp').
      * assert (Hlt : String.compare k' k0 = Lt)
          by (eapply key_lt_trans; eassumption).
        rewrite Hlt. reflexivity.
      * reflexivity.
    + destruct (String.compare k' k0); try reflexivity. exact IH.
Qed.

Lemma map_assign_length_new (k : string) (v : T) (m : map_t T) :
  map_find k m = None -> List.length (map_assign k v m) = S (List.length m).
Proof.
  induction m as [| [k' v'] m IH]; simpl; [reflexivity |].
  destruct (String.compare k k'); simpl; intros H.
  - discriminate.
  - reflexivity.
  - rewrite IH by exact H. reflexivity.
Qed.

(** Below the first key nothing is found. *)
Lemma map_find_below (k : string) (m : map_t T) :
  Forall (key_lt k) (keys m) -> map_find k m = None.
Proof.
  destruct m as [| [k' v'] m]; simpl; [reflexivity |].
  intros H. inversion H as [| ? ? Hlt _]; subst.
  unfold key_lt in Hlt. rewrite Hlt. reflexivity.
Qed.

(** Two maps in key order that answer every lookup alike are the same map. *)
Lemma sorted_map_ext (m1 m2 : map_t T) :
  sorted_keys m1 -> sorted_keys m2 ->
  (forall k, map_find k m1 = map_find k m2) -> m1 = m2.
Proof.
  unfold sorted_keys. revert m2.
  induction m1 as [| [k1 v1] m1 IH]; intros [| [k2 v2] m2] H1 H2 Hfind.
  - reflexivity.
  - specialize (Hfind k2). simpl in Hfind. rewrite compare_refl in Hfind. discriminate.
  - specialize (Hfind k1). simpl in Hfind. rewrite compare_refl in Hfind. discriminate.
  - simpl in H1, H2.
    inversion H1 as [| ? ? Hs1 Hall1]; subst.
    inversion H2 as [| ? ? Hs2 Hall2]; subst.
    assert (Hk : k1 = k2).
    { pose proof (Hfind k1) as Ha. pose proof (Hfind k2) as Hb.
      simpl in Ha, Hb. rewrite compare_refl in Ha, Hb.
      destruct (String.compare k1 k2) eqn:H12.
      - apply String.compare_eq_iff. exact H12.
      - discriminate.
      - rewrite (compare_Gt_key_lt _ _ H12) in Hb. discriminate. }
    subst k2.
    assert (Hv : v1 = v2).
    { pose proof (Hfind k1) as Ha. simpl in Ha. rewrite compare_refl in Ha.
      congruence. }
    subst v2. f_equal.
    apply IH; try assumption.
    intros k. specialize (Hfind k). simpl in Hfind.
    destruct (String.compare k k1) eqn:Hcmp.
    + apply String.compare_eq_iff in Hcmp. subst k.
      rewrite !map_find_below by assumption. reflexivity.
    + assert (Hbelow : forall m : map_t T,
                 Forall (key_lt k1) (keys m) -> map_find k m = None).
      { intros m Hm. apply map_find_below.
        eapply Forall_impl; [| exact Hm].
        intros k' Hk'. eapply key_lt_trans; eassumption. }
      rewrite !Hbelow by assumption. reflexivity.
    + exact Hfind.
Qed.
End MapLookup.

(** X2.  [operator[]] by name looks the key up and inserts only when it is
    absent.  The key is the name read as a C string.  The kind, the scalar
    and the elements of the receiver are never touched.  With the key
    present the receiver is unchanged and the reference is to the child
    already there; with the key absent a default-constructed Object node is
    inserted, the reference is to it and [getChildCount()] grows by one.
    Lookups of every other key answer as before. *)
Theorem subscript_name_lookup (nodeName : string) (self : SJR) :
  let key := c_str nodeName in
  let self' := fst (subscript_name nodeName self) in
  let r := snd (subscript_name nodeName self) in
  r = in_mapJson key /\
  type self' = type self /\ value self' = value self /\
  vectorJson self' = vectorJson self /\
  match map_find key (mapJson self) with
  | Some child => self' = self /\ deref self' r = Some child
  | None =>
      deref self' r = Some default_SJR /\
      getChildCount self' = S (getChildCount self)
  end /\
  (forall k, k <> key -> map_find k (mapJson self') = map_find k (mapJson self)).
Proof.
  cbv zeta. unfold subscript_name.
  destruct (map_find (c_str nodeName) (mapJson self)) as [child |] eqn:Hfind;
    cbn [fst snd deref set_mapJson mapJson type value vectorJson].
  - repeat split; try reflexivity. exact Hfind.
  - repeat split; try reflexivity.
    + apply map_find_assign_same.
    + unfold getChildCount. cbn [mapJson].
      apply map_assign_length_new. exact Hfind.
    + intros k Hk. apply map_find_assign_other. exact Hk.
Qed.

Lemma set_mapJson_same (self : SJR) : set_mapJson (mapJson self) self = self.
Proof. destruct self; reflexivity. Qed.

(** X3.  Accesses by name compose without regard to their order.  A second
    access with the same name changes nothing and gives the same reference;
    and, on a receiver whose children are in key order, accessing [a] and
    then [b] leaves the same node as accessing [b] and then [a]. *)
Theorem subscript_name_order_free
    (a b : string) (self : SJR) (Hself : sorted_keys (mapJson self)) :
  subscript_name a (fst (subscript_name a self)) =
    (fst (subscript_name a self), in_mapJson (c_str a)) /\
  fst (subscript_name b (fst (subscript_name a self))) =
    fst (subscript_name a (fst (subscript_name b self))).
Proof.
  assert (Hshape : forall n s,
             fst (subscript_name n s) =
             set_mapJson (match map_find (c_str n) (mapJson s) with
                          | Some _ => mapJson s
                          | None => map_assign (c_str n) default_SJR (mapJson s)
                          end) s).
  { intros n s. unfold subscript_name.
    destruct (map_find (c_str n) (mapJson s));
      [rewrite set_mapJson_same |]; reflexivity. }
  assert (Hfind : forall n s k,
             map_find k (mapJson (fst (subscript_name n s))) =
             if String.eqb k (c_str n)
             then match map_find (c_str n) (mapJson s) with
                  | Some child => Some child
                  | None => Some default_SJR
                  end
             else map_find k (mapJson s)).
  { intros n s k. rewrite Hshape. cbn [mapJson set_mapJson].
    destruct (String.eqb_spec k (c_str n)) as [-> | Hne].
    - destruct (map_find (c_str n) (mapJson s)) eqn:E;
        [exact E | apply map_find_assign_same].
    - destruct (map_find (c_str n) (mapJson s));
        [reflexivity | apply map_find_assign_other; exact Hne]. }
  assert (Hsorted : forall n s,
             sorted_keys (mapJson s) ->
             sorted_keys (mapJson (fst (subscript_name n s)))).
  { intros n s Hs. rewrite Hshape. cbn [mapJson set_mapJson].
    destruct (map_find (c_str n) (mapJson s));
      [exact Hs | apply map_assign_sorted; exact Hs]. }
  split.
  - unfold subscript_name at 1.
    rewrite Hfind, String.eqb_refl.
    destruct (map_find (c_str a) (mapJson self)); reflexivity.
  - assert (Hmap : mapJson (fst (subscript_name b (fst (subscript_name a self)))) =
                   mapJson (fst (subscript_name a (fst (subscript_name b self))))).
    { apply sorted_map_ext; try (apply Hsorted, Hsorted; exact Hself).
      intros k. rewrite !Hfind.
      generalize (c_str a) (c_str b). intros ca cb.
      destruct (String.eqb_spec k cb) as [Hkb | Hkb];
        destruct (String.eqb_spec k ca) as [Hka | Hka];
        destruct (String.eqb_spec cb ca) as [Hba | Hba];
        destruct (String.eqb_spec ca cb) as [Hab | Hab];
        try congruence; subst;
        repeat match goal with
               | |- context [match ?m with Some _ => _ | None => _ end] =>
                   destruct m
               end; reflexivity. }
    rewrite !Hshape in Hmap |- *. cbn [mapJson set_mapJson] in Hmap.
    unfold set_mapJson. cbn [mapJson vectorJson value type].
    rewrite Hmap. reflexivity.
Qed.

Lemma subscript_name_order_free_witness :
  sorted_keys (mapJson default_SJR) /\
  fst (subscript_name "apple" (fst (subscript_name "zebra" default_SJR))) =
  fst (subscript_name "zebra" (fst (subscript_name "apple" default_SJR))).
Proof.
  assert (H : sorted_keys (mapJson default_SJR)) by constructor.
  split; [exact H |].
  exact (proj2 (subscript_name_order_free "zebra" "apple" default_SJR H)).
Defined.

(** ** [operator[]] by index on arrays *)

Lemma NodeType_eqb_eq (a b : NodeType) : NodeType_eqb a b = true -> a = b.
Proof. destruct a, b; simpl; intros H; congruence. Qed.

Lemma NodeType_eqb_refl (a : NodeType) : NodeType_eqb a a = true.
Proof. destruct a; reflexivity. Qed.

Lemma set_vectorJson_same (self : SJR) : set_vectorJson (vectorJson self) self = self.
Proof. destruct self; reflexivity. Qed.

Lemma resize_grow {T : Type} (fresh : T) (n : nat) (v : list T) :
  (List.length v <= n)%nat ->
  resize fresh n v = (v ++ repeat fresh (n - List.length v))%list.
Proof.
  intros H. unfold resize. rewrite firstn_all2 by exact H. reflexivity.
Qed.

Section SubscriptArray.
Variable max_size : Z.

Lemma subscript_index_in_range (index : Z) (self : SJR) :
  type self = ARRAY -> 0 <= index < Z.of_nat (getArraySize self) ->
  subscript_index max_size index self = Ret (self, in_vectorJson (Z.to_nat index)).
Proof.
  intros Hty Hin. unfold subscript_index.
  rewrite Hty. cbn [NodeType_eqb negb bind].
  destruct (Z.leb_spec (Z.of_nat (getArraySize self)) index); [lia |].
  cbn [bind].
  destruct (Z.ltb_spec index (Z.of_nat (getArraySize self))); [reflexivity | lia].
Qed.

(** X4.  On a node that already is an Array, [operator[]] by index never
    loses an element.  With the index in range the node is unchanged; with
    the index past the end (and room to grow) the vector is extended to
    [index + 1] elements by default-constructed Object nodes.  Either way
    the elements are the old ones followed by the new default nodes, the
    children and the scalar are untouched, and the reference is to the
    element at [index]. *)
Theorem subscript_index_array_keeps_elements
    (index : Z) (self : SJR)
    (Hkind : type self = ARRAY)
    (Hindex : 0 <= index < SIZE_MOD - 1)
    (Hroom : index < Z.of_nat (getArraySize self) \/ index + 1 <= max_size) :
  let grown :=
    (vectorJson self ++
     repeat default_SJR (Z.to_nat (index + 1) - getArraySize self))%list in
  subscript_index max_size index self =
    Ret (set_vectorJson grown self, in_vectorJson (Z.to_nat index)) /\
  (index < Z.of_nat (getArraySize self) -> set_vectorJson grown self = self) /\
  (forall i, (i < getArraySize self)%nat ->
             nth_error grown i = nth_error (vectorJson self) i) /\
  (forall i, (getArraySize self <= i < Z.to_nat (index + 1))%nat ->
             nth_error grown i = Some default_SJR).
Proof.
  cbv zeta.
  assert (Hsame : index < Z.of_nat (getArraySize self) ->
                  set_vectorJson
                    (vectorJson self ++
                     repeat default_SJR (Z.to_nat (index + 1) - getArraySize self))
                    self = self).
  { intros Hin.
    replace (Z.to_nat (index + 1) - getArraySize self)%nat with 0%nat by lia.
    cbn [repeat]. rewrite app_nil_r. apply set_vectorJson_same. }
  split; [| split; [exact Hsame | split]].
  - destruct (Z.lt_ge_cases index (Z.of_nat (getArraySize self))) as [Hin | Hout].
    + rewrite Hsame by exact Hin.
      apply subscript_index_in_range; [exact Hkind | lia].
    + destruct Hroom as [Hin | Hroom]; [lia |].
      unfold subscript_index.
      rewrite Hkind. cbn [NodeType_eqb negb bind].
      destruct (Z.leb_spec (Z.of_nat (getArraySize self)) index); [| lia].
      unfold wrap_size. rewrite Z.mod_small by (unfold SIZE_MOD in *; lia).
      rewrite vector_resize_ok by exact Hroom. cbn [bind].
      unfold getArraySize at 1. cbn [vectorJson set_vectorJson].
      rewrite resize_length.
      destruct (Z.ltb_spec index (Z.of_nat (Z.to_nat (index + 1)))); [| lia].
      rewrite resize_grow by (unfold getArraySize in *; lia).
      reflexivity.
  - intros i Hi. apply nth_error_app1. exact Hi.
  - intros i Hi. unfold getArraySize in *.
    rewrite nth_error_app2 by lia.
    apply nth_error_repeat. lia.
Qed.

(** X5.  Whenever [operator[]] by index returns, the receiver is an Array,
    the reference is to an element that exists, the children and the scalar
    are as before, and every index up to the one just used can be accessed
    again without changing the node any further. *)
Theorem subscript_index_then_again
    (index : Z) (self self' : SJR) (r : ref)
    (Hindex : 0 <= index)
    (Hret : subscript_index max_size index self = Ret (self', r)) :
  type self' = ARRAY /\
  r = in_vectorJson (Z.to_nat index) /\
  (exists node, deref self' r = Some node) /\
  mapJson self' = mapJson self /\ value self' = value self /\
  (forall j, 0 <= j <= index ->
             subscript_index max_size j self' = Ret (self', in_vectorJson (Z.to_nat j))).
Proof.
  unfold subscript_index in Hret.
  apply bind_Ret_inv in Hret. destruct Hret as (s1 & H1 & Hret).
  apply bind_Ret_inv in Hret. destruct Hret as (s2 & H2 & Hret).
  assert (P1 : type s1 = ARRAY /\ mapJson s1 = mapJson self /\ value s1 = value self).
  { destruct (NodeType_eqb (type self) ARRAY) eqn:Hty; cbn [negb] in H1.
    - injection H1 as <-. apply NodeType_eqb_eq in Hty. repeat split; exact Hty.
    - apply bind_Ret_inv in H1. destruct H1 as (s0 & H0 & H1).
      injection H1 as <-. unfold vector_resize in H0.
      destruct (index <=? max_size); [| discriminate].
      injection H0 as <-. repeat split. }
  assert (P2 : type s2 = type s1 /\ mapJson s2 = mapJson s1 /\ value s2 = value s1).
  { destruct (Z.of_nat (getArraySize s1) <=? index).
    - unfold vector_resize in H2.
      destruct (wrap_size (index + 1) <=? max_size); [| discriminate].
      injection H2 as <-. repeat split.
    - injection H2 as <-. repeat split. }
  destruct P1 as (T1 & M1 & V1). destruct P2 as (T2 & M2 & V2).
  destruct (Z.ltb_spec index (Z.of_nat (getArraySize s2))) as [Hin |];
    [| discriminate].
  injection Hret as <- <-.
  split; [congruence |].
  split; [reflexivity |].
  split.
  { cbn [deref].
    destruct (nth_error (vectorJson s2) (Z.to_nat index)) as [node |] eqn:E.
    - exists node; reflexivity.
    - apply nth_error_None in E. unfold getArraySize in Hin. lia. }
  split; [congruence |].
  split; [congruence |].
  intros j Hj. apply subscript_index_in_range; [congruence | lia].
Qed.

(** X6.  The largest [size_t] can never be used as an index: the size it
    asks for, [index + 1], wraps to 0.  On an Array the access raises
    [std::out_of_range] (after the vector has been resized to 0 elements);
    on any other node the first resize, to [index] elements, is refused
    with [std::length_error]. *)
Theorem subscript_index_largest_throws
    (self : SJR)
    (Hmax : 0 <= max_size < SIZE_MOD - 1)
    (Hsize : Z.of_nat (getArraySize self) <= max_size) :
  subscript_index max_size (SIZE_MOD - 1) self =
  Throw (if NodeType_eqb (type self) ARRAY
         then out_of_range "vector::_M_range_check"
         else length_error "vector::_M_default_append").
Proof.
  unfold subscript_index.
  destruct (NodeType_eqb (type self) ARRAY); cbn [negb bind].
  - destruct (Z.leb_spec (Z.of_nat (getArraySize self)) (SIZE_MOD - 1)); [| lia].
    replace (wrap_size (SIZE_MOD - 1 + 1)) with 0 by reflexivity.
    rewrite vector_resize_ok by lia. cbn [bind].
    unfold getArraySize at 1. cbn [vectorJson set_vectorJson].
    rewrite resize_length. reflexivity.
  - unfold vector_resize.
    destruct (Z.leb_spec (SIZE_MOD - 1) max_size); [lia | reflexivity].
Qed.
End SubscriptArray.

Lemma subscript_index_array_keeps_elements_witness :
  type (mkSJR [] [one_child] "" ARRAY) = ARRAY /\
  subscript_index 8 2 (mkSJR [] [one_child] "" ARRAY) =
    Ret (mkSJR [] [one_child; default_SJR; default_SJR] "" ARRAY, in_vectorJson 2).
Proof.
  split; [reflexivity |].
  refine (proj1 (subscript_index_array_keeps_elements
                   8 2 (mkSJR [] [one_child] "" ARRAY) eq_refl _ _)).
  - unfold SIZE_MOD. lia.
  - right. lia.
Defined.

Lemma subscript_index_then_again_witness :
  0 <= 3 /\
  subscript_index 8 1 (mkSJR [] (repeat default_SJR 4) "" ARRAY) =
    Ret (mkSJR [] (repeat default_SJR 4) "" ARRAY, in_vectorJson 1).
Proof.
  split; [lia |].
  assert (H : subscript_index 8 3 default_SJR =
              Ret (mkSJR [] (repeat default_SJR 4) "" ARRAY, in_vectorJson 3))
    by reflexivity.
  destruct (subscript_index_then_again 8 3 default_SJR _ _ ltac:(lia) H)
    as (_ & _ & _ & _ & _ & Hagain).
  apply (Hagain 1). lia.
Defined.

Lemma subscript_index_largest_throws_witness :
  0 <= 8 < SIZE_MOD - 1 /\
  subscript_index 8 (SIZE_MOD - 1) (mkSJR [] [one_child] "" ARRAY) =
    Throw (out_of_range "vector::_M_range_check").
Proof.
  assert (H : 0 <= 8 < SIZE_MOD - 1) by (unfold SIZE_MOD; lia).
  split; [exact H |].
  apply (subscript_index_largest_throws 8 (mkSJR [] [one_child] "" ARRAY) H).
  simpl. lia.
Defined.

(** ** What the parser rejects *)

Lemma skipWhiteSpace_stop (c : ascii) (rest : string) :
  isspace c = false -> skipWhiteSpace (String c rest) = Ret (String c rest).
Proof. intros H. simpl. rewrite H. reflexivity. Qed.

(** White space in front of a byte that is not white space is skipped up to
    that byte. *)
Lemma skipWhiteSpace_terminated (t : string) (c : ascii) (rest : string) :
  isspace c = false ->
  skipWhiteSpace (t ++ String c rest) = Ret (drop_spaces t ++ String c rest).
Proof.
  intros Hc. induction t as [| d t IH]; simpl.
  - rewrite Hc. reflexivity.
  - destruct (isspace d); [exact IH | reflexivity].
Qed.

Lemma drop_spaces_all (ws : string) :
  all_chars isspace ws = true -> drop_spaces ws = "".
Proof.
  induction ws as [| c ws IH]; simpl; intros H; [reflexivity |].
  apply andb_true_iff in H. destruct H as [Hc Hws].
  rewrite Hc. apply IH; exact Hws.
Qed.

Lemma parse_rejects (fuel : nat) (self : SJR) (c : ascii) (rest : string) :
  isspace c = false -> value_start c = false ->
  parse (S (S fuel)) self (String c rest) = Ret (false, self, String c rest).
Proof.
  intros Hsp Hst. unfold value_start in Hst.
  repeat (apply orb_false_iff in Hst; destruct Hst as [Hst ?]).
  cbn [parse]. rewrite skipWhiteSpace_stop by exact Hsp. cbn [bind].
  unfold parseString. rewrite Hst. cbn [bind].
  unfold parseBool. cbn [memcmp_eq].
  repeat match goal with H : is_char c _ = false |- _ => rewrite H end.
  cbn [bind orb].
  unfold parseNumber.
  repeat match goal with H : is_char c _ = false |- _ => rewrite H end.
  match goal with H : isdigit c = false |- _ => rewrite H end.
  cbn [bind orb].
  cbn [parseArray parseObject peek bind].
  repeat match goal with H : is_char c _ = false |- _ => rewrite H end.
  cbn [peek bind].
  repeat match goal with H : is_char c _ = false |- _ => rewrite H end.
  reflexivity.
Qed.

(** X7.  A text with no value in front is refused without being read any
    further.  When the first byte after the leading white space (the
    terminating NUL, for an empty or all-blank text) is not one that starts
    a value, [parse] answers [false] with the node unchanged and the cursor
    on that byte, and [load] throws the format error. *)
Theorem load_rejects_without_value
    (fuel : nat) (ws rest : string) (self : SJR)
    (Hws : all_chars isspace ws = true)
    (Hrest : starts_with (fun c => isspace c || value_start c)
                         (rest ++ str1 NUL) = false) :
  parse (2 + fuel) self ((ws ++ rest) ++ str1 NUL) =
    Ret (false, self, rest ++ str1 NUL) /\
  load (2 + fuel) (Some (ws ++ rest)) self =
    Throw (runtime_error "File doesn't correspong to json format file.").
Proof.
  assert (Hparse : parse (2 + fuel) self ((ws ++ rest) ++ str1 NUL) =
                   Ret (false, self, rest ++ str1 NUL)).
  { rewrite string_app_assoc.
    destruct (rest ++ str1 NUL) as [| c tail] eqn:E.
    - destruct rest; discriminate.
    - simpl in Hrest. apply orb_false_iff in Hrest. destruct Hrest as [Hsp Hst].
      cbn [Nat.add parse].
      rewrite skipWhiteSpace_terminated by exact Hsp.
      rewrite drop_spaces_all by exact Hws. cbn [append bind].
      pose proof (parse_rejects fuel self c tail Hsp Hst) as H.
      cbn [parse] in H. rewrite skipWhiteSpace_stop in H by exact Hsp.
      exact H. }
  split; [exact Hparse |].
  rewrite load_Some, Hparse. reflexivity.
Qed.

Lemma load_rejects_without_value_witness :
  all_chars isspace " " = true /\
  load 2 (Some " null") default_SJR =
    Throw (runtime_error "File doesn't correspong to json format file.") /\
  load 2 (Some "") default_SJR =
    Throw (runtime_error "File doesn't correspong to json format file.").
Proof.
  split; [reflexivity |].
  split.
  - exact (proj2 (load_rejects_without_value 0 " " "null" default_SJR
                    eq_refl eq_refl)).
  - exact (proj2 (load_rejects_without_value 0 "" "" default_SJR
                    eq_refl eq_refl)).
Defined.

(** ** String literals *)

Lemma drop_spaces_head (s : string) (d : ascii) (u : string) :
  drop_spaces s = String d u -> isspace d = false.
Proof.
  induction s as [| c s IH]; simpl; [discriminate |].
  destruct (isspace c) eqn:Hc; [exact IH |].
  intros H. injection H as <- _. exact Hc.
Qed.

Lemma drop_spaces_nil_all (s : string) :
  drop_spaces s = "" -> all_chars isspace s = true.
Proof.
  induction s as [| c s IH]; simpl; [reflexivity |].
  destruct (isspace c); [exact IH | discriminate].
Qed.

Lemma drop_spaces_length (s : string) :
  (String.length (drop_spaces s) <= String.length s)%nat.
Proof.
  induction s as [| c s IH]; simpl; [lia |].
  destruct (isspace c); simpl; lia.
Qed.

Lemma no_quote_drop_spaces (s : string) :
  no_quote s = true -> no_quote (drop_spaces s) = true.
Proof.
  unfold no_quote. induction s as [| c s IH]; simpl; [reflexivity |].
  intros H. destruct (isspace c); [| exact H].
  apply andb_true_iff in H. apply IH. exact (proj2 H).
Qed.

Lemma no_quote_cons (c : ascii) (s : string) :
  no_quote (String c s) = true -> is_char c DQUOTE = false /\ no_quote s = true.
Proof.
  unfold no_quote. simpl. intros H.
  apply andb_true_iff in H. destruct H as [Hc Hs].
  apply negb_true_iff in Hc. split; assumption.
Qed.

Lemma squeeze_drop_spaces (s : string) : squeeze (drop_spaces s) = squeeze s.
Proof.
  induction s as [| c s IH]; simpl; [reflexivity |].
  destruct (isspace c) eqn:Hc; [exact IH |].
  simpl. rewrite Hc. reflexivity.
Qed.

Lemma ends_with_space_cons (d : ascii) (u : string) :
  isspace d = false -> ends_with_space (String d u) = ends_with_space u.
Proof.
  intros Hd. destruct u; simpl; [exact Hd | reflexivity].
Qed.

Lemma ends_with_space_all (c : ascii) (s : string) :
  all_chars isspace (String c s) = true -> ends_with_space (String c s) = true.
Proof.
  revert c. induction s as [| d s IH]; intros c H.
  - simpl in *. rewrite andb_true_r in H. exact H.
  - change (ends_with_space (String c (String d s)))
      with (ends_with_space (String d s)).
    apply IH. simpl in H. apply andb_true_iff in H. exact (proj2 H).
Qed.

Lemma ends_with_space_drop (s : string) (d : ascii) (u : string) :
  drop_spaces s = String d u ->
  ends_with_space s = ends_with_space (String d u).
Proof.
  induction s as [| c s IH]; [discriminate |].
  cbn [drop_spaces]. destruct (isspace c) eqn:Hc.
  - intros H. rewrite <- (IH H).
    destruct s as [| c' s]; [discriminate | reflexivity].
  - intros H. rewrite H. reflexivity.
Qed.

Lemma set_value_same (self : SJR) : set_value (value self) self = self.
Proof. destruct self; reflexivity. Qed.

Lemma set_value_twice (a b : string) (self : SJR) :
  set_value a (set_value b self) = set_value a self.
Proof. reflexivity. Qed.

Lemma isspace_DQUOTE : isspace DQUOTE = false.
Proof. reflexivity. Qed.

(** The loop of [parseString] on a text that is closed by a double quote. *)
Lemma parseString_loop_closed (fuel : nat) (s : string) (self : SJR) (rest : string) :
  no_quote s = true -> (String.length s < fuel)%nat ->
  parseString_loop fuel self (s ++ String DQUOTE rest) =
  Ret (true, set_value (value self ++ squeeze s) self,
       if ends_with_space s then String DQUOTE rest else rest).
Proof.
  revert s self. induction fuel as [| fuel IH]; intros s self Hq Hlen; [lia |].
  destruct s as [| c s].
  - cbn. rewrite string_app_nil_r, set_value_same. reflexivity.
  - destruct (no_quote_cons _ _ Hq) as [Hc Hqs].
    change (String c s ++ String DQUOTE rest)
      with (String c (s ++ String DQUOTE rest)).
    cbn [parseString_loop]. rewrite Hc. cbn [negb].
    change (String c (s ++ String DQUOTE rest))
      with (String c s ++ String DQUOTE rest).
    rewrite skipWhiteSpace_terminated by exact isspace_DQUOTE. cbn [bind].
    pose proof (no_quote_drop_spaces _ Hq) as Hqu.
    pose proof (drop_spaces_length (String c s)) as Hlu.
    rewrite <- (squeeze_drop_spaces (String c s)).
    destruct (drop_spaces (String c s)) as [| d u] eqn:Hu.
    + rewrite ends_with_space_all by (apply drop_spaces_nil_all; exact Hu).
      cbn. rewrite string_app_nil_r, set_value_same.
      reflexivity.
    + destruct (no_quote_cons _ _ Hqu) as [Hd Hqu'].
      pose proof (drop_spaces_head _ _ _ Hu) as Hsp.
      rewrite (ends_with_space_drop _ _ _ Hu).
      rewrite ends_with_space_cons by exact Hsp.
      change (String d u ++ String DQUOTE rest)
        with (String d (u ++ String DQUOTE rest)).
      cbv iota. rewrite Hd.
      rewrite IH by (assumption || (cbn [String.length] in *; lia)).
      cbn [value set_value squeeze]. rewrite Hsp.
      rewrite string_app_assoc. reflexivity.
Qed.

Lemma parse_via_string
    (fuel : nat) (s rest : string) (self : SJR)
    (Hq : no_quote s = true)
    (Hfuel : (String.length s < fuel)%nat) :
  parse (S fuel) self (String DQUOTE (s ++ String DQUOTE rest)) =
  Ret (true,
       set_value (value self ++ squeeze s) (set_type STRING self),
       if ends_with_space s then String DQUOTE rest else rest).
Proof.
  cbn [parse].
  rewrite skipWhiteSpace_stop by exact isspace_DQUOTE. cbn [bind].
  unfold parseString. change (is_char DQUOTE DQUOTE) with true. cbv iota.
  rewrite parseString_loop_closed by assumption.
  reflexivity.
Qed.

(** X8.  A string literal is read up to its closing double quote with every
    white space byte inside it dropped, and what is read is appended to the
    scalar the node already holds; the kind becomes String.  The closing
    quote is consumed unless white space stands right before it, in which
    case the cursor is left on the quote. *)
Theorem parse_string_literal
    (fuel : nat) (ws s rest : string) (self : SJR)
    (Hws : all_chars isspace ws = true)
    (Hq : no_quote s = true)
    (Hfuel : (String.length s < fuel)%nat) :
  parse (S fuel) self (ws ++ String DQUOTE (s ++ String DQUOTE rest)) =
  Ret (true,
       set_value (value self ++ squeeze s) (set_type STRING self),
       if ends_with_space s then String DQUOTE rest else rest).
Proof.
  cbn [parse].
  rewrite skipWhiteSpace_terminated by exact isspace_DQUOTE.
  rewrite drop_spaces_all by exact Hws. cbn [append bind].
  unfold parseString. change (is_char DQUOTE DQUOTE) with true. cbv iota.
  rewrite parseString_loop_closed by assumption.
  reflexivity.
Qed.

Lemma parse_string_literal_witness :
  no_quote "a b " = true /\
  parse 6 default_SJR (q "'a b ', 1") =
    Ret (true, mkSJR [] [] "ab" STRING, q "', 1").
Proof.
  split; [reflexivity |].
  exact (parse_string_literal 5 "" "a b " ", 1" default_SJR
           eq_refl eq_refl ltac:(simpl; lia)).
Defined.

(** The loop of [parseString] on a text that is never closed. *)
Lemma parseString_loop_unterminated (fuel : nat) (t : string) (self : SJR) :
  no_quote t = true -> (String.length t + 2 <= fuel)%nat ->
  parseString_loop fuel self (t ++ str1 NUL) = OutOfBounds.
Proof.
  revert t self. induction fuel as [| fuel IH]; intros t self Hq Hlen; [lia |].
  assert (Hend : forall node, parseString_loop fuel node "" = OutOfBounds).
  { intros node. destruct fuel; [lia | reflexivity]. }
  destruct t as [| c t].
  - cbn. apply Hend.
  - destruct (no_quote_cons _ _ Hq) as [Hc Hqs].
    change (String c t ++ str1 NUL) with (String c (t ++ str1 NUL)).
    cbn [parseString_loop]. rewrite Hc. cbn [negb].
    change (String c (t ++ str1 NUL)) with (String c t ++ String NUL "").
    rewrite skipWhiteSpace_terminated by reflexivity. cbn [bind].
    pose proof (no_quote_drop_spaces _ Hq) as Hqu.
    pose proof (drop_spaces_length (String c t)) as Hlu.
    destruct (drop_spaces (String c t)) as [| d u] eqn:Hu.
    + cbn. apply Hend.
    + destruct (no_quote_cons _ _ Hqu) as [Hd Hqu'].
      change (String d u ++ String NUL "") with (String d (u ++ str1 NUL)).
      cbv iota. rewrite Hd.
      apply IH; [exact Hqu' | cbn [String.length] in *; lia].
Qed.

Lemma load_unterminated_string_enough
      (fuel : nat) (ws t : string) (self : SJR) :
  all_chars isspace ws = true -> no_quote t = true ->
  (String.length t + 3 <= fuel)%nat ->
  load fuel (Some (ws ++ String DQUOTE t)) self = OutOfBounds.
Proof.
  intros Hws Hq Hfuel.
  destruct fuel as [| fuel]; [lia |].
  rewrite load_Some, string_app_assoc.
  change (String DQUOTE t ++ str1 NUL) with (String DQUOTE (t ++ str1 NUL)).
  cbn [parse].
  rewrite skipWhiteSpace_terminated by exact isspace_DQUOTE.
  rewrite drop_spaces_all by exact Hws. cbn [append bind].
  unfold parseString. change (is_char DQUOTE DQUOTE) with true. cbv iota.
  rewrite parseString_loop_unterminated by (assumption || lia).
  reflexivity.
Qed.

(** X9.  A text whose first value is a string literal that is never closed
    makes [load] read past the end of its buffer: the scan for the closing
    quote steps over the terminating NUL.  With enough fuel (the length of
    the text after the quote, plus three) that is the outcome; with any
    fuel [load] neither returns nor throws. *)
Theorem load_unterminated_string
    (fuel : nat) (ws t : string) (self : SJR)
    (Hws : all_chars isspace ws = true)
    (Hq : no_quote t = true) :
  ((String.length t + 3 <= fuel)%nat ->
   load fuel (Some (ws ++ String DQUOTE t)) self = OutOfBounds) /\
  (load fuel (Some (ws ++ String DQUOTE t)) self = OutOfBounds \/
   load fuel (Some (ws ++ String DQUOTE t)) self = OutOfFuel).
Proof.
  split; [apply load_unterminated_string_enough; assumption |].
  destruct (load fuel (Some (ws ++ String DQUOTE t)) self) as [a | e | |] eqn:E;
    try (left; reflexivity); try (right; reflexivity); exfalso.
  - pose proof (load_mono fuel (Nat.max fuel (String.length t + 3)) _ _ _
                  ltac:(lia) E ltac:(discriminate)) as H.
    rewrite load_unterminated_string_enough in H by (assumption || lia).
    discriminate.
  - pose proof (load_mono fuel (Nat.max fuel (String.length t + 3)) _ _ _
                  ltac:(lia) E ltac:(discriminate)) as H.
    rewrite load_unterminated_string_enough in H by (assumption || lia).
    discriminate.
Qed.

Lemma load_unterminated_string_witness :
  no_quote "abc" = true /\
  load 6 (Some (q " 'abc")) default_SJR = OutOfBounds.
Proof.
  split; [reflexivity |].
  apply (proj1 (load_unterminated_string 6 " " "abc" default_SJR eq_refl eq_refl)).
  simpl. lia.
Defined.

(** ** Integer literals *)

Lemma isdigit_digit_of (c : ascii) : isdigit c = true -> 0 <= digit_of c <= 9.
Proof.
  unfold isdigit, digit_of. intros H.
  apply andb_true_iff in H. destruct H as [H1 H2].
  apply Z.leb_le in H1. apply Z.leb_le in H2. lia.
Qed.

Lemma digits_value_ge (ds : string) (acc : Z) :
  all_chars isdigit ds = true -> 0 <= acc -> acc <= digits_value acc ds.
Proof.
  revert acc. induction ds as [| d ds IH]; simpl; intros acc Hds Hacc; [lia |].
  apply andb_true_iff in Hds. destruct Hds as [Hd Hds].
  pose proof (isdigit_digit_of d Hd).
  specialize (IH (acc * 10 + digit_of d) Hds). lia.
Qed.

Lemma wrap_int_small (z : Z) : INT_MIN <= z <= INT_MAX -> wrap_int z = z.
Proof.
  unfold wrap_int, INT_MIN, INT_MAX. intros H.
  rewrite Z.mod_small by lia. lia.
Qed.

(** Without overflow the first loop of [parseNumber] computes the value of
    the digits. *)
Lemma parseNumber_digits_exact (ds : string) (c : ascii) (rest : string) (acc : Z) :
  all_chars isdigit ds = true -> isdigit c = false ->
  0 <= acc -> digits_value acc ds <= INT_MAX ->
  parseNumber_digits acc (ds ++ String c rest) =
  Ret (digits_value acc ds, String c rest).
Proof.
  revert acc. induction ds as [| d ds IH]; simpl; intros acc Hds Hc Hacc Hmax.
  - rewrite Hc. reflexivity.
  - apply andb_true_iff in Hds. destruct Hds as [Hd Hds].
    pose proof (isdigit_digit_of d Hd) as Hdv.
    pose proof (digits_value_ge ds (acc * 10 + digit_of d) Hds ltac:(lia)) as Hge.
    rewrite Hd.
    rewrite (wrap_int_small (acc * 10)) by (unfold INT_MIN; lia).
    rewrite wrap_int_small by (unfold INT_MIN; lia).
    apply IH; try assumption; lia.
Qed.

Lemma parseNumber_integer
      (fuel : nat) (self : SJR) (sign ds : string) (c : ascii) (rest : string) :
  (sign = "" \/ sign = "+" \/ sign = "-") ->
  all_chars isdigit ds = true ->
  (sign <> "" \/ ds <> "") ->
  ends_integer c = true ->
  decimal_value ds <= INT_MAX ->
  parseNumber fuel self (sign ++ ds ++ String c rest) =
  Ret (true, setValue_int (signed_value sign ds) self, String c rest).
Proof.
  intros Hsign Hds Hstart Hend Hmax.
  unfold ends_integer in Hend. apply negb_true_iff in Hend.
  repeat (apply orb_false_iff in Hend; destruct Hend as [Hend ?]).
  assert (Hval : 0 <= decimal_value ds)
    by (apply (digits_value_ge ds 0 Hds); lia).
  assert (Htail : forall negative,
             bind (parseNumber_digits 0 (ds ++ String c rest))
                  (fun x =>
                     match x with
                     | (valueInt, file) =>
                         match file with
                         | EmptyString => OutOfBounds
                         | String c0 rest0 =>
                             if is_char c0 "." then
                               bind (parseNumber_fraction (float_of_int valueInt) 1 rest0)
                                    (fun y => match y with
                                              | (valueFloat, file0) =>
                                                  Ret (true,
                                                       set_value
                                                         (to_string_double
                                                            (signed_double negative valueFloat))
                                                         (set_type FLOAT self), file0)
                                              end)
                             else if is_char c0 "e" || is_char c0 "E" then
                               bind (parseNumber_exponent fuel 0 rest0)
                                    (fun y => match y with
                                              | (valueInt', file0) =>
                                                  Ret (true,
                                                       set_value
                                                         (to_string_double
                                                            (signed_double negative
                                                               (float_mul (float_of_int valueInt)
                                                                  (float_of_double (pow10 valueInt')))))
                                                         (set_type FLOAT self), file0)
                                              end)
                             else
                               Ret (true,
                                    set_value
                                      (to_string_int
                                         (wrap_int (valueInt * (if negative then -1 else 1))))
                                      (set_type INT self), file)
                         end
                     end) =
             Ret (true,
                  setValue_int (if negative then - decimal_value ds else decimal_value ds) self,
                  String c rest)).
  { intros negative.
    rewrite parseNumber_digits_exact by (assumption || lia || exact Hmax).
    cbn [bind].
    repeat match goal with H : is_char c _ = false |- _ => rewrite H end.
    cbn [orb]. unfold setValue_int. fold (decimal_value ds).
    rewrite wrap_int_small by (unfold INT_MIN, INT_MAX in *; destruct negative; lia).
    destruct negative; repeat f_equal; lia. }
  destruct Hsign as [-> | [-> | ->]].
  - destruct ds as [| d ds]; [destruct Hstart; congruence |].
    pose proof Hds as Hds'. simpl in Hds'.
    apply andb_true_iff in Hds'. destruct Hds' as [Hd _].
    cbn [append]. unfold parseNumber.
    rewrite (isdigit_not_char d "-"), (isdigit_not_char d "+") by (reflexivity || assumption).
    rewrite Hd. cbn [orb].
    exact (Htail false).
  - cbn [append]. unfold parseNumber.
    change (is_char "+" "-") with false. change (is_char "+" "+") with true.
    cbn [orb]. exact (Htail false).
  - cbn [append]. unfold parseNumber.
    change (is_char "-" "-") with true. cbn [orb].
    exact (Htail true).
Qed.

(** [parse] on a byte that only the number alternative can take. *)
Lemma parse_via_number
      (fuel : nat) (self : SJR) (h : ascii) (tail : string) (r : SJR * string) :
  is_char h "-" || is_char h "+" || isdigit h = true ->
  parseNumber fuel self (String h tail) = Ret (true, fst r, snd r) ->
  parse (S fuel) self (String h tail) = Ret (true, fst r, snd r).
Proof.
  intros Hh Hnum.
  assert (Hfacts : isspace h = false /\ is_char h DQUOTE = false /\
                   is_char h "t" = false /\ is_char h "f" = false).
  { apply orb_true_iff in Hh. destruct Hh as [Hh | Hh];
      [apply orb_true_iff in Hh; destruct Hh as [Hh | Hh];
       apply is_char_eq in Hh; subst h; repeat split |].
    repeat split;
      [apply isdigit_not_space | apply isdigit_not_char ..];
      (exact Hh || reflexivity). }
  destruct Hfacts as (Hsp & Hq & Ht & Hf).
  cbn [parse]. rewrite skipWhiteSpace_stop by exact Hsp. cbn [bind].
  unfold parseString. rewrite Hq. cbn [bind].
  unfold parseBool. cbn [memcmp_eq]. rewrite Ht, Hf. cbn [bind orb].
  rewrite Hnum. reflexivity.
Qed.

Lemma integer_head (sign ds : string) (c : ascii) (rest : string) :
  (sign = "" \/ sign = "+" \/ sign = "-") ->
  all_chars isdigit ds = true ->
  (sign <> "" \/ ds <> "") ->
  exists h tail,
    sign ++ ds ++ String c rest = String h tail /\
    is_char h "-" || is_char h "+" || isdigit h = true /\
    isspace h = false.
Proof.
  intros Hsign Hds Hstart.
  destruct Hsign as [-> | [-> | ->]].
  - destruct ds as [| d ds]; [destruct Hstart; congruence |].
    simpl in Hds. apply andb_true_iff in Hds. destruct Hds as [Hd _].
    exists d, (ds ++ String c rest). split; [reflexivity |].
    split; [rewrite Hd; apply orb_true_r | apply isdigit_not_space; exact Hd].
  - eexists _, _. repeat split.
  - eexists _, _. repeat split.
Qed.

Lemma parse_via_integer
    (fuel : nat) (sign ds : string) (c : ascii) (rest : string) (self : SJR)
    (Hsign : sign = "" \/ sign = "+" \/ sign = "-")
    (Hds : all_chars isdigit ds = true)
    (Hstart : sign <> "" \/ ds <> "")
    (Hend : ends_integer c = true)
    (Hmax : decimal_value ds <= INT_MAX) :
  parse (S fuel) self (sign ++ ds ++ String c rest) =
  Ret (true, setValue_int (signed_value sign ds) self, String c rest).
Proof.
  pose proof (parseNumber_integer fuel self sign ds c rest
                Hsign Hds Hstart Hend Hmax) as Hnum.
  destruct (integer_head sign ds c rest Hsign Hds Hstart)
    as (h & tail & Hbody & Hh & _).
  rewrite Hbody in *.
  exact (parse_via_number fuel self h tail
           (setValue_int (signed_value sign ds) self, String c rest) Hh Hnum).
Qed.

(** X10.  An integer literal (an optional sign and a run of digits whose
    value fits an [int], ended by a byte that is not a digit, a point or an
    exponent marker) is read as an Int node holding the normalized decimal
    text of its value: leading zeros and a [+] are dropped, a sign with no
    digit at all reads as 0.  The node is what [setValue<int>] would have
    made it, and the cursor is left on the ending byte. *)
Theorem parse_integer_literal
    (fuel : nat) (ws sign ds : string) (c : ascii) (rest : string) (self : SJR)
    (Hws : all_chars isspace ws = true)
    (Hsign : sign = "" \/ sign = "+" \/ sign = "-")
    (Hds : all_chars isdigit ds = true)
    (Hstart : sign <> "" \/ ds <> "")
    (Hend : ends_integer c = true)
    (Hmax : decimal_value ds <= INT_MAX) :
  parse (S fuel) self (ws ++ sign ++ ds ++ String c rest) =
  Ret (true, setValue_int (signed_value sign ds) self, String c rest).
Proof.
  pose proof (parseNumber_integer fuel self sign ds c rest
                Hsign Hds Hstart Hend Hmax) as Hnum.
  destruct (integer_head sign ds c rest Hsign Hds Hstart)
    as (h & tail & Hbody & Hh & Hsp).
  rewrite Hbody in *.
  pose proof (parse_via_number fuel self h tail
                (setValue_int (signed_value sign ds) self, String c rest)
                Hh Hnum) as Hparse.
  cbn [fst snd] in Hparse.
  cbn [parse] in Hparse |- *.
  rewrite skipWhiteSpace_terminated by exact Hsp.
  rewrite drop_spaces_all by exact Hws. cbn [append].
  rewrite skipWhiteSpace_stop in Hparse by exact Hsp.
  exact Hparse.
Qed.

Lemma parse_integer_literal_witness :
  all_chars isdigit "007" = true /\
  parse 1 default_SJR (" -007, 2") = Ret (true, mkSJR [] [] "-7" INT, ", 2") /\
  parse 1 default_SJR ("+]") = Ret (true, mkSJR [] [] "0" INT, "]").
Proof.
  split; [reflexivity |].
  split.
  - apply (parse_integer_literal 0 " " "-" "007" "," " 2" default_SJR);
      try reflexivity.
    + right; right; reflexivity.
    + left; discriminate.
    + vm_compute. discriminate.
  - apply (parse_integer_literal 0 "" "+" "" "]" "" default_SJR);
      try reflexivity.
    + right; left; reflexivity.
    + left; discriminate.
    + vm_compute. discriminate.
Defined.

(** ** The serializer's state *)

(** Induction over the tree: children and elements first. *)
Lemma SJR_induction (P : SJR -> Prop) :
  (forall self,
      Forall P (map snd (mapJson self)) -> Forall P (vectorJson self) -> P self) ->
  forall self, P self.
Proof.
  intros H. fix IH 1. intros [m v val t]. apply H; cbn [mapJson vectorJson].
  - induction m as [| [k x] m IHm]; constructor; [apply IH | exact IHm].
  - induction v as [| x v IHv]; constructor; [apply IH | exact IHv].
Qed.

Lemma steady_refl (st : wstate) : steady st st.
Proof.
  split; [reflexivity |]. exists "". rewrite string_app_nil_r. reflexivity.
Qed.

Lemma steady_trans (a b c : wstate) : steady a b -> steady b c -> steady a c.
Proof.
  intros [Hab [t1 H1]] [Hbc [t2 H2]]. split; [congruence |].
  exists (t1 ++ t2). rewrite H2, H1. apply string_app_assoc.
Qed.

Lemma put_steady (s : string) (st st' : wstate) : put s st = Ret st' -> steady st st'.
Proof.
  unfold put. intros H. injection H as <-. split; [reflexivity |].
  exists s. reflexivity.
Qed.

Lemma writeTabs_static_steady (st st' : wstate) :
  writeTabs_static st = Ret st' -> steady st st'.
Proof. unfold writeTabs_static, writeTabs. apply put_steady. Qed.

Lemma steady_in_range (st st' : wstate) :
  steady st st' -> counter_in_range st -> counter_in_range st'.
Proof. unfold counter_in_range. intros [H _] Hr. rewrite H. exact Hr. Qed.

Lemma wrap_int_in_range (z : Z) : INT_MIN <= wrap_int z <= INT_MAX.
Proof.
  unfold wrap_int, INT_MIN, INT_MAX.
  pose proof (Z.mod_pos_bound (z + 2 ^ 31) (2 ^ 32) ltac:(lia)). lia.
Qed.

(** Counting up and then down gives the counter back, also across the wrap. *)
Lemma wrap_int_up_down (z : Z) :
  INT_MIN <= z <= INT_MAX -> wrap_int (wrap_int (z + 1) + -1) = z.
Proof.
  unfold wrap_int, INT_MIN, INT_MAX. intros H.
  destruct (Z.eq_dec z (2 ^ 31 - 1)) as [-> | Hne].
  - reflexivity.
  - rewrite (Z.mod_small (z + 1 + 2 ^ 31)) by lia.
    rewrite Z.mod_small by lia. lia.
Qed.

(** Takes the next statement off a run that returned. *)
Ltac next_statement H :=
  apply bind_Ret_inv in H;
  let st := fresh "st" in
  let Hst := fresh "Hst" in
  destruct H as (st & Hst & H).

Section WriteSteady.
Variable write : SJR -> writer.

Lemma writeArray_loop_steady (elements : list SJR) :
  Forall (writes_steady write) elements ->
  forall st st', counter_in_range st ->
                 writeArray_loop write elements st = Ret st' -> steady st st'.
Proof.
  induction elements as [| it rest IH]; intros Hall st st' Hr H.
  - injection H as <-. apply steady_refl.
  - inversion Hall as [| ? ? Hit Hrest]; subst.
    cbn [writeArray_loop] in H.
    next_statement H. next_statement H.
    pose proof (Hit _ _ Hr Hst) as S1.
    assert (S2 : steady st0 st1).
    { destruct rest; [injection Hst0 as <-; apply steady_refl |
                      eapply put_steady; eassumption]. }
    pose proof (steady_trans _ _ _ S1 S2) as S12.
    eapply steady_trans; [exact S12 |].
    apply IH; [exact Hrest | eapply steady_in_range; eassumption | exact H].
Qed.

Lemma writeObject_loop_steady (entries : list (string * SJR)) :
  Forall (writes_steady write) (map snd entries) ->
  forall st st', counter_in_range st ->
                 writeObject_loop write entries st = Ret st' -> steady st st'.
Proof.
  induction entries as [| [first second] rest IH]; intros Hall st st' Hr H.
  - injection H as <-. apply steady_refl.
  - cbn [map snd] in Hall. inversion Hall as [| ? ? Hit Hrest]; subst.
    cbn [writeObject_loop] in H.
    next_statement H. next_statement H. next_statement H. next_statement H.
    pose proof (put_steady _ _ _ Hst) as S1.
    pose proof (put_steady _ _ _ Hst0) as S2.
    pose proof (steady_trans _ _ _ S1 S2) as S12.
    pose proof (Hit _ _ (steady_in_range _ _ S12 Hr) Hst1) as S3.
    pose proof (steady_trans _ _ _ S12 S3) as S13.
    assert (S4 : steady st2 st3).
    { destruct rest; [injection Hst2 as <-; apply steady_refl |].
      next_statement Hst2. next_statement Hst2.
      eapply steady_trans; [eapply put_steady; eassumption |].
      eapply steady_trans; [eapply put_steady; eassumption |].
      eapply writeTabs_static_steady; eassumption. }
    pose proof (steady_trans _ _ _ S13 S4) as S14.
    eapply steady_trans; [exact S14 |].
    apply IH; [exact Hrest | eapply steady_in_range; eassumption | exact H].
Qed.
End WriteSteady.

Lemma write_steady (self : SJR) : writes_steady write self.
Proof.
  induction self as [self Hmap Hvec] using SJR_induction.
  intros st st' Hr H.
  destruct self as [m v val t]. cbn [mapJson vectorJson] in Hmap, Hvec.
  cbn [write type] in H. destruct t.
  - unfold writeBool in H. next_statement H. eapply put_steady; eassumption.
  - unfold writeInt in H. next_statement H. eapply put_steady; eassumption.
  - unfold writeFloat in H. next_statement H. eapply put_steady; eassumption.
  - unfold writeString in H. eapply put_steady; eassumption.
  - unfold writeArray in H. cbn [vectorJson] in H.
    next_statement H. next_statement H.
    eapply steady_trans; [eapply put_steady; eassumption |].
    pose proof (put_steady _ _ _ Hst) as S1.
    eapply steady_trans;
      [eapply writeArray_loop_steady;
       [exact Hvec | eapply steady_in_range; eassumption | eassumption] |].
    eapply put_steady; eassumption.
  - unfold writeObject in H. cbn [mapJson value] in H.
    next_statement H.
    assert (S0 : steady st st0).
    { destruct val; [injection Hst as <-; apply steady_refl |].
      next_statement Hst.
      eapply steady_trans; eapply put_steady; eassumption. }
    next_statement H. next_statement H. next_statement H.
    next_statement H. next_statement H. next_statement H.
    next_statement H. next_statement H. next_statement H.
    pose proof (put_steady _ _ _ Hst0) as S1.
    pose proof (writeTabs_static_steady _ _ Hst1) as S2.
    pose proof (put_steady _ _ _ Hst2) as S3.
    pose proof (steady_trans _ _ _ S0 (steady_trans _ _ _ S1 (steady_trans _ _ _ S2 S3)))
      as S03.
    pose proof (steady_in_range _ _ S03 Hr) as R3.
    unfold add_tabsCount in Hst3. injection Hst3 as <-.
    pose proof (writeTabs_static_steady _ _ Hst4) as S5.
    assert (R5 : counter_in_range st5).
    { eapply steady_in_range; [exact S5 |].
      unfold counter_in_range. cbn [tabsCount]. apply wrap_int_in_range. }
    pose proof (writeObject_loop_steady write m Hmap _ _ R5 Hst5) as S6.
    pose proof (steady_trans _ _ _ S5 S6) as S56.
    unfold add_tabsCount in Hst6. injection Hst6 as <-.
    pose proof (put_steady _ _ _ Hst7) as S8.
    pose proof (writeTabs_static_steady _ _ Hst8) as S9.
    pose proof (put_steady _ _ _ H) as S10.
    pose proof (steady_trans _ _ _ S8 (steady_trans _ _ _ S9 S10)) as S810.
    destruct S03 as [T03 [t03 O03]]. destruct S56 as [T56 [t56 O56]].
    destruct S810 as [T810 [t810 O810]].
    cbn [tabsCount out] in *.
    split.
    + rewrite T810, T56. rewrite T03.
      apply wrap_int_up_down. unfold counter_in_range in Hr. exact Hr.
    + exists (t03 ++ t56 ++ t810).
      rewrite O810, O56, O03, !string_app_assoc. reflexivity.
Qed.

(** X11.  A write that returns has only appended to the stream and has left
    the static indentation counter of [writeObject] at the value it found,
    however deep the tree; [save] that returns [true] hands the counter back
    unchanged. *)
Theorem save_restores_tabsCount
    (self : SJR) (tabs0 : Z) (ok : bool) (st' : wstate)
    (Hrange : INT_MIN <= tabs0 <= INT_MAX)
    (Hsave : save true self tabs0 = Ret (ok, st')) :
  ok = true /\ tabsCount st' = tabs0 /\
  (forall st st1,
      counter_in_range st -> write self st = Ret st1 ->
      tabsCount st1 = tabsCount st /\ exists text, out st1 = out st ++ text).
Proof.
  unfold save in Hsave. cbn [negb] in Hsave.
  next_statement Hsave. injection Hsave as <- <-.
  split; [reflexivity |].
  split.
  - exact (proj1 (write_steady self (mk_wstate "" tabs0) st Hrange Hst)).
  - intros st1 st2 Hr H. exact (write_steady self _ _ Hr H).
Qed.

Lemma save_restores_tabsCount_witness :
  INT_MIN <= 3 <= INT_MAX /\
  exists st', save true zebra_apple 3 = Ret (true, st') /\ tabsCount st' = 3.
Proof.
  assert (Hr : INT_MIN <= 3 <= INT_MAX) by (unfold INT_MIN, INT_MAX; lia).
  split; [exact Hr |].
  assert (H : exists st', save true zebra_apple 3 = Ret (true, st')).
  { eexists. vm_compute. reflexivity. }
  destruct H as [st' H]. exists st'. split; [exact H |].
  exact (proj1 (proj2 (save_restores_tabsCount zebra_apple 3 true st' Hr H))).
Defined.

(** ** The parser keeps the keys and the elements of its receiver *)

Create HintDb gr.

Lemma grows_refl (self : SJR) : grows self self.
Proof.
  split; [apply incl_refl |]. exists []. rewrite app_nil_r. reflexivity.
Qed.

Lemma grows_set_type (t : NodeType) (base self : SJR) :
  grows base self -> grows base (set_type t self).
Proof. intros H. exact H. Qed.

Lemma grows_set_value (s : string) (base self : SJR) :
  grows base self -> grows base (set_value s self).
Proof. intros H. exact H. Qed.

Lemma grows_push_back (x base self : SJR) :
  grows base self -> grows base (set_vectorJson (vectorJson self ++ [x]) self).
Proof.
  intros [Hk [added Hv]]. split; [exact Hk |].
  exists (added ++ [x])%list. cbn [vectorJson set_vectorJson].
  rewrite Hv, app_assoc. reflexivity.
Qed.

Lemma map_assign_keys_incl {T : Type} (k : string) (v : T) (m : map_t T) :
  incl (keys m) (keys (map_assign k v m)).
Proof.
  induction m as [| [k' v'] m IH]; simpl; [apply incl_nil_l |].
  destruct (String.compare k k') eqn:Hcmp; simpl.
  - apply String.compare_eq_iff in Hcmp. subst. apply incl_refl.
  - apply incl_tl, incl_refl.
  - intros x [Hx | Hx]; [left; exact Hx | right; apply IH; exact Hx].
Qed.

Lemma grows_map_assign (k : string) (v : SJR) (t : NodeType) (base self : SJR) :
  grows base self ->
  grows base (set_mapJson (map_assign k v (mapJson self)) (set_type t self)).
Proof.
  intros [Hk Hv]. split; [| exact Hv].
  cbn [mapJson set_mapJson set_type].
  eapply incl_tran; [exact Hk | apply map_assign_keys_incl].
Qed.

#[local] Hint Resolve grows_set_type grows_set_value grows_push_back
  grows_map_assign ensures_Throw ensures_OutOfBounds ensures_OutOfFuel : gr.

(** Walks through a run, carrying [grows base] from call to call; the node a
    nested [parse] builds needs no invariant. *)
Ltac grows_walk base :=
  repeat first
    [ progress cbn [node_of fst snd] in *
    | solve [eauto with gr]
    | apply ensures_Ret
    | match goal with
      | |- ensures _ (bind (match _ with _ => _ end) _) =>
          apply ensures_bind with (Q := fun e => grows base (node_of e));
          [| intros ? ?]
      end
    | match goal with
      | |- ensures _ (bind (?f _ default_SJR _) _) =>
          apply ensures_bind_any; intros ?
      end
    | eapply ensures_bind; [solve [eauto with gr] | intros ? ?]
    | apply ensures_bind_any; intros ?
    | match goal with
      | |- ensures _ (match ?x with _ => _ end) => destruct x
      end ].

Lemma parseString_loop_keeps_entries (fuel : nat) : keeps_entries (parseString_loop fuel).
Proof.
  induction fuel as [| fuel IH]; intros base self file Hself; simpl.
  - apply ensures_OutOfFuel.
  - grows_walk base.
Qed.

Lemma parseString_keeps_entries (fuel : nat) : keeps_entries (parseString fuel).
Proof.
  intros base self file Hself. unfold parseString.
  assert (Hloop := parseString_loop_keeps_entries fuel).
  grows_walk base.
Qed.

Lemma parseBool_keeps_entries : keeps_entries parseBool.
Proof.
  intros base self file Hself. unfold parseBool. grows_walk base.
Qed.

Lemma parseNumber_keeps_entries (fuel : nat) : keeps_entries (parseNumber fuel).
Proof.
  intros base self file Hself. unfold parseNumber. grows_walk base.
Qed.

Lemma parse_family_keeps_entries (fuel : nat) :
  keeps_entries (parse fuel) /\
  keeps_entries (parseArray fuel) /\
  keeps_entries (parseArray_loop fuel) /\
  keeps_entries (parseObject fuel) /\
  keeps_entries (parseObject_loop fuel).
Proof.
  induction fuel as [| fuel (Hp & Ha & Hal & Ho & Hol)].
  - split; [| split; [| split; [| split]]];
      intros base self file Hself; apply ensures_OutOfFuel.
  - assert (Hs := parseString_keeps_entries fuel).
    assert (Hb := parseBool_keeps_entries).
    assert (Hn := parseNumber_keeps_entries fuel).
    split; [| split; [| split; [| split]]];
      intros base self file Hself; simpl; grows_walk base.
Qed.

(** X12.  Parsing never removes a key or an element from the node it is
    run on.  Whatever [parse] returns, and so whenever [load] returns, every
    key the node had is still a key, and the elements it had are still
    there, unchanged and in front of any new ones.  Nothing more is kept:
    the child under a key, the scalar and the kind may all be overwritten. *)
Theorem load_keeps_entries
    (fuel : nat) (file : option string) (self self' : SJR)
    (Hload : load fuel file self = Ret self') :
  incl (keys (mapJson self)) (keys (mapJson self')) /\
  (exists added, vectorJson self' = (vectorJson self ++ added)%list) /\
  (forall text ok node rest,
      parse fuel self text = Ret (ok, node, rest) -> grows self node).
Proof.
  assert (Hparse : forall text ok node rest,
             parse fuel self text = Ret (ok, node, rest) -> grows self node).
  { intros text ok node rest H.
    exact (proj1 (parse_family_keeps_entries fuel) self self text (grows_refl self) _ H). }
  destruct file as [str |]; [| discriminate].
  rewrite load_Some in Hload.
  apply bind_Ret_inv in Hload. destruct Hload as ([[ok node] rest] & Hp & Hret).
  cbn [fst snd] in Hret. destruct ok; [| discriminate].
  injection Hret as <-.
  destruct (Hparse _ _ _ _ Hp) as [Hk Hv].
  split; [exact Hk | split; [exact Hv | exact Hparse]].
Qed.

Lemma load_keeps_entries_witness :
  load 4 (Some "[7]") (mkSJR [] [one_child] "" ARRAY) =
    Ret (mkSJR [] [one_child; mkSJR [] [] "7" INT] "" ARRAY) /\
  exists added,
    [one_child; mkSJR [] [] "7" INT] = ([one_child] ++ added)%list.
Proof.
  assert (H : load 4 (Some "[7]") (mkSJR [] [one_child] "" ARRAY) =
              Ret (mkSJR [] [one_child; mkSJR [] [] "7" INT] "" ARRAY))
    by (vm_compute; reflexivity).
  split; [exact H |].
  exact (proj1 (proj2 (load_keeps_entries _ _ _ _ H))).
Defined.

(** ** Round trip through the text format *)

Lemma value_start_facts (c : ascii) :
  value_start c = true ->
  isspace c = false /\ is_char c "]" = false /\ is_char c "}" = false.
Proof.
  destruct c as [[] [] [] [] [] [] [] []]; intros H;
    try discriminate H; repeat split.
Qed.

Lemma isspace_facts (c : ascii) :
  isspace c = true ->
  ends_integer c = true /\ is_char c "]" = false /\ is_char c "}" = false /\
  is_char c DQUOTE = false.
Proof.
  destruct c as [[] [] [] [] [] [] [] []]; intros H;
    try discriminate H; repeat split.
Qed.

Lemma tabs_spaces (n : nat) : all_chars isspace (tabs n) = true.
Proof. induction n as [| n IH]; simpl; [reflexivity | exact IH]. Qed.

Lemma all_chars_app (p : ascii -> bool) (a b : string) :
  all_chars p (a ++ b) = all_chars p a && all_chars p b.
Proof.
  induction a as [| c a IH]; simpl; [reflexivity |].
  rewrite IH, andb_assoc. reflexivity.
Qed.

Lemma parse_skip_spaces (fuel : nat) (self : SJR) (ws t : string) :
  all_chars isspace ws = true -> parse fuel self (ws ++ t) = parse fuel self t.
Proof.
  intros Hws. destruct fuel as [| fuel]; [reflexivity |].
  cbn [parse]. rewrite skipWhiteSpace_app by exact Hws. reflexivity.
Qed.

Lemma plain_cons (c : ascii) (s : string) :
  plain (String c s) = true ->
  is_char c DQUOTE = false /\ isspace c = false /\ plain s = true.
Proof.
  unfold plain. simpl. intros H.
  apply andb_true_iff in H. destruct H as [Hc Hs].
  apply andb_true_iff in Hc. destruct Hc as [Hq Hsp].
  apply negb_true_iff in Hq. apply negb_true_iff in Hsp.
  repeat split; assumption.
Qed.

Lemma plain_no_quote (s : string) : plain s = true -> no_quote s = true.
Proof.
  induction s as [| c s IH]; [reflexivity |].
  intros H. destruct (plain_cons _ _ H) as (Hq & _ & Hs).
  unfold no_quote in *. simpl. rewrite Hq. exact (IH Hs).
Qed.

Lemma plain_squeeze (s : string) : plain s = true -> squeeze s = s.
Proof.
  induction s as [| c s IH]; [reflexivity |].
  intros H. destruct (plain_cons _ _ H) as (_ & Hsp & Hs).
  simpl. rewrite Hsp, (IH Hs). reflexivity.
Qed.

Lemma plain_ends_with_space (s : string) : plain s = true -> ends_with_space s = false.
Proof.
  induction s as [| c s IH]; [reflexivity |].
  intros H. destruct (plain_cons _ _ H) as (_ & Hsp & Hs).
  rewrite ends_with_space_cons by exact Hsp. exact (IH Hs).
Qed.

Lemma to_string_int_shape (v : Z) :
  - INT_MAX <= v <= INT_MAX ->
  exists sign ds,
    to_string_int v = sign ++ ds /\
    (sign = "" \/ sign = "-") /\
    all_chars isdigit ds = true /\ ds <> "" /\
    decimal_value ds <= INT_MAX /\
    signed_value sign ds = v.
Proof.
  intros Hv. destruct v as [| p | p].
  - exists "", "0". repeat split; try reflexivity; try discriminate.
    left; reflexivity.
  - destruct (to_string_int_pos p) as (c & ds & Hs & Hd & Hval).
    exists "", (String c ds). unfold signed_value, decimal_value.
    rewrite Hval. repeat split; try assumption; try discriminate; try lia.
    left; reflexivity.
  - destruct (to_string_int_pos p) as (c & ds & Hs & Hd & Hval).
    exists "-", (String c ds). unfold signed_value, decimal_value.
    rewrite Hval, to_string_int_neg, Hs. cbn [String.eqb Ascii.eqb Bool.eqb].
    repeat split; try assumption; try discriminate; try lia.
    right; reflexivity.
Qed.

Lemma starts_with_cons (p : ascii -> bool) (rest : string) :
  starts_with p rest = true -> exists c tail, rest = String c tail /\ p c = true.
Proof.
  destruct rest as [| c tail]; [discriminate |].
  intros H. exists c, tail. split; [reflexivity | exact H].
Qed.

Lemma round_trips_bool (b : bool) : round_trips (setValue_bool b default_SJR).
Proof.
  intros st.
  exists (mk_wstate (out st ++ ostream_boolalpha b) (tabsCount st)),
         "", (ostream_boolalpha b), 1%nat.
  split; [destruct b; reflexivity |].
  split; [reflexivity |].
  split; [reflexivity |].
  split; [destruct b; reflexivity |].
  intros extra rest _.
  exact (parse_bool_then_anything extra default_SJR "" b rest eq_refl).
Qed.

Lemma round_trips_int (v : Z) :
  - INT_MAX <= v <= INT_MAX -> round_trips (setValue_int v default_SJR).
Proof.
  intros Hv st.
  exists (mk_wstate (out st ++ to_string_int v) (tabsCount st)),
         "", (to_string_int v), 1%nat.
  destruct (to_string_int_shape v Hv) as (sign & ds & Hs & Hsign & Hds & Hne & Hmax & Hval).
  split.
  { cbn [write setValue_int set_value set_type type]. unfold writeInt.
    cbn [value]. rewrite stoi_to_string_int by (unfold INT_MIN, INT_MAX in *; lia).
    reflexivity. }
  split; [reflexivity |].
  split; [reflexivity |].
  split.
  { rewrite Hs. destruct Hsign as [-> | ->]; [| reflexivity].
    destruct ds as [| d ds]; [congruence |].
    simpl in Hds. apply andb_true_iff in Hds. destruct Hds as [Hd _].
    cbn [append starts_with]. unfold value_start. rewrite Hd.
    rewrite !orb_true_r. reflexivity. }
  intros extra rest Hrest.
  destruct (starts_with_cons _ _ Hrest) as (c & tail & -> & Hc).
  rewrite Hs, string_app_assoc, <- Hval.
  apply (parse_via_integer extra sign ds c tail default_SJR);
    try assumption; try reflexivity.
  - destruct Hsign as [-> | ->]; [left | right; right]; reflexivity.
  - right. exact Hne.
Qed.

Lemma round_trips_string (s : string) :
  plain s = true -> round_trips (setValue_string s default_SJR).
Proof.
  intros Hs st.
  exists (mk_wstate (out st ++ str1 DQUOTE ++ s ++ str1 DQUOTE) (tabsCount st)),
         "", (str1 DQUOTE ++ s ++ str1 DQUOTE), (S (S (String.length s))).
  split; [reflexivity |].
  split; [reflexivity |].
  split; [reflexivity |].
  split; [reflexivity |].
  intros extra rest _.
  change ((str1 DQUOTE ++ s ++ str1 DQUOTE) ++ rest)
    with (String DQUOTE ((s ++ str1 DQUOTE) ++ rest)).
  rewrite string_app_assoc.
  change (str1 DQUOTE ++ rest) with (String DQUOTE rest).
  pose proof (parse_via_string (S (String.length s) + extra) s rest default_SJR
                (plain_no_quote s Hs) ltac:(lia)) as H.
  rewrite plain_squeeze, plain_ends_with_space in H by exact Hs.
  exact H.
Qed.

(** The first byte of white space followed by a value is white space or the
    first byte of the value. *)
Lemma first_byte (sp : string) (h : ascii) (t : string) :
  all_chars isspace sp = true ->
  exists c tl, sp ++ String h t = String c tl /\ (c = h \/ isspace c = true).
Proof.
  destruct sp as [| c sp]; simpl; intros H.
  - exists h, t. split; [reflexivity | left; reflexivity].
  - apply andb_true_iff in H. destruct H as [Hc _].
    exists c, (sp ++ String h t). split; [reflexivity | right; exact Hc].
Qed.

(** One turn of the loop of [parseArray] over an element that parses. *)
Lemma parseArray_loop_turn
      (fuel : nat) (self : SJR) (pre ws core rest1 : string) (e : SJR) :
  all_chars isspace pre = true -> all_chars isspace ws = true ->
  starts_with value_start core = true ->
  parse fuel default_SJR (core ++ rest1) = Ret (true, e, rest1) ->
  parseArray_loop (S fuel) self (pre ++ ws ++ core ++ rest1) =
  (let self := set_vectorJson (vectorJson self ++ [e]) self in
   file <- skipWhiteSpace rest1 ;;
   '(c, rest) <- peek file ;;
   if is_char c "]" then Ret (true, set_type ARRAY self, rest) else
   if negb (is_char c ",") then Ret (false, self, file) else
   parseArray_loop fuel self rest).
Proof.
  intros Hpre Hws Hcore Hparse.
  destruct (starts_with_cons _ _ Hcore) as (h & coretail & -> & Hh).
  destruct (value_start_facts h Hh) as (Hsp & Hbr & _).
  assert (Hsps : all_chars isspace (pre ++ ws) = true)
    by (rewrite all_chars_app, Hpre, Hws; reflexivity).
  rewrite <- (string_app_assoc pre ws).
  change (String h coretail ++ rest1) with (String h (coretail ++ rest1)) in *.
  destruct (first_byte (pre ++ ws) h (coretail ++ rest1) Hsps)
    as (c & tl & Hfirst & Hc).
  cbn [parseArray_loop].
  rewrite Hfirst at 1. cbn [peek bind].
  assert (Hnot : is_char c "]" = false).
  { destruct Hc as [-> | Hc]; [exact Hbr |].
    exact (proj1 (proj2 (isspace_facts c Hc))). }
  rewrite Hnot. cbn [negb].
  rewrite skipWhiteSpace_terminated by exact Hsp.
  rewrite drop_spaces_all by exact Hsps. cbn [append bind peek].
  rewrite Hbr. rewrite Hparse. cbn [bind negb]. reflexivity.
Qed.

Lemma writeArray_loop_round_trip (v : list SJR) :
  Forall round_trips v -> v <> [] ->
  forall st, exists st' body fuel,
    writeArray_loop write v st = Ret st' /\
    out st' = out st ++ body /\
    forall extra pre self rest,
      all_chars isspace pre = true ->
      parseArray_loop (fuel + extra) self (pre ++ body ++ String "]" rest) =
      Ret (true, set_type ARRAY (set_vectorJson (vectorJson self ++ v) self), rest).
Proof.
  induction v as [| e v IH]; intros Hall Hne st; [congruence |].
  inversion Hall as [| ? ? He Hv]; subst.
  destruct (He st) as (st1 & ws & core & fe & Hw & Ho & Hws & Hcore & Hp).
  destruct v as [| e2 v].
  - exists st1, (ws ++ core), (S fe).
    split; [cbn [writeArray_loop]; rewrite Hw; reflexivity |].
    split; [exact Ho |].
    intros extra pre self rest Hpre.
    rewrite !string_app_assoc.
    cbn [Nat.add].
    rewrite (parseArray_loop_turn (fe + extra) self pre ws core (String "]" rest) e)
      by (assumption || (apply Hp; reflexivity)).
    reflexivity.
  - destruct (IH Hv ltac:(discriminate)
                (mk_wstate (out st1 ++ ", ") (tabsCount st1)))
      as (st3 & body2 & f2 & Hw2 & Ho2 & Hp2).
    exists st3, (ws ++ core ++ ", " ++ body2), (S (Nat.max fe f2)).
    split.
    { cbn [writeArray_loop]. rewrite Hw. unfold put at 1. cbn [bind].
      exact Hw2. }
    split.
    { rewrite Ho2. cbn [out]. rewrite Ho, !string_app_assoc. reflexivity. }
    intros extra pre self rest Hpre.
    rewrite !string_app_assoc. cbn [append Nat.add].
    rewrite (parseArray_loop_turn (Nat.max fe f2 + extra) self pre ws core
               (String "," (String " " (body2 ++ String "]" rest))) e);
      try assumption.
    + cbn [skipWhiteSpace bind peek].
      change (isspace ",") with false. cbv iota. cbn [bind peek].
      change (is_char "," "]") with false. change (is_char "," ",") with true.
      cbn [negb]. cbv iota.
      replace (Nat.max fe f2 + extra)%nat
        with (f2 + (Nat.max fe f2 + extra - f2))%nat by lia.
      rewrite (Hp2 _ (String " " "") _ rest eq_refl).
      cbn [vectorJson set_vectorJson set_type mapJson value type].
      rewrite <- app_assoc. reflexivity.
    + replace (Nat.max fe f2 + extra)%nat
        with (fe + (Nat.max fe f2 + extra - fe))%nat by lia.
      apply Hp. reflexivity.
Qed.

(** [parse] on an opening bracket or brace goes to [parseArray] or
    [parseObject]. *)
Lemma parse_via_array (fuel : nat) (self : SJR) (tail : string) (r : SJR * string) :
  parseArray fuel self (String "[" tail) = Ret (true, fst r, snd r) ->
  parse (S fuel) self (String "[" tail) = Ret (true, fst r, snd r).
Proof.
  intros H. cbn [parse].
  change (skipWhiteSpace (String "[" tail)) with (Ret (String "[" tail)).
  cbn [bind]. unfold parseString, parseBool, parseNumber.
  change (is_char "[" DQUOTE) with false.
  cbn [memcmp_eq bind].
  change (is_char "[" "t") with false. change (is_char "[" "f") with false.
  cbn [bind orb].
  change (is_char "[" "-") with false. change (is_char "[" "+") with false.
  change (isdigit "[") with false.
  cbn [bind orb]. rewrite H. reflexivity.
Qed.

Lemma parse_via_object (fuel : nat) (self : SJR) (tail : string) (r : SJR * string) :
  parseObject fuel self (String "{" tail) = Ret (true, fst r, snd r) ->
  parse (S fuel) self (String "{" tail) = Ret (true, fst r, snd r).
Proof.
  intros H. destruct fuel as [| fuel]; [discriminate |].
  cbn [parse].
  change (skipWhiteSpace (String "{" tail)) with (Ret (String "{" tail)).
  cbn [bind]. unfold parseString, parseBool, parseNumber.
  change (is_char "{" DQUOTE) with false.
  cbn [memcmp_eq bind].
  change (is_char "{" "t") with false. change (is_char "{" "f") with false.
  cbn [bind orb].
  change (is_char "{" "-") with false. change (is_char "{" "+") with false.
  change (isdigit "{") with false.
  cbn [bind orb].
  change (parseArray (S fuel) self (String "{" tail))
    with (Ret (false, self, String "{" tail) : outcome parsed).
  cbn [bind]. rewrite H. reflexivity.
Qed.

Lemma round_trips_array (v : list SJR) :
  Forall round_trips v -> round_trips (mkSJR [] v "" ARRAY).
Proof.
  intros Hall st.
  destruct v as [| e v].
  - exists (mk_wstate (out st ++ "[]") (tabsCount st)), "", "[]", 3%nat.
    split.
    { cbn [write type]. unfold writeArray, put.
      cbn [vectorJson writeArray_loop bind out tabsCount].
      rewrite string_app_assoc. reflexivity. }
    split; [reflexivity |].
    split; [reflexivity |].
    split; [reflexivity |].
    intros extra rest _. reflexivity.
  - destruct (writeArray_loop_round_trip (e :: v) Hall ltac:(discriminate)
                (mk_wstate (out st ++ "[") (tabsCount st)))
      as (st2 & body & f & Hw & Ho & Hp).
    exists (mk_wstate (out st2 ++ "]") (tabsCount st2)),
           "", ("[" ++ body ++ "]"), (S (S f)).
    split.
    { cbn [write type]. unfold writeArray, put. cbn [vectorJson bind].
      rewrite Hw. reflexivity. }
    split.
    { cbn [out]. rewrite Ho. cbn [out append]. rewrite !string_app_assoc.
      reflexivity. }
    split; [reflexivity |].
    split; [reflexivity |].
    intros extra rest _.
    cbn [append]. rewrite string_app_assoc. cbn [append Nat.add].
    apply (parse_via_array (S (f + extra)) default_SJR _
             (mkSJR [] (e :: v) "" ARRAY, rest)).
    cbn [parseArray peek bind fst snd].
    change (is_char "[" "[") with true. cbv iota.
    exact (Hp extra "" (set_type ARRAY default_SJR) rest eq_refl).
Qed.

(** Brings both sides of an equation between texts to the same shape. *)
Ltac norm_text :=
  unfold str1; repeat progress (rewrite ?string_app_assoc; cbn [append]).

Lemma parseObject_key_plain (fuel : nat) (k acc rest : string) :
  plain k = true -> (String.length k < fuel)%nat ->
  parseObject_key fuel acc (k ++ String DQUOTE rest) =
  Ret (acc ++ k, String DQUOTE rest).
Proof.
  revert k acc. induction fuel as [| fuel IH]; intros k acc Hk Hlen; [lia |].
  destruct k as [| c k].
  - cbn. rewrite string_app_nil_r. reflexivity.
  - destruct (plain_cons _ _ Hk) as (Hq & Hsp & Hk').
    change (String c k ++ String DQUOTE rest)
      with (String c (k ++ String DQUOTE rest)).
    cbn [parseObject_key]. rewrite Hq. cbn [negb].
    rewrite skipWhiteSpace_stop by exact Hsp. cbn [bind].
    rewrite Hq.
    rewrite IH by (assumption || (cbn [String.length] in Hlen; lia)).
    norm_text. reflexivity.
Qed.

Lemma sorted_keys_prefix {T : Type} (a b : map_t T) :
  sorted_keys (a ++ b)%list -> sorted_keys a.
Proof.
  unfold sorted_keys, keys. rewrite map_app.
  induction (map fst a) as [| k ks IH]; intros H; [constructor |].
  cbn [app] in H. inversion H as [| ? ? Hs Hall]; subst.
  constructor; [apply IH; exact Hs |].
  apply Forall_app in Hall. exact (proj1 Hall).
Qed.

(** Assigning under a key above all the keys present appends the entry. *)
Lemma map_assign_append {T : Type} (k : string) (v : T) (done : map_t T) :
  sorted_keys (done ++ [(k, v)])%list ->
  map_assign k v done = (done ++ [(k, v)])%list.
Proof.
  unfold sorted_keys.
  induction done as [| [k0 v0] done IH]; intros H; [reflexivity |].
  cbn [app keys map fst] in H. inversion H as [| ? ? Hs Hall]; subst.
  assert (Hlt : key_lt k0 k).
  { unfold keys in Hall. rewrite map_app in Hall.
    apply Forall_app in Hall. destruct Hall as [_ Hk].
    inversion Hk; subst. assumption. }
  cbn [map_assign app].
  unfold key_lt in Hlt. rewrite String.compare_antisym, Hlt. cbn [CompOpp].
  rewrite (IH Hs). reflexivity.
Qed.

Lemma spaces_then_brace (post rest : string) :
  all_chars isspace post = true ->
  starts_with ends_integer (post ++ String "}" rest) = true /\
  skipWhiteSpace (post ++ String "}" rest) = Ret (String "}" rest).
Proof.
  intros Hpost. split.
  - destruct post as [| c post]; [reflexivity |].
    simpl in Hpost. apply andb_true_iff in Hpost.
    exact (proj1 (isspace_facts c (proj1 Hpost))).
  - rewrite skipWhiteSpace_terminated by reflexivity.
    rewrite drop_spaces_all by exact Hpost. reflexivity.
Qed.

(** One turn of the loop of [parseObject] over a pair that parses. *)
Lemma parseObject_loop_turn
      (fuel : nat) (self : SJR) (pre k ws core rest1 : string) (child : SJR) :
  all_chars isspace pre = true ->
  plain k = true -> (String.length k < fuel)%nat ->
  all_chars isspace ws = true ->
  starts_with value_start core = true ->
  parse fuel default_SJR (core ++ rest1) = Ret (true, child, rest1) ->
  parseObject_loop (S fuel) self
    (pre ++ String DQUOTE (k ++ String DQUOTE
                             (String ":" (String " " (ws ++ core ++ rest1))))) =
  (let self := set_mapJson (map_assign k child (mapJson self))
                           (set_type OBJECT self) in
   file <- skipWhiteSpace rest1 ;;
   '(c, rest) <- peek file ;;
   if is_char c "}" then Ret (true, self, rest) else
   if negb (is_char c ",") then Ret (false, self, file) else
   parseObject_loop fuel self rest).
Proof.
  intros Hpre Hk Hlen Hws Hcore Hparse.
  destruct (starts_with_cons _ _ Hcore) as (h & coretail & -> & Hh).
  destruct (value_start_facts h Hh) as (Hsp & _ & _).
  change (String h coretail ++ rest1) with (String h (coretail ++ rest1)) in *.
  set (after := k ++ String DQUOTE
                      (String ":" (String " " (ws ++ String h (coretail ++ rest1))))).
  destruct (first_byte pre DQUOTE after Hpre) as (c & tl & Hfirst & Hc).
  cbn [parseObject_loop].
  rewrite Hfirst at 1. cbn [peek bind].
  assert (Hnot : is_char c "}" = false).
  { destruct Hc as [-> | Hc]; [reflexivity |].
    exact (proj1 (proj2 (proj2 (isspace_facts c Hc)))). }
  rewrite Hnot. cbn [negb].
  rewrite skipWhiteSpace_terminated by exact isspace_DQUOTE.
  rewrite drop_spaces_all by exact Hpre. cbn [append bind peek].
  change (is_char DQUOTE "}") with false.
  change (is_char DQUOTE DQUOTE) with true. cbv iota.
  unfold after.
  rewrite parseObject_key_plain by assumption. cbn [append bind peek].
  change (is_char DQUOTE DQUOTE) with true. cbn [negb]. cbv iota.
  change (skipWhiteSpace
            (String ":" (String " " (ws ++ String h (coretail ++ rest1)))))
    with (Ret (String ":" (String " " (ws ++ String h (coretail ++ rest1)))) : outcome string).
  cbn [bind peek].
  change (is_char ":" ":") with true. cbn [negb]. cbv iota.
  change (String " " (ws ++ String h (coretail ++ rest1)))
    with (String " " ws ++ String h (coretail ++ rest1)).
  rewrite skipWhiteSpace_terminated by exact Hsp.
  rewrite drop_spaces_all by (simpl; exact Hws). cbn [append bind].
  rewrite Hparse. cbn [bind negb]. reflexivity.
Qed.

Lemma writeObject_loop_round_trip (m : list (string * SJR)) :
  Forall (fun k => plain k = true) (keys m) ->
  Forall round_trips (map snd m) -> m <> [] ->
  forall st, exists st' body fuel,
    writeObject_loop write m st = Ret st' /\
    out st' = out st ++ body /\
    forall extra pre post self rest,
      all_chars isspace pre = true -> all_chars isspace post = true ->
      sorted_keys (mapJson self ++ m)%list ->
      parseObject_loop (fuel + extra) self
                       (pre ++ body ++ post ++ String "}" rest) =
      Ret (true, set_mapJson (mapJson self ++ m)%list (set_type OBJECT self),
           rest).
Proof.
  induction m as [| [k child] m IH]; intros Hkeys Hall Hne st; [congruence |].
  cbn [keys map fst snd] in Hkeys, Hall.
  inversion Hkeys as [| ? ? Hk Hkeys']; subst.
  inversion Hall as [| ? ? Hchild Hall']; subst.
  destruct (Hchild (mk_wstate ((out st ++ str1 DQUOTE ++ k ++ str1 DQUOTE) ++ ": ")
                              (tabsCount st)))
    as (st1 & ws & core & fc & Hw & Ho & Hws & Hcore & Hp).
  cbn [out] in Ho.
  destruct m as [| p2 m].
  - exists st1,
           (String DQUOTE (k ++ String DQUOTE (String ":" (String " " (ws ++ core))))),
           (S (Nat.max fc (S (String.length k)))).
    split.
    { cbn [writeObject_loop]. unfold put at 1 2. cbn [bind out tabsCount].
      rewrite Hw. reflexivity. }
    split; [rewrite Ho; norm_text; reflexivity |].
    intros extra pre post self rest Hpre Hpost Hsorted.
    destruct (spaces_then_brace post rest Hpost) as [Hend Hskip].
    norm_text. cbn [Nat.add].
    rewrite (parseObject_loop_turn (Nat.max fc (S (String.length k)) + extra)
               self pre k ws core (post ++ String "}" rest) child);
      try assumption; try lia.
    + cbv zeta. rewrite Hskip. cbn [bind peek].
      change (is_char "}" "}") with true. cbv iota.
      cbn [mapJson set_type].
      rewrite map_assign_append by exact Hsorted. reflexivity.
    + replace (Nat.max fc (S (String.length k)) + extra)%nat
        with (fc + (Nat.max fc (S (String.length k)) + extra - fc))%nat by lia.
      apply Hp. exact Hend.
  - destruct (IH Hkeys' Hall' ltac:(discriminate)
                (mk_wstate
                   (((out st1 ++ ", ") ++ str1 LF) ++
                    tabs (Z.to_nat (wrap_size (tabsCount st1))))
                   (tabsCount st1)))
      as (st3 & body2 & f2 & Hw2 & Ho2 & Hp2).
    cbn [out] in Ho2.
    set (sep := String LF (tabs (Z.to_nat (wrap_size (tabsCount st1))))) in *.
    exists st3,
           (String DQUOTE
              (k ++ String DQUOTE
                      (String ":" (String " "
                         (ws ++ core ++ String "," (String " " (sep ++ body2))))))),
           (S (Nat.max (Nat.max fc f2) (S (String.length k)))).
    split.
    { cbn [writeObject_loop]. unfold put at 1 2. cbn [bind out tabsCount].
      rewrite Hw. cbn [bind].
      unfold put at 1 2, writeTabs_static, writeTabs. cbn [bind out tabsCount].
      unfold put at 1. cbn [out tabsCount]. exact Hw2. }
    split.
    { rewrite Ho2, Ho. unfold sep. norm_text. reflexivity. }
    intros extra pre post self rest Hpre Hpost Hsorted.
    set (N := (Nat.max (Nat.max fc f2) (S (String.length k)) + extra)%nat).
    norm_text. cbn [Nat.add]. fold N.
    assert (Hsorted1 : sorted_keys (mapJson self ++ [(k, child)])%list).
    { apply (sorted_keys_prefix _ (p2 :: m)).
      rewrite <- app_assoc. exact Hsorted. }
    rewrite (parseObject_loop_turn N self pre k ws core
               (String "," (String " " (sep ++ body2 ++ post ++ String "}" rest)))
               child);
      try assumption; try (unfold N; lia).
    + cbv zeta.
      change (skipWhiteSpace
                (String "," (String " " (sep ++ body2 ++ post ++ String "}" rest))))
        with (Ret (String "," (String " " (sep ++ body2 ++ post ++ String "}" rest)))
              : outcome string).
      cbn [bind peek].
      change (is_char "," "}") with false. change (is_char "," ",") with true.
      cbn [negb]. cbv iota.
      cbn [mapJson set_type].
      rewrite map_assign_append by exact Hsorted1.
      replace N with (f2 + (N - f2))%nat by (unfold N; lia).
      pose proof (Hp2 (N - f2)%nat (String " " sep) post
                      (set_mapJson (mapJson self ++ [(k, child)])%list
                                   (set_type OBJECT self))
                      rest) as H.
      cbn [append mapJson set_mapJson set_type] in H.
      rewrite H.
      * cbn [set_mapJson set_type mapJson vectorJson value type].
        rewrite <- app_assoc. reflexivity.
      * unfold sep. simpl. apply tabs_spaces.
      * exact Hpost.
      * rewrite <- app_assoc. exact Hsorted.
    + replace N with (fc + (N - fc))%nat by (unfold N; lia).
      apply Hp. reflexivity.
Qed.

Lemma round_trips_object (m : list (string * SJR)) :
  sorted_keys m ->
  Forall (fun k => plain k = true) (keys m) ->
  Forall round_trips (map snd m) ->
  round_trips (mkSJR m [] "" OBJECT).
Proof.
  intros Hsorted Hkeys Hall st.
  set (n0 := Z.to_nat (wrap_size (tabsCount st))).
  set (c1 := wrap_int (tabsCount st + 1)).
  set (n1 := Z.to_nat (wrap_size c1)).
  set (st5 := mk_wstate ((((out st ++ str1 LF) ++ tabs n0) ++ "{" ++ str1 LF)
                           ++ tabs n1) c1).
  assert (Hopen :
             write (mkSJR m [] "" OBJECT) st =
             (st6 <- writeObject_loop write m st5 ;;
              put "}"
                  (mk_wstate
                     ((out st6 ++ str1 LF) ++
                      tabs (Z.to_nat (wrap_size (wrap_int (tabsCount st6 + -1)))))
                     (wrap_int (tabsCount st6 + -1))))).
  { cbn [write type]. unfold writeObject.
    cbn [value mapJson bind].
    unfold put at 1 2, writeTabs_static at 1 2, writeTabs, add_tabsCount at 1.
    unfold put at 1 2. cbn [bind out tabsCount]. fold n0 c1 n1 st5.
    destruct (writeObject_loop write m st5) as [st6 | | |]; reflexivity. }
  destruct m as [| p m].
  - set (n2 := Z.to_nat (wrap_size (wrap_int (c1 + -1)))).
    exists (mk_wstate ((((out st5) ++ str1 LF) ++ tabs n2) ++ "}")
                      (wrap_int (c1 + -1))),
           (String LF (tabs n0)),
           (String "{" (String LF (tabs n1 ++ String LF (tabs n2 ++ "}")))),
           4%nat.
    split.
    { rewrite Hopen. cbn [writeObject_loop bind]. unfold put, st5.
      cbn [out tabsCount]. reflexivity. }
    split; [unfold st5; cbn [out]; norm_text; reflexivity |].
    split; [simpl; apply tabs_spaces |].
    split; [reflexivity |].
    intros extra rest _. norm_text. cbn [Nat.add].
    apply (parse_via_object (S (S (S extra))) default_SJR _
             (mkSJR [] [] "" OBJECT, rest)).
    cbn [parseObject parseObject_loop peek bind fst snd].
    change (is_char "{" "{") with true. cbv iota.
    change (is_char LF "}") with false. cbn [negb]. cbv iota.
    change (String LF (tabs n1 ++ String LF (tabs n2 ++ String "}" rest)))
      with (String LF (tabs n1) ++ String LF (tabs n2) ++ String "}" rest).
    rewrite <- string_app_assoc.
    rewrite skipWhiteSpace_terminated by reflexivity.
    rewrite drop_spaces_all
      by (rewrite all_chars_app; simpl; rewrite !tabs_spaces; reflexivity).
    cbn [bind peek]. change (is_char "}" "}") with true. reflexivity.
  - destruct (writeObject_loop_round_trip (p :: m) Hkeys Hall ltac:(discriminate) st5)
      as (st6 & body & f & Hw & Ho & Hp).
    set (c2 := wrap_int (tabsCount st6 + -1)) in *.
    set (n2 := Z.to_nat (wrap_size c2)) in *.
    exists (mk_wstate (((out st6 ++ str1 LF) ++ tabs n2) ++ "}") c2),
           (String LF (tabs n0)),
           (String "{" (String LF (tabs n1 ++ body ++ String LF (tabs n2 ++ "}")))),
           (S (S (S f))).
    split.
    { rewrite Hopen, Hw. cbn [bind]. unfold put. cbn [out tabsCount].
      reflexivity. }
    split; [cbn [out]; rewrite Ho; unfold st5; cbn [out]; norm_text; reflexivity |].
    split; [simpl; apply tabs_spaces |].
    split; [reflexivity |].
    intros extra rest _. norm_text. cbn [Nat.add].
    apply (parse_via_object (S (S (f + extra))) default_SJR _
             (mkSJR (p :: m) [] "" OBJECT, rest)).
    cbn [parseObject peek bind fst snd].
    change (is_char "{" "{") with true. cbv iota.
    pose proof (Hp (S extra) (String LF (tabs n1)) (String LF (tabs n2))
                   (set_type OBJECT default_SJR) rest) as H.
    replace (f + S extra)%nat with (S (f + extra)) in H by lia.
    cbn [append] in H. rewrite H; try reflexivity.
    + simpl. apply tabs_spaces.
    + simpl. apply tabs_spaces.
    + exact Hsorted.
Qed.

(** Every tree in the written form is given back by the parser from the
    text the writer makes of it. *)
Lemma canonical_round_trips (t : SJR) : canonical t -> round_trips t.
Proof.
  induction t as [t IHm IHv] using SJR_induction. intros Hc.
  inversion Hc as [b | v Hv | s Hs | v Hall | m Hsorted Hkeys Hall]; subst.
  - apply round_trips_bool.
  - apply round_trips_int. exact Hv.
  - apply round_trips_string. exact Hs.
  - apply round_trips_array. cbn [vectorJson] in IHv.
    rewrite Forall_forall in *. intros x Hx. exact (IHv x Hx (Hall x Hx)).
  - apply round_trips_object; try assumption. cbn [mapJson] in IHm.
    rewrite Forall_forall in *. intros x Hx. exact (IHm x Hx (Hall x Hx)).
Qed.

(** X13.  What [save] writes, [load] reads back.  For every tree in the
    written form (see [canonical]) and every starting indentation, [save]
    returns [true], and [load] of the text it wrote into a fresh node
    returns exactly the tree, with any fuel from some bound on. *)
Theorem save_load_round_trip (t : SJR) (tabsCount0 : Z) (Ht : canonical t) :
  exists text tabsCount1 fuel,
    save true t tabsCount0 = Ret (true, mk_wstate text tabsCount1) /\
    forall extra, load (fuel + extra) (Some text) default_SJR = Ret t.
Proof.
  destruct (canonical_round_trips t Ht (mk_wstate "" tabsCount0))
    as ([text c] & ws & core & fuel & Hw & Ho & Hws & _ & Hp).
  cbn [out append] in Ho. subst text.
  exists (ws ++ core), c, fuel. split.
  - unfold save. cbn [negb]. rewrite Hw. reflexivity.
  - intros extra. rewrite load_Some, string_app_assoc.
    rewrite parse_skip_spaces by exact Hws.
    rewrite (Hp extra (str1 NUL) eq_refl). reflexivity.
Qed.

Lemma save_load_round_trip_witness :
  canonical nested_document /\
  exists text tabsCount1 fuel,
    save true nested_document 0 = Ret (true, mk_wstate text tabsCount1) /\
    forall extra, load (fuel + extra) (Some text) default_SJR = Ret nested_document.
Proof.
  assert (H : canonical nested_document).
  { apply canonical_object.
    - repeat constructor.
    - repeat constructor.
    - constructor; [| constructor; [| constructor]].
      + apply canonical_array.
        constructor; [| constructor; [| constructor]].
        * apply canonical_int. unfold INT_MAX. lia.
        * apply (canonical_bool true).
      + apply (canonical_string "box"). reflexivity. }
  split; [exact H | exact (save_load_round_trip nested_document 0 H)].
Defined.

(** X14.  A string does not survive [save] and [load] when it holds white
    space.  [save] of a String node writes the text between double quotes as
    it is; [load] of that text into a fresh node gives a String node holding
    the text with every white space byte removed. *)
Theorem save_load_string_drops_spaces
    (s : string) (self : SJR) (tabsCount0 : Z) (Hq : no_quote s = true) :
  save true (setValue_string s self) tabsCount0 =
    Ret (true, mk_wstate (str1 DQUOTE ++ s ++ str1 DQUOTE) tabsCount0) /\
  forall extra,
    load (String.length s + 2 + extra)
         (Some (str1 DQUOTE ++ s ++ str1 DQUOTE)) default_SJR =
    Ret (setValue_string (squeeze s) default_SJR).
Proof.
  split; [reflexivity |].
  intros extra. rewrite load_Some. norm_text.
  replace (String.length s + 2 + extra)%nat
    with (S (String.length s + 1 + extra)) by lia.
  rewrite (parse_via_string (String.length s + 1 + extra) s (String NUL "")
             default_SJR Hq ltac:(lia)).
  reflexivity.
Qed.

Lemma save_load_string_drops_spaces_witness :
  no_quote "a b" = true /\
  load 5 (Some (q "'a b'")) default_SJR = Ret (setValue_string "ab" default_SJR).
Proof.
  split; [reflexivity |].
  exact (proj2 (save_load_string_drops_spaces "a b" default_SJR 0 eq_refl) 0%nat).
Defined.

(** X15.  An Object node that also holds a scalar is not read back.
    [writeObject] puts the scalar in front of the opening brace as a quoted
    label followed by a colon, so whenever [save] returns, the text starts
    with the label, and [load] of it into a fresh node gives a String node
    holding the label (without its white space): the children are lost. *)
Theorem save_load_labelled_object
    (t : SJR) (tabsCount0 : Z) (st' : wstate)
    (Hkind : type t = OBJECT)
    (Hlabel : value t <> "")
    (Hq : no_quote (value t) = true)
    (Hrange : INT_MIN <= tabsCount0 <= INT_MAX)
    (Hsave : save true t tabsCount0 = Ret (true, st')) :
  (exists more,
      out st' = str1 DQUOTE ++ value t ++ str1 DQUOTE ++ ": " ++ more) /\
  forall extra,
    load (String.length (value t) + 2 + extra) (Some (out st')) default_SJR =
    Ret (setValue_string (squeeze (value t)) default_SJR).
Proof.
  unfold save in Hsave. cbn [negb] in Hsave.
  next_statement Hsave. injection Hsave as <-.
  destruct t as [m v val k]. cbn [type value] in *. subst k.
  assert (Hw : write (mkSJR m v "" OBJECT)
                     (mk_wstate (("" ++ str1 DQUOTE ++ val ++ str1 DQUOTE) ++ ": ")
                                tabsCount0)
               = Ret st).
  { destruct val as [| c val]; [congruence |]. exact Hst. }
  destruct (write_steady _ (mk_wstate _ tabsCount0) st Hrange Hw)
    as [_ [more Hout]].
  cbn [out] in Hout.
  assert (Htext : out st =
                  String DQUOTE (val ++ String DQUOTE (String ":" (String " " more)))).
  { rewrite Hout. norm_text. reflexivity. }
  split.
  - exists more. rewrite Htext. norm_text. reflexivity.
  - intros extra. rewrite load_Some, Htext. norm_text.
    replace (String.length val + 2 + extra)%nat
      with (S (String.length val + 1 + extra)) by lia.
    rewrite (parse_via_string (String.length val + 1 + extra) val
               (String ":" (String " " (more ++ String NUL "")))
               default_SJR Hq ltac:(lia)).
    reflexivity.
Qed.

Lemma save_load_labelled_object_witness :
  exists st',
    save true labelled_object 0 = Ret (true, st') /\
    load 5 (Some (out st')) default_SJR = Ret (setValue_string "tag" default_SJR).
Proof.
  assert (H : exists st', save true labelled_object 0 = Ret (true, st')).
  { eexists. vm_compute. reflexivity. }
  destruct H as [st' H]. exists st'. split; [exact H |].
  assert (Hr : INT_MIN <= 0 <= INT_MAX) by (unfold INT_MIN, INT_MAX; lia).
  exact (proj2 (save_load_labelled_object labelled_object 0 st' eq_refl
                  ltac:(discriminate) eq_refl Hr H) 0%nat).
Defined.

(** * What follows the first value

    The parser stops where the first value ends; [load] never looks at what
    comes after. *)

Lemma set_type_same (self : SJR) : set_type (type self) self = self.
Proof. destruct self; reflexivity. Qed.

Lemma parseObject_key_closed (fuel : nat) (k acc rest : string) :
  no_quote k = true -> (String.length k < fuel)%nat ->
  parseObject_key fuel acc (k ++ String DQUOTE rest) =
  Ret (acc ++ squeeze k, String DQUOTE rest).
Proof.
  revert k acc. induction fuel as [| fuel IH]; intros k acc Hq Hlen; [lia |].
  destruct k as [| c k].
  - cbn. rewrite string_app_nil_r. reflexivity.
  - destruct (no_quote_cons _ _ Hq) as [Hc Hqs].
    change (String c k ++ String DQUOTE rest)
      with (String c (k ++ String DQUOTE rest)).
    cbn [parseObject_key]. rewrite Hc. cbn [negb].
    change (String c (k ++ String DQUOTE rest))
      with (String c k ++ String DQUOTE rest).
    rewrite skipWhiteSpace_terminated by exact isspace_DQUOTE. cbn [bind].
    pose proof (no_quote_drop_spaces _ Hq) as Hqu.
    pose proof (drop_spaces_length (String c k)) as Hlu.
    rewrite <- (squeeze_drop_spaces (String c k)).
    destruct (drop_spaces (String c k)) as [| d u] eqn:Hu.
    + cbn. rewrite string_app_nil_r. reflexivity.
    + destruct (no_quote_cons _ _ Hqu) as [Hd Hqu'].
      pose proof (drop_spaces_head _ _ _ Hu) as Hsp.
      change (String d u ++ String DQUOTE rest)
        with (String d (u ++ String DQUOTE rest)).
      cbv iota. rewrite Hd.
      rewrite IH by (assumption || (cbn [String.length] in *; lia)).
      cbn [squeeze]. rewrite Hsp. norm_text. reflexivity.
Qed.

(** White space and then a byte that closes or separates: the white space
    is skipped, and the byte does not continue a number. *)
Lemma spaces_then (ws : string) (c : ascii) (rest : string) :
  all_chars isspace ws = true -> isspace c = false -> ends_integer c = true ->
  starts_with ends_integer (ws ++ String c rest) = true /\
  skipWhiteSpace (ws ++ String c rest) = Ret (String c rest).
Proof.
  intros Hws Hc He. split.
  - destruct ws as [| d ws]; [exact He |].
    simpl in Hws. apply andb_true_iff in Hws.
    exact (proj1 (isspace_facts d (proj1 Hws))).
  - rewrite skipWhiteSpace_terminated by exact Hc.
    rewrite drop_spaces_all by exact Hws. reflexivity.
Qed.

(** One turn of the loop of [parseObject] over a pair that parses, with
    any white space around the key, the colon and the value. *)
Lemma parseObject_loop_entry
      (fuel : nat) (self : SJR) (pre k ws1 ws2 core rest1 : string) (child : SJR) :
  all_chars isspace pre = true ->
  no_quote k = true -> (String.length k < fuel)%nat ->
  all_chars isspace ws1 = true -> all_chars isspace ws2 = true ->
  starts_with value_start core = true ->
  parse fuel default_SJR (core ++ rest1) = Ret (true, child, rest1) ->
  parseObject_loop (S fuel) self
    (pre ++ String DQUOTE (k ++ String DQUOTE
                             (ws1 ++ String ":" (ws2 ++ core ++ rest1)))) =
  (let self := set_mapJson (map_assign (squeeze k) child (mapJson self))
                           (set_type OBJECT self) in
   file <- skipWhiteSpace rest1 ;;
   '(c, rest) <- peek file ;;
   if is_char c "}" then Ret (true, self, rest) else
   if negb (is_char c ",") then Ret (false, self, file) else
   parseObject_loop fuel self rest).
Proof.
  intros Hpre Hk Hlen Hws1 Hws2 Hcore Hparse.
  destruct (starts_with_cons _ _ Hcore) as (h & coretail & -> & Hh).
  destruct (value_start_facts h Hh) as (Hsp & _ & _).
  change (String h coretail ++ rest1) with (String h (coretail ++ rest1)) in *.
  set (after := k ++ String DQUOTE
                      (ws1 ++ String ":" (ws2 ++ String h (coretail ++ rest1)))).
  destruct (first_byte pre DQUOTE after Hpre) as (c & tl & Hfirst & Hc).
  cbn [parseObject_loop].
  rewrite Hfirst at 1. cbn [peek bind].
  assert (Hnot : is_char c "}" = false).
  { destruct Hc as [-> | Hc]; [reflexivity |].
    exact (proj1 (proj2 (proj2 (isspace_facts c Hc)))). }
  rewrite Hnot. cbn [negb].
  rewrite skipWhiteSpace_terminated by exact isspace_DQUOTE.
  rewrite drop_spaces_all by exact Hpre. cbn [append bind peek].
  change (is_char DQUOTE "}") with false.
  change (is_char DQUOTE DQUOTE) with true. cbv iota.
  unfold after.
  rewrite parseObject_key_closed by assumption. cbn [append bind peek].
  change (is_char DQUOTE DQUOTE) with true. cbn [negb]. cbv iota.
  rewrite skipWhiteSpace_terminated by reflexivity.
  rewrite drop_spaces_all by exact Hws1. cbn [append bind peek].
  change (is_char ":" ":") with true. cbn [negb]. cbv iota.
  rewrite skipWhiteSpace_terminated by exact Hsp.
  rewrite drop_spaces_all by exact Hws2. cbn [append bind].
  rewrite Hparse. cbn [bind negb]. reflexivity.
Qed.

Lemma reads_bool (b : bool) :
  reads_value (ostream_boolalpha b) (setValue_bool b default_SJR).
Proof.
  split; [destruct b; reflexivity |].
  exists 1%nat. intros extra rest _.
  exact (parse_bool_then_anything extra default_SJR "" b rest eq_refl).
Qed.

Lemma reads_int (sign ds : string) :
  sign = "" \/ sign = "+" \/ sign = "-" ->
  all_chars isdigit ds = true -> ds <> "" ->
  decimal_value ds <= INT_MAX ->
  reads_value (sign ++ ds) (setValue_int (signed_value sign ds) default_SJR).
Proof.
  intros Hsign Hds Hne Hmax. split.
  - destruct ds as [| d ds]; [congruence |].
    simpl in Hds. apply andb_true_iff in Hds. destruct Hds as [Hd _].
    destruct Hsign as [-> | [-> | ->]]; try reflexivity.
    cbn [append starts_with]. unfold value_start. rewrite Hd.
    rewrite !orb_true_r. reflexivity.
  - exists 1%nat. intros extra rest Hrest.
    destruct (starts_with_cons _ _ (Hrest eq_refl)) as (c & tail & -> & Hc).
    rewrite string_app_assoc.
    apply (parse_via_integer extra sign ds c tail default_SJR);
      try assumption.
    right. exact Hne.
Qed.

Lemma reads_string (s : string) :
  no_quote s = true -> ends_with_space s = false ->
  reads_value (String DQUOTE (s ++ str1 DQUOTE))
              (setValue_string (squeeze s) default_SJR).
Proof.
  intros Hq Hend. split; [reflexivity |].
  exists (S (S (String.length s))). intros extra rest _.
  norm_text.
  pose proof (parse_via_string (S (String.length s) + extra) s rest default_SJR
                Hq ltac:(lia)) as H.
  rewrite Hend in H. exact H.
Qed.

Lemma reads_array (body : string) (elements : list SJR) :
  reads_elements body elements ->
  reads_value (String "[" (body ++ "]")) (mkSJR [] elements "" ARRAY).
Proof.
  intros (f & Hp). split; [reflexivity |].
  exists (S (S f)). intros extra rest _.
  norm_text. cbn [Nat.add].
  apply (parse_via_array (S (f + extra)) default_SJR _
           (mkSJR [] elements "" ARRAY, rest)).
  cbn [parseArray peek bind fst snd].
  change (is_char "[" "[") with true. cbv iota.
  exact (Hp extra (set_type ARRAY default_SJR) rest eq_refl).
Qed.

Lemma reads_object (body : string) (entries : list (string * SJR)) :
  reads_entries body entries ->
  reads_value (String "{" (body ++ "}"))
              (mkSJR (assign_all entries []) [] "" OBJECT).
Proof.
  intros (f & Hp). split; [reflexivity |].
  exists (S (S (S f))). intros extra rest _.
  norm_text. cbn [Nat.add].
  apply (parse_via_object (S (S (f + extra))) default_SJR _
           (mkSJR (assign_all entries []) [] "" OBJECT, rest)).
  cbn [parseObject peek bind fst snd].
  change (is_char "{" "{") with true. cbv iota.
  pose proof (Hp (S extra) (set_type OBJECT default_SJR) rest eq_refl) as H.
  replace (f + S extra)%nat with (S (f + extra)) in H by lia.
  exact H.
Qed.

Lemma reads_elements_none (ws : string) :
  all_chars isspace ws = true -> reads_elements ws [].
Proof.
  intros Hws. exists 1%nat. intros extra self rest _.
  rewrite app_nil_r, set_vectorJson_same.
  destruct ws as [| c ws].
  - reflexivity.
  - pose proof Hws as Hws'. simpl in Hws'.
    apply andb_true_iff in Hws'. destruct Hws' as [Hc _].
    destruct (isspace_facts c Hc) as (_ & Hbr & _).
    cbn [Nat.add parseArray_loop append peek bind]. rewrite Hbr. cbn [negb].
    change (String c (ws ++ String "]" rest))
      with (String c ws ++ String "]" rest).
    rewrite skipWhiteSpace_terminated by reflexivity.
    rewrite drop_spaces_all by exact Hws. reflexivity.
Qed.

Lemma set_type_set_vectorJson (v : list SJR) (self : SJR) :
  type self = ARRAY ->
  set_type ARRAY (set_vectorJson v self) = set_vectorJson v self.
Proof. destruct self; cbn; intros ->; reflexivity. Qed.

Lemma reads_elements_last (ws text ws' : string) (node : SJR) :
  all_chars isspace ws = true -> reads_value text node ->
  all_chars isspace ws' = true ->
  reads_elements (ws ++ text ++ ws') [node].
Proof.
  intros Hws (Hstart & f & Hp) Hws'.
  exists (S f). intros extra self rest Hty.
  destruct (spaces_then ws' "]" rest Hws' eq_refl eq_refl) as [Hend Hskip].
  pose proof (parseArray_loop_turn (f + extra) self "" ws text
                (ws' ++ String "]" rest) node eq_refl Hws Hstart
                (Hp extra _ (fun _ => Hend))) as H.
  cbn [append] in H. norm_text. cbn [Nat.add]. rewrite H.
  cbv zeta. rewrite Hskip. cbn [bind peek].
  change (is_char "]" "]") with true. cbv iota.
  rewrite set_type_set_vectorJson by exact Hty. reflexivity.
Qed.

Lemma reads_elements_more
      (ws text ws' body : string) (node : SJR) (nodes : list SJR) :
  all_chars isspace ws = true -> reads_value text node ->
  all_chars isspace ws' = true -> reads_elements body nodes ->
  reads_elements (ws ++ text ++ ws' ++ String "," body) (node :: nodes).
Proof.
  intros Hws (Hstart & f & Hp) Hws' (fb & Hb).
  exists (S (Nat.max f fb)). intros extra self rest Hty.
  set (N := (Nat.max f fb + extra)%nat).
  destruct (spaces_then ws' "," (body ++ String "]" rest) Hws' eq_refl eq_refl)
    as [Hend Hskip].
  assert (Hparse : parse N default_SJR
                         (text ++ ws' ++ String "," (body ++ String "]" rest)) =
                   Ret (true, node, ws' ++ String "," (body ++ String "]" rest))).
  { replace N with (f + (N - f))%nat by (unfold N; lia).
    apply Hp. intros _. exact Hend. }
  pose proof (parseArray_loop_turn N self "" ws text _ node
                eq_refl Hws Hstart Hparse) as H.
  cbn [append] in H. norm_text. cbn [Nat.add]. fold N. rewrite H.
  cbv zeta. rewrite Hskip. cbn [bind peek].
  change (is_char "," "]") with false. change (is_char "," ",") with true.
  cbn [negb]. cbv iota.
  replace N with (fb + (N - fb))%nat by (unfold N; lia).
  rewrite Hb by (destruct self; exact Hty).
  destruct self. cbn [vectorJson set_vectorJson mapJson value type].
  rewrite <- app_assoc. reflexivity.
Qed.

Lemma reads_entries_none (ws : string) :
  all_chars isspace ws = true -> reads_entries ws [].
Proof.
  intros Hws. exists 1%nat. intros extra self rest _.
  cbn [assign_all fold_left]. rewrite set_mapJson_same.
  destruct ws as [| c ws].
  - reflexivity.
  - pose proof Hws as Hws'. simpl in Hws'.
    apply andb_true_iff in Hws'. destruct Hws' as [Hc _].
    destruct (isspace_facts c Hc) as (_ & _ & Hbr & _).
    cbn [Nat.add parseObject_loop append peek bind]. rewrite Hbr. cbn [negb].
    change (String c (ws ++ String "}" rest))
      with (String c ws ++ String "}" rest).
    rewrite skipWhiteSpace_terminated by reflexivity.
    rewrite drop_spaces_all by exact Hws. reflexivity.
Qed.

Lemma reads_entries_last (ws k ws1 ws2 text ws' : string) (node : SJR) :
  all_chars isspace ws = true -> no_quote k = true ->
  all_chars isspace ws1 = true -> all_chars isspace ws2 = true ->
  reads_value text node -> all_chars isspace ws' = true ->
  reads_entries
    (ws ++ String DQUOTE (k ++ String DQUOTE
                            (ws1 ++ String ":" (ws2 ++ text ++ ws'))))
    [(squeeze k, node)].
Proof.
  intros Hws Hk Hws1 Hws2 (Hstart & f & Hp) Hws'.
  exists (S (Nat.max f (S (String.length k)))). intros extra self rest Hty.
  set (N := (Nat.max f (S (String.length k)) + extra)%nat).
  destruct (spaces_then ws' "}" rest Hws' eq_refl eq_refl) as [Hend Hskip].
  assert (Hparse : parse N default_SJR (text ++ ws' ++ String "}" rest) =
                   Ret (true, node, ws' ++ String "}" rest)).
  { replace N with (f + (N - f))%nat by (unfold N; lia).
    apply Hp. intros _. exact Hend. }
  norm_text. cbn [Nat.add]. fold N.
  rewrite (parseObject_loop_entry N self ws k ws1 ws2 text _ node);
    try assumption; try (unfold N; lia).
  cbv zeta. rewrite Hskip. cbn [bind peek].
  change (is_char "}" "}") with true. cbv iota.
  destruct self. cbn in Hty. subst. reflexivity.
Qed.

Lemma reads_entries_more
      (ws k ws1 ws2 text ws' body : string) (node : SJR)
      (entries : list (string * SJR)) :
  all_chars isspace ws = true -> no_quote k = true ->
  all_chars isspace ws1 = true -> all_chars isspace ws2 = true ->
  reads_value text node -> all_chars isspace ws' = true ->
  reads_entries body entries ->
  reads_entries
    (ws ++ String DQUOTE (k ++ String DQUOTE
                            (ws1 ++ String ":"
                               (ws2 ++ text ++ ws' ++ String "," body))))
    ((squeeze k, node) :: entries).
Proof.
  intros Hws Hk Hws1 Hws2 (Hstart & f & Hp) Hws' (fb & Hb).
  exists (S (Nat.max (Nat.max f fb) (S (String.length k)))).
  intros extra self rest Hty.
  set (N := (Nat.max (Nat.max f fb) (S (String.length k)) + extra)%nat).
  destruct (spaces_then ws' "," (body ++ String "}" rest) Hws' eq_refl eq_refl)
    as [Hend Hskip].
  assert (Hparse : parse N default_SJR
                         (text ++ ws' ++ String "," (body ++ String "}" rest)) =
                   Ret (true, node, ws' ++ String "," (body ++ String "}" rest))).
  { replace N with (f + (N - f))%nat by (unfold N; lia).
    apply Hp. intros _. exact Hend. }
  norm_text. cbn [Nat.add]. fold N.
  rewrite (parseObject_loop_entry N self ws k ws1 ws2 text _ node);
    try assumption; try (unfold N; lia).
  cbv zeta. rewrite Hskip. cbn [bind peek].
  change (is_char "," "}") with false. change (is_char "," ",") with true.
  cbn [negb]. cbv iota.
  replace N with (fb + (N - fb))%nat by (unfold N; lia).
  rewrite Hb by reflexivity.
  destruct self. cbn in Hty. subst. reflexivity.
Qed.

(** Every well-formed value is read as its node, and the parser stops
    right after it. *)
Lemma value_text_reads :
  (forall text node, value_text text node -> reads_value text node) /\
  (forall body nodes, elements_text body nodes -> reads_elements body nodes) /\
  (forall body entries, entries_text body entries -> reads_entries body entries).
Proof.
  apply value_text_mutind; intros.
  - apply reads_bool.
  - apply reads_int; assumption.
  - apply reads_string; assumption.
  - apply reads_array; assumption.
  - apply reads_object; assumption.
  - apply reads_elements_none; assumption.
  - apply reads_elements_last; assumption.
  - apply reads_elements_more; assumption.
  - apply reads_entries_none; assumption.
  - apply reads_entries_last; assumption.
  - apply reads_entries_more; assumption.
Qed.




(** X16.  Loading an array or an object into a node that is already in use
    merges the text into the node.  An array text sets the kind to Array and
    pushes its elements after the elements the node had; an object text sets
    the kind to Object and assigns its pairs, in the order of the text, over
    the children the node had, so a child under a key of the text is
    replaced and the other children stay.  The scalar is left as it was,
    and what follows the closing bracket or brace is ignored. *)
Theorem load_into_used_node
    (self : SJR) (ws body trailing : string)
    (Hws : all_chars isspace ws = true) :
  (forall nodes,
      elements_text body nodes ->
      exists fuel, forall extra,
        load (fuel + extra) (Some (ws ++ String "[" (body ++ "]") ++ trailing)) self =
        Ret (set_type ARRAY (set_vectorJson (vectorJson self ++ nodes) self))) /\
  (forall entries,
      entries_text body entries ->
      exists fuel, forall extra,
        load (fuel + extra) (Some (ws ++ String "{" (body ++ "}") ++ trailing)) self =
        Ret (set_type OBJECT (set_mapJson (assign_all entries (mapJson self)) self))).
Proof.
  split.
  - intros nodes Hbody.
    destruct (proj1 (proj2 value_text_reads) body nodes Hbody) as (f & Hp).
    exists (S (S f)). intros extra.
    rewrite load_Some, !string_app_assoc.
    rewrite parse_skip_spaces by exact Hws.
    norm_text. cbn [Nat.add].
    rewrite (parse_via_array (S (f + extra)) self _
               (set_type ARRAY (set_vectorJson (vectorJson self ++ nodes) self),
                trailing ++ String NUL "")).
    + reflexivity.
    + cbn [parseArray peek bind fst snd].
      change (is_char "[" "[") with true. cbv iota.
      rewrite (Hp extra (set_type ARRAY self) _ eq_refl).
      destruct self; reflexivity.
  - intros entries Hbody.
    destruct (proj2 (proj2 value_text_reads) body entries Hbody) as (f & Hp).
    exists (S (S (S f))). intros extra.
    rewrite load_Some, !string_app_assoc.
    rewrite parse_skip_spaces by exact Hws.
    norm_text. cbn [Nat.add].
    rewrite (parse_via_object (S (S (f + extra))) self _
               (set_type OBJECT (set_mapJson (assign_all entries (mapJson self)) self),
                trailing ++ String NUL "")).
    + reflexivity.
    + cbn [parseObject peek bind fst snd].
      change (is_char "{" "{") with true. cbv iota.
      pose proof (Hp (S extra) (set_type OBJECT self) (trailing ++ String NUL "")
                     eq_refl) as H.
      replace (f + S extra)%nat with (S (f + extra)) in H by lia.
      rewrite H. destruct self; reflexivity.
Qed.

Lemma load_into_used_node_witness :
  entries_text (q "'k': true") [("k", setValue_bool true default_SJR)] /\
  exists fuel, forall extra,
    load (fuel + extra) (Some (q " {'k': true} tail")) used_node =
    Ret (mkSJR [("k", setValue_bool true default_SJR)] [one_child] "old" OBJECT).
Proof.
  assert (He : entries_text (q "'k': true") [("k", setValue_bool true default_SJR)]).
  { exact (entries_last "" "k" "" " " _ "" _ eq_refl eq_refl eq_refl eq_refl
                        (bool_text true) eq_refl). }
  split; [exact He |].
  exact (proj2 (load_into_used_node used_node " " _ " tail" eq_refl) _ He).
Defined.
